(** * Kudu storage primitives: the sharded LRU cache and the MemRowSet

    A shallow embedding of [src/kudu/util/cache.cc] and
    [src/kudu/tablet/memrowset.cc], with the properties of the design
    specification stated and proved over it.

    Conventions of the cache part.
    - Fixed-width unsigned integers ([uint32_t], [size_t]) are integers in
      [Z]; every arithmetic operation of the source that can wrap is written
      with [wrap32] or [wrap64].
    - A heap-allocated [LRUHandle] is named by the identity of its allocation
      (a natural number, never reused), the heap is a finite map from these
      identities to the entry's fields, and [free] deletes the binding.
    - Operations run in the option monad: [None] stands for an execution
      with no defined result (a read through a dangling pointer, an array
      index out of range, or a loop that does not terminate).
    - A shard's mutex makes each operation atomic, so operations are
      sequential state transformers. *)

From stdpp Require Import gmap gmultiset strings list fin_maps.
From Stdlib Require Import ZArith Lia.

Definition wrap32 (z : Z) : Z := (z mod 2 ^ 32)%Z.
Definition wrap64 (z : Z) : Z := (z mod 2 ^ 64)%Z.

(** The identity of one [malloc]ed entry. *)
Abbreviation Handle := nat.

(** ** [struct LRUHandle]

    The link fields [next_hash], [next] and [prev] are carried by the
    containers below: a hash chain is the list of the handles linked through
    [next_hash], and the circular LRU list is the list of the handles linked
    through [next], oldest first.  [key()] is the stored key: the temporary
    handle that points to a key through [value] is not used by this file. *)
Module LRUHandle.
Record t := Make {
  value : Z;          (* void* value *)
  deleter : Z;        (* the function pointer, by identity *)
  charge : Z;         (* size_t *)
  key : string;       (* key_data, key_length *)
  refs : Z;           (* uint32_t *)
  hash : Z            (* uint32_t *)
}.

Definition set_refs (r : Z) (e : t) : t :=
  Make (value e) (deleter e) (charge e) (key e) r (hash e).
End LRUHandle.

Abbreviation Heap := (gmap nat LRUHandle.t).

(** ** [class HandleTable] *)
Module HandleTable.
Record t := Make {
  length_ : Z;                     (* uint32_t *)
  elems_ : Z;                      (* uint32_t *)
  list_ : list (list Handle)       (* LRUHandle** list_: one chain per bucket *)
}.

(** A [LRUHandle**]: the bucket and the offset of the slot in its chain;
    the offset one past the last entry is the trailing slot. *)
Definition slot := (nat * nat)%type.

Definition deref (tb : t) (p : slot) : option Handle :=
  c ← list_ tb !! p.1; c !! p.2.

(** The [while] loop of [FindPointer] along one chain. *)
Fixpoint find_chain (m : Heap) (k : string) (hs : Z) (c : list Handle)
  : option nat :=
  match c with
  | [] => Some 0
  | h :: c' =>
      e ← m !! h;
      if bool_decide (LRUHandle.hash e ≠ hs ∨ k ≠ LRUHandle.key e)
      then S <$> find_chain m k hs c'
      else Some 0
  end.

Definition bucket (len : Z) (hs : Z) : nat :=
  Z.to_nat (Z.land hs (wrap32 (len - 1))).

Definition FindPointer (m : Heap) (tb : t) (k : string) (hs : Z)
  : option slot :=
  let i := bucket (length_ tb) hs in
  c ← list_ tb !! i;
  off ← find_chain m k hs c;
  Some (i, off).

Definition Lookup (m : Heap) (tb : t) (k : string) (hs : Z)
  : option (option Handle) :=
  p ← FindPointer m tb k hs; Some (deref tb p).

(** [new_length = 4; while (new_length < elems_) new_length *= 2;] *)
Fixpoint grow (fuel : nat) (new_length elems : Z) : option Z :=
  if (new_length <? elems)%Z then
    match fuel with
    | O => None
    | S fuel' => grow fuel' (wrap32 (new_length * 2)) elems
    end
  else Some new_length.

(** The two nested loops of [Resize], over the entries in the order the
    source visits them; each is pushed at the front of its new chain. *)
Fixpoint rehash (m : Heap) (new_length : Z) (hs : list Handle)
    (new_list : list (list Handle)) : option (list (list Handle)) :=
  match hs with
  | [] => Some new_list
  | h :: hs' =>
      e ← m !! h;
      let i := bucket new_length (LRUHandle.hash e) in
      _ ← new_list !! i;
      rehash m new_length hs' (alter (cons h) i new_list)
  end.

Definition Resize (m : Heap) (tb : t) : option t :=
  new_length ← grow 32 4 (elems_ tb);
  new_list ← rehash m new_length
               (mjoin (take (Z.to_nat (length_ tb)) (list_ tb)))
               (replicate (Z.to_nat new_length) []);
  Some (Make new_length (elems_ tb) new_list).

(** [*ptr = h] with [h->next_hash] set to the successor of the entry that
    was in the slot, or to [NULL] at the trailing slot. *)
Definition store (p : slot) (h : Handle) (l : list (list Handle))
  : list (list Handle) :=
  alter (λ c, take p.2 c ++ h :: drop (S p.2) c) p.1 l.

Definition Insert (m : Heap) (tb : t) (h : Handle)
  : option (t * option Handle) :=
  e ← m !! h;
  p ← FindPointer m tb (LRUHandle.key e) (LRUHandle.hash e);
  let old := deref tb p in
  let tb1 := Make (length_ tb) (elems_ tb) (store p h (list_ tb)) in
  match old with
  | Some _ => Some (tb1, old)
  | None =>
      let tb2 := Make (length_ tb1) (wrap32 (elems_ tb1 + 1)) (list_ tb1) in
      if (length_ tb2 <? elems_ tb2)%Z
      then tb3 ← Resize m tb2; Some (tb3, None)
      else Some (tb2, None)
  end.

Definition Remove (m : Heap) (tb : t) (k : string) (hs : Z)
  : option (t * option Handle) :=
  p ← FindPointer m tb k hs;
  match deref tb p with
  | Some result =>
      Some (Make (length_ tb) (wrap32 (elems_ tb - 1))
              (alter (delete p.2) p.1 (list_ tb)), Some result)
  | None => Some (tb, None)
  end.

(** [HandleTable() : length_(0), elems_(0), list_(NULL) { Resize(); }] *)
Definition empty : t := Make 4 0 [[]; []; []; []].
End HandleTable.

(** ** [class LRUCache]: one shard *)
Module LRUCache.
(** One call of an entry's deleter: the entry, the function, and the two
    arguments it received. *)
Record deleter_call := Call {
  call_entry : Handle;
  call_fn : Z;
  call_key : string;
  call_value : Z
}.

(** The fields of the shard, followed by the part of the process the
    shard acts on: the allocator's heap, the next allocation, and the
    deleter calls made so far.

    Modelled from the spec: [MemTracker] (kudu/util/mem_tracker.h is not
    among the sources), "consume(bytes), release(bytes)", as the number of
    bytes consumed and not released. *)
Record t := Make {
  capacity_ : Z;                   (* size_t *)
  usage_ : Z;                      (* size_t *)
  lru_ : list Handle;              (* lru_.next is the head, lru_.prev the last *)
  table_ : HandleTable.t;
  heap : Heap;
  brk : Handle;
  mem_tracker_ : Z;
  deleter_calls : list deleter_call
}.

Definition set_heap (m : Heap) (s : t) : t :=
  Make (capacity_ s) (usage_ s) (lru_ s) (table_ s) m (brk s)
       (mem_tracker_ s) (deleter_calls s).
Definition set_lru (l : list Handle) (s : t) : t :=
  Make (capacity_ s) (usage_ s) l (table_ s) (heap s) (brk s)
       (mem_tracker_ s) (deleter_calls s).
Definition set_table (tb : HandleTable.t) (s : t) : t :=
  Make (capacity_ s) (usage_ s) (lru_ s) tb (heap s) (brk s)
       (mem_tracker_ s) (deleter_calls s).

(** [LRUCache(tracker)] followed by [SetCapacity(capacity)]. *)
Definition init (capacity : Z) : t :=
  Make capacity 0 [] HandleTable.empty ∅ 0 0 [].

Definition Unref (s : t) (e : Handle) : option t :=
  en ← heap s !! e;
  let r := wrap32 (LRUHandle.refs en - 1) in
  if (r <=? 0)%Z then
    Some (Make (capacity_ s)
            (wrap64 (usage_ s - LRUHandle.charge en))
            (lru_ s) (table_ s)
            (delete e (heap s))
            (brk s)
            (mem_tracker_ s - LRUHandle.charge en)
            (deleter_calls s ++
               [Call e (LRUHandle.deleter en) (LRUHandle.key en)
                       (LRUHandle.value en)]))
  else Some (set_heap (<[e := LRUHandle.set_refs r en]> (heap s)) s).

(** [LRU_Remove] unlinks a node of the circular list, which holds a node at
    most once; [LRU_Append] links it in before the dummy head, as the newest
    entry. *)
Definition LRU_Remove (e : Handle) (l : list Handle) : list Handle :=
  filter (λ x, x ≠ e) l.

Definition LRU_Append (e : Handle) (l : list Handle) : list Handle :=
  l ++ [e].

Definition Lookup (s : t) (k : string) (hs : Z) : option (t * option Handle) :=
  r ← HandleTable.Lookup (heap s) (table_ s) k hs;
  match r with
  | Some e =>
      en ← heap s !! e;
      let en' := LRUHandle.set_refs (wrap32 (LRUHandle.refs en + 1)) en in
      Some (set_lru (LRU_Append e (LRU_Remove e (lru_ s)))
              (set_heap (<[e := en']> (heap s)) s), Some e)
  | None => Some (s, None)
  end.

Definition Release (s : t) (handle : Handle) : option t := Unref s handle.

(** One iteration of the eviction loop of [Insert]. *)
Definition evict_one (s : t) (old : Handle) : option t :=
  let s1 := set_lru (LRU_Remove old (lru_ s)) s in
  en ← heap s1 !! old;
  r ← HandleTable.Remove (heap s1) (table_ s1)
        (LRUHandle.key en) (LRUHandle.hash en);
  Unref (set_table r.1 s1) old.

(** [while (usage_ > capacity_ && lru_.next != &lru_) { ... }] *)
Fixpoint evict (fuel : nat) (s : t) : option t :=
  match lru_ s with
  | old :: _ =>
      if (capacity_ s <? usage_ s)%Z then
        match fuel with
        | O => None
        | S fuel' => s' ← evict_one s old; evict fuel' s'
        end
      else Some s
  | [] => Some s
  end.

Definition Insert (s : t) (k : string) (hs : Z) (v : Z) (chg : Z) (del : Z)
  : option (t * Handle) :=
  let e := brk s in
  let en := LRUHandle.Make v del chg k 2 hs in
  let s1 := Make (capacity_ s) (wrap64 (usage_ s + chg))
              (LRU_Append e (lru_ s)) (table_ s)
              (<[e := en]> (heap s)) (S (brk s))
              (mem_tracker_ s + chg) (deleter_calls s) in
  r ← HandleTable.Insert (heap s1) (table_ s1) e;
  let s2 := set_table r.1 s1 in
  s3 ← match r.2 with
        | Some old => Unref (set_lru (LRU_Remove old (lru_ s2)) s2) old
        | None => Some s2
        end;
  s4 ← evict (length (lru_ s3)) s3;
  Some (s4, e).

Definition Erase (s : t) (k : string) (hs : Z) : option t :=
  r ← HandleTable.Remove (heap s) (table_ s) k hs;
  let s1 := set_table r.1 s in
  match r.2 with
  | Some e => Unref (set_lru (LRU_Remove e (lru_ s1)) s1) e
  | None => Some s1
  end.
End LRUCache.


(** An allocated entry whose hash and key are the ones looked for: the test
  of the loop of [FindPointer]. *)
Definition matches (m : Heap) (k : string) (hs : Z) (h : Handle) : Prop :=
∃ e, m !! h = Some e ∧ LRUHandle.hash e = hs ∧ LRUHandle.key e = k.

Definition tbl_elems (tb : HandleTable.t) : list Handle :=
mjoin (HandleTable.list_ tb).

(** The representation invariant of the table over a heap: every chained
  entry is allocated and sits in the bucket of its hash, no entry is chained
  twice, no two entries carry the same hash and key, and the counters agree
  with the array. *)
Record table_wf (m : Heap) (tb : HandleTable.t) : Prop := {
wf_length : HandleTable.length_ tb = Z.of_nat (length (HandleTable.list_ tb));
wf_length_bound : (1 ≤ HandleTable.length_ tb < 2 ^ 32)%Z;
wf_elems : HandleTable.elems_ tb = Z.of_nat (length (tbl_elems tb));
wf_elems_bound : (HandleTable.elems_ tb ≤ 2 ^ 31)%Z;
wf_nodup : NoDup (tbl_elems tb);
wf_bucket : ∀ i c h, HandleTable.list_ tb !! i = Some c → h ∈ c →
  ∃ e, m !! h = Some e ∧
       HandleTable.bucket (HandleTable.length_ tb) (LRUHandle.hash e) = i;
wf_unique : ∀ h1 h2 e1 e2,
  h1 ∈ tbl_elems tb → h2 ∈ tbl_elems tb →
  m !! h1 = Some e1 → m !! h2 = Some e2 →
  LRUHandle.hash e1 = LRUHandle.hash e2 →
  LRUHandle.key e1 = LRUHandle.key e2 → h1 = h2
}.

(** * The shard and its callers *)

(** The sum of the charges of the entries that are allocated. *)
Definition live_charge (m : Heap) : Z :=
map_fold (λ _ e acc, (LRUHandle.charge e + acc)%Z) 0%Z m.

(** A shard together with the handles its callers have been given and not
  yet released.  [born] is a ghost record of every entry as [Insert]
  created it. *)
Module Client.
Inductive op :=
| Insert (k : string) (hs v chg del : Z)
| Lookup (k : string) (hs : Z)
| Release (h : Handle)
| Erase (k : string) (hs : Z).

Record config := Config {
  shard : LRUCache.t;
  held : gmultiset Handle;
  born : gmap Handle LRUHandle.t
}.

Definition run (o : op) (c : config) : option config :=
  match o with
  | Insert k hs v chg del =>
      r ← LRUCache.Insert (shard c) k hs v chg del;
      Some (Config r.1 (held c ⊎ {[+ r.2 +]})
              (<[r.2 := LRUHandle.Make v del chg k 2 hs]> (born c)))
  | Lookup k hs =>
      r ← LRUCache.Lookup (shard c) k hs;
      Some (Config r.1
              (match r.2 with Some h => held c ⊎ {[+ h +]} | None => held c end)
              (born c))
  | Release h =>
      s ← LRUCache.Release (shard c) h;
      Some (Config s (held c ∖ {[+ h +]}) (born c))
  | Erase k hs =>
      s ← LRUCache.Erase (shard c) k hs;
      Some (Config s (held c) (born c))
  end.

(** What a caller owes the cache: it releases only handles it holds, it
    passes a charge that is not negative, and it stays within the widths of
    the counters (fewer than 2^31 cached entries before an insert, fewer
    than 2^32 - 2 handles outstanding before a lookup). *)
Definition valid (o : op) (c : config) : Prop :=
  match o with
  | Insert k hs v chg del =>
      (0 ≤ chg)%Z ∧
      (Z.of_nat (length (LRUCache.lru_ (shard c))) < 2 ^ 31)%Z
  | Lookup k hs => (Z.of_nat (size (held c)) + 2 < 2 ^ 32)%Z
  | Release h => h ∈ held c
  | Erase k hs => True
  end.

Definition init (capacity : Z) : config :=
  Config (LRUCache.init capacity) ∅ ∅.

#[export] Instance valid_dec (o : op) (c : config) : Decision (valid o c).
Proof. destruct o; simpl; apply _. Defined.

(** A caller's sequence of operations, stopped at the first one it may not
    issue. *)
Fixpoint exec (ops : list op) (c : config) : option config :=
  match ops with
  | [] => Some c
  | o :: ops' =>
      if decide (valid o c) then c' ← run o c; exec ops' c' else None
  end.

Inductive reachable (capacity : Z) : config → Prop :=
| reach_init : reachable capacity (init capacity)
| reach_step c o c' :
    reachable capacity c → valid o c → run o c = Some c' →
    reachable capacity c'.
End Client.

Definition in_cache (s : LRUCache.t) (h : Handle) : Z :=
if decide (h ∈ LRUCache.lru_ s) then 1%Z else 0%Z.

(** The invariant of a shard and its callers.  [extra] counts references
  that an operation in progress is about to drop; between operations it is
  empty. *)
Record inv (extra : gmultiset Handle) (c : Client.config) : Prop := {
inv_table : table_wf (LRUCache.heap (Client.shard c))
                     (LRUCache.table_ (Client.shard c));
inv_lru_nodup : NoDup (LRUCache.lru_ (Client.shard c));
inv_lru_table : ∀ h, h ∈ LRUCache.lru_ (Client.shard c) ↔
                     h ∈ tbl_elems (LRUCache.table_ (Client.shard c));
inv_lru_live : ∀ h, h ∈ LRUCache.lru_ (Client.shard c) →
                    is_Some (LRUCache.heap (Client.shard c) !! h);
inv_held_live : ∀ h, h ∈ Client.held c →
                     is_Some (LRUCache.heap (Client.shard c) !! h);
inv_extra_live : ∀ h, h ∈ extra →
                      is_Some (LRUCache.heap (Client.shard c) !! h);
inv_refs : ∀ h e, LRUCache.heap (Client.shard c) !! h = Some e →
  (1 ≤ LRUHandle.refs e < 2 ^ 32)%Z ∧
  LRUHandle.refs e =
    (in_cache (Client.shard c) h + Z.of_nat (multiplicity h (Client.held c))
     + Z.of_nat (multiplicity h extra))%Z;
inv_charge : ∀ h e, LRUCache.heap (Client.shard c) !! h = Some e →
                    (0 ≤ LRUHandle.charge e)%Z;
inv_brk : ∀ h, is_Some (LRUCache.heap (Client.shard c) !! h) →
               h < LRUCache.brk (Client.shard c);
inv_usage : LRUCache.usage_ (Client.shard c) =
            wrap64 (live_charge (LRUCache.heap (Client.shard c)));
inv_tracker : LRUCache.mem_tracker_ (Client.shard c) =
              live_charge (LRUCache.heap (Client.shard c));
inv_calls_nodup :
  NoDup (LRUCache.call_entry <$> LRUCache.deleter_calls (Client.shard c));
inv_calls : ∀ h,
  h ∈ LRUCache.call_entry <$> LRUCache.deleter_calls (Client.shard c) ↔
  h < LRUCache.brk (Client.shard c) ∧
  LRUCache.heap (Client.shard c) !! h = None;
inv_born_heap : ∀ h e, LRUCache.heap (Client.shard c) !! h = Some e →
  Client.born c !! h = Some (LRUHandle.set_refs 2 e);
inv_born_calls : ∀ d, d ∈ LRUCache.deleter_calls (Client.shard c) →
  ∃ e, Client.born c !! LRUCache.call_entry d = Some e ∧
       LRUCache.call_fn d = LRUHandle.deleter e ∧
       LRUCache.call_key d = LRUHandle.key e ∧
       LRUCache.call_value d = LRUHandle.value e
}.


(** The sum of the charges of the entries the cache itself holds: those on
  the LRU list, which are those of the hash table. *)
Definition cache_charge (s : LRUCache.t) : Z :=
foldr (λ h acc,
         (match LRUCache.heap s !! h with
          | Some e => LRUHandle.charge e
          | None => 0
          end + acc)%Z) 0%Z (LRUCache.lru_ s).

(** ** Three callers

    The hash passed with a key is the caller's (the sharded cache computes it
    with CityHash64, which is not part of these sources); the examples pass 7
    for ["A"] and 9 for ["B"]. *)

(** Scenario 6 of the specification, first step: one entry of charge 10 is
    inserted into an empty shard of capacity 5. *)
Definition oversized : Client.config :=
  default (Client.init 5)
    (Client.exec [Client.Insert "A" 7 100 10 1] (Client.init 5)).

(** An entry is inserted and erased while the caller keeps its handle. *)
Definition erased_while_held : Client.config :=
  default (Client.init 5)
    (Client.exec [Client.Insert "A" 7 100 1 1; Client.Erase "A" 7]
       (Client.init 5)).

(** Insert, look up, replace by a second entry of the same key, and release
    every handle of the first entry. *)
Definition replaced_and_released : Client.config :=
  default (Client.init 5)
    (Client.exec
       [Client.Insert "A" 7 100 1 1; Client.Lookup "A" 7;
        Client.Insert "A" 7 200 1 1; Client.Release 0; Client.Release 0]
       (Client.init 5)).

(** Scenario 5 of the specification: capacity 3, unit charges, every handle
    released at once. *)
Definition abcd_released : list Client.op :=
  [Client.Insert "A" 7 100 1 1; Client.Release 0;
   Client.Insert "B" 9 101 1 1; Client.Release 1;
   Client.Insert "C" 11 102 1 1; Client.Release 2;
   Client.Insert "D" 13 103 1 1; Client.Release 3].

Definition bcd_hit_then_e : list Client.op :=
  [Client.Lookup "B" 9; Client.Release 1; Client.Lookup "C" 11;
   Client.Release 2; Client.Lookup "D" 13; Client.Release 3;
   Client.Insert "E" 15 104 1 1; Client.Release 4].

(** * The MemRowSet ([src/kudu/tablet/memrowset.cc])

    Conventions of this part.
    - An operation returns [None] when the source ends the process
      ([LOG(FATAL)] or a failed [CHECK]); otherwise it returns its [Status]
      and the state it leaves.  [DCHECK]s and the [#ifndef NDEBUG] block are
      those of a release build: absent.
    - The operations are sequential state transformers: the index's
      per-slot locks and the release/acquire publication of mutation nodes
      order concurrent callers and are not modelled.
    - Byte strings ([Slice], [faststring], a contiguous row) are [string]s.
    - Classes of the repository that these sources use but do not define
      are modelled from the specification, each under a comment that says
      so; what the specification leaves open about them is a field of
      [Collaborators]. *)

Inductive Status :=
| OK
| AlreadyPresent (msg : string)
| NotFound (msg : string)
| NotSupported (msg : string)
| InvalidArgument (msg : string)
| IOError (msg : string).

Definition Status_ok (s : Status) : bool :=
  match s with OK => true | _ => false end.

(** Modelled from the spec: the "opaque operation identifier"
    [consensus::OpId] and its order [log::OpIdLessThan]
    (kudu/consensus/opid_anchor_registry.h is not among the sources), a term
    and an index compared in this order. *)
Record OpId := MkOpId { term : Z; index : Z }.

Definition OpIdLessThan (a b : OpId) : bool :=
  (term a <? term b)%Z || ((term a =? term b)%Z && (index a <? index b)%Z).

(** Modelled from the spec: [RowChangeList] and [RowChangeListDecoder]
    (kudu/common/row_changelist.h is not among the sources).  A change list
    is seen decoded, "UPDATE fields / DELETE marker / REINSERT full row";
    [kMalformed msg] stands for bytes on which the decoder's [Init] fails,
    with the "InvalidArgument — malformed change-list encoding" it returns. *)
Inductive RowChangeList :=
| kUpdate (cols : list (nat * string))
| kDelete
| kReinsert (row : string)
| kMalformed (msg : string).

Definition decoder_Init (c : RowChangeList) : Status :=
  match c with
  | kMalformed msg => InvalidArgument msg
  | _ => OK
  end.
Definition is_delete (c : RowChangeList) : bool :=
  match c with kDelete => true | _ => false end.
Definition is_reinsert (c : RowChangeList) : bool :=
  match c with kReinsert _ => true | _ => false end.

(** A mutation node; [next] is the rest of the list it is chained in. *)
Record Mutation := MkMutation {
  timestamp_ : Z;
  changelist_ : RowChangeList
}.

(** The value slot of the index: the row header and the row body. *)
Record MRSRow := MkMRSRow {
  insertion_timestamp : Z;
  redo_head : list Mutation;
  row_slice : string
}.

(** The collaborators of the MemRowSet that these sources call and do not
    define (schema and key codec, row copy, arena, projectors), taken as
    parameters.  The arena is seen through the number it reports as its
    memory footprint. *)
Class Collaborators := {
  (* Schema::has_column_ids on row.schema(), the schema that a contiguous
     row carries *)
  has_column_ids : string → bool;
  (* Schema::EncodeComparableKey on a contiguous row *)
  EncodeComparableKey : string → string;
  (* MRSRow::CopyRow(row, arena): its status, the footprint of the arena
     after it, and the row with its indirect data relocated *)
  CopyRow : Z → string → Status * Z * string;
  (* the specification knows AlreadyPresent only as "insert collides with a
     live (non-ghost) row": the copy of a row does not return it *)
  CopyRow_status : ∀ a row msg, (CopyRow a row).1.1 ≠ AlreadyPresent msg;
  (* the footprint after Mutation::CreateInArena *)
  CreateInArena : Z → Mutation → Z;
  (* RowProjector::Init and DeltaProjector::Init *)
  projector_Init : Status;
  delta_projector_Init : Status;
  (* RowProjector::ProjectRowForRead into a row of the block, whose arena
     takes the indirect data *)
  ProjectRowForRead : string → option Z → Status * string * option Z;
  (* the delta projector applying the columns of an UPDATE that are in the
     projection to a projected row *)
  ApplyUpdate : list (nat * string) → string → option Z
                → Status * string * option Z
}.

(** [MRSRow::IsGhost]. *)
Fixpoint IsGhost_loop (is_ghost : bool) (mut : list Mutation) : option bool :=
  match mut with
  | [] => Some is_ghost
  | m :: next =>
      if negb (Status_ok (decoder_Init (changelist_ m))) then None
      else if is_delete (changelist_ m) then IsGhost_loop true next
      else if is_reinsert (changelist_ m) then IsGhost_loop false next
      else IsGhost_loop is_ghost next
  end.

Definition IsGhost (row : MRSRow) : option bool :=
  IsGhost_loop false (redo_head row).

(** Modelled from the spec: the concurrent sorted index [MSBTree] and its
    [PreparedMutation] (kudu/tablet/concurrent_btree.h is not among the
    sources), "ordered map from key (byte string) to mutable value slot", as
    the list of its entries in key order.  A prepared mutation is the key it
    was prepared for. *)
Abbreviation MSBTree := (list (string * MRSRow)).

(** Modelled from the spec: [Slice::compare] (kudu/util/slice.h is not among
    the sources), "ordering is memcmp on the encoded form". *)
Definition Slice_compare (a b : string) : comparison := String.compare a b.

Fixpoint tree_lookup (k : string) (t : MSBTree) : option MRSRow :=
  match t with
  | [] => None
  | (k', v) :: t' => if decide (k' = k) then Some v else tree_lookup k t'
  end.

(** [PreparedMutation::Insert]: false when the key is present. *)
Fixpoint tree_insert (k : string) (v : MRSRow) (t : MSBTree) : option MSBTree :=
  match t with
  | [] => Some [(k, v)]
  | (k', v') :: t' =>
      match Slice_compare k k' with
      | Lt => Some ((k, v) :: (k', v') :: t')
      | Eq => None
      | Gt => t'' ← tree_insert k v t'; Some ((k', v') :: t'')
      end
  end.

(** A write through [current_mutable_value()]. *)
Fixpoint tree_alter (f : MRSRow → MRSRow) (k : string) (t : MSBTree) : MSBTree :=
  match t with
  | [] => []
  | (k', v) :: t' =>
      if decide (k' = k) then (k', f v) :: t' else (k', v) :: tree_alter f k t'
  end.

(** Modelled from the spec: [Mutation::AppendToListAtomic]
    (kudu/tablet/mutation.h is not among the sources); "the list is
    append-only and grows at the tail". *)
Definition AppendToList (mut : Mutation) (row : MRSRow) : MRSRow :=
  MkMRSRow (insertion_timestamp row) (redo_head row ++ [mut]) (row_slice row).

(** What an operation does that its caller can observe besides its result. *)
Inductive event :=
| EvAnchorIfMinimum (op_id : OpId)
| EvSlowMutators
| EvLogWarning (msg : string)
| EvSleep (us : Z).

Record MemRowSet := MkMemRowSet {
  id_ : Z;
  tree_ : MSBTree;
  arena_ : Z;
  anchorer_ : option OpId;
  debug_insert_count_ : Z;
  debug_update_count_ : Z;
  has_logged_throttling_ : Z;
  FLAGS_memrowset_throttle_mb : Z;
  trace : list event
}.

Definition memory_footprint (mrs : MemRowSet) : Z := arena_ mrs.

Definition set_tree (t : MSBTree) (a : Z) (mrs : MemRowSet) : MemRowSet :=
  MkMemRowSet (id_ mrs) t a (anchorer_ mrs) (debug_insert_count_ mrs)
    (debug_update_count_ mrs) (has_logged_throttling_ mrs)
    (FLAGS_memrowset_throttle_mb mrs) (trace mrs).

Definition log_event (e : event) (mrs : MemRowSet) : MemRowSet :=
  MkMemRowSet (id_ mrs) (tree_ mrs) (arena_ mrs) (anchorer_ mrs)
    (debug_insert_count_ mrs) (debug_update_count_ mrs)
    (has_logged_throttling_ mrs) (FLAGS_memrowset_throttle_mb mrs)
    (trace mrs ++ [e]).

(** [MemRowSet::MemRowSet], for a schema that has column ids (on another
    one its [CHECK] ends the process); the flag is read from the process. *)
Definition new_MemRowSet (id flag : Z) : MemRowSet :=
  MkMemRowSet id [] 0 None 0 0 0 flag [].

(** Modelled from the spec: [OpIdMinAnchorer::AnchorIfMinimum]
    (kudu/consensus/opid_anchor_registry.h is not among the sources); the
    anchor, "initially nil", is "monotonically lowered to the minimum of all
    identifiers ever submitted". *)
Definition AnchorIfMinimum (op_id : OpId) (mrs : MemRowSet) : MemRowSet :=
  let a := match anchorer_ mrs with
           | None => Some op_id
           | Some cur => if OpIdLessThan op_id cur then Some op_id else Some cur
           end in
  MkMemRowSet (id_ mrs) (tree_ mrs) (arena_ mrs) a
    (debug_insert_count_ mrs) (debug_update_count_ mrs)
    (has_logged_throttling_ mrs) (FLAGS_memrowset_throttle_mb mrs)
    (trace mrs ++ [EvAnchorIfMinimum op_id]).

Definition to_ssize (z : Z) : Z :=
  if (wrap64 z <? 2 ^ 63)%Z then wrap64 z else (wrap64 z - 2 ^ 64)%Z.

(** The value of an [int]: 32 bits, two's complement. *)
Definition to_int32 (z : Z) : Z :=
  if (wrap32 z <? 2 ^ 31)%Z then wrap32 z else (wrap32 z - 2 ^ 32)%Z.

(** [MemRowSet::SlowMutators].  The flag is an [int32] and
    [FLAGS_memrowset_throttle_mb * 1024 * 1024] is a product of [int]s, taken
    from left to right in 32 bits: from a flag of 2048 on it overflows, and
    its value is the two's complement one that the compiled program
    computes.  The difference with the [size_t] footprint is taken in 64 bits
    and read as an [ssize_t]. *)
Definition SlowMutators (mrs : MemRowSet) : MemRowSet :=
  let mrs := log_event EvSlowMutators mrs in
  if (FLAGS_memrowset_throttle_mb mrs =? 0)%Z then mrs
  else
    let over_mem :=
      to_ssize (memory_footprint mrs
                - to_int32
                    (to_int32 (FLAGS_memrowset_throttle_mb mrs * 1024)
                     * 1024)) in
    if (0 <? over_mem)%Z then
      let mrs :=
        if (has_logged_throttling_ mrs =? 0)%Z then
          log_event (EvLogWarning "Throttling memrowset insert rate")
            (MkMemRowSet (id_ mrs) (tree_ mrs) (arena_ mrs) (anchorer_ mrs)
               (debug_insert_count_ mrs) (debug_update_count_ mrs) 1
               (FLAGS_memrowset_throttle_mb mrs) (trace mrs))
        else mrs in
      log_event (EvSleep (Z.quot (Z.quot over_mem 1024) 512)) mrs
    else mrs.

Definition incr_insert_count (mrs : MemRowSet) : MemRowSet :=
  MkMemRowSet (id_ mrs) (tree_ mrs) (arena_ mrs) (anchorer_ mrs)
    (debug_insert_count_ mrs + 1) (debug_update_count_ mrs)
    (has_logged_throttling_ mrs) (FLAGS_memrowset_throttle_mb mrs) (trace mrs).

Definition incr_update_count (mrs : MemRowSet) : MemRowSet :=
  MkMemRowSet (id_ mrs) (tree_ mrs) (arena_ mrs) (anchorer_ mrs)
    (debug_insert_count_ mrs) (debug_update_count_ mrs + 1)
    (has_logged_throttling_ mrs) (FLAGS_memrowset_throttle_mb mrs) (trace mrs).

(** [MemRowSet::Reinsert]; [enc_key] names the slot [ms_row] points to. *)
Definition Reinsert `{Collaborators} (timestamp : Z) (row : string)
    (enc_key : string) (mrs : MemRowSet) : option (Status * MemRowSet) :=
  let '(st, arena1, row_copy) := CopyRow (arena_ mrs) row in
  if negb (Status_ok st) then Some (st, set_tree (tree_ mrs) arena1 mrs)
  else
    let mut := MkMutation timestamp (kReinsert row_copy) in
    let arena2 := CreateInArena arena1 mut in
    Some (OK, set_tree (tree_alter (AppendToList mut) enc_key (tree_ mrs))
                arena2 mrs).

(** [MemRowSet::Insert].  [CHECK(row.schema()->has_column_ids())] ends the
    process in every build, before anything else is done; the
    [DCHECK_SCHEMA_EQ] after it is absent from a release build. *)
Definition Insert `{Collaborators} (timestamp : Z) (row : string)
    (op_id : OpId) (mrs : MemRowSet) : option (Status * MemRowSet) :=
  if negb (has_column_ids row) then None else
  let enc_key := EncodeComparableKey row in
  match tree_lookup enc_key (tree_ mrs) with
  | Some ms_row =>
      is_ghost ← IsGhost ms_row;
      if negb is_ghost
      then Some (AlreadyPresent "entry already present in memrowset", mrs)
      else Reinsert timestamp row enc_key mrs
  | None =>
      let '(st, arena1, mrsrow) := CopyRow (arena_ mrs) row in
      if negb (Status_ok st) then Some (st, set_tree (tree_ mrs) arena1 mrs)
      else
        tree1 ← tree_insert enc_key (MkMRSRow timestamp [] mrsrow) (tree_ mrs);
        let mrs := set_tree tree1 arena1 mrs in
        let mrs := AnchorIfMinimum op_id mrs in
        let mrs := incr_insert_count mrs in
        let mrs := SlowMutators mrs in
        Some (OK, mrs)
  end.

(** Modelled from the spec: [ProbeStats] with its counter [mrs_consulted],
    and [OperationResultPB] as the MRS ids that [add_mutated_stores] and
    [set_mrs_id] record in it (neither is declared in the sources). *)
Record ProbeStats := MkProbeStats { mrs_consulted : Z }.

Record OperationResultPB := MkResult { mutated_stores : list Z }.

(** [MemRowSet::MutateRow]; [probe] is the probe's encoded key. *)
Definition MutateRow `{Collaborators} (timestamp : Z) (probe : string)
    (delta : RowChangeList) (op_id : OpId) (stats : ProbeStats)
    (result : OperationResultPB) (mrs : MemRowSet)
  : option (Status * MemRowSet * ProbeStats * OperationResultPB) :=
  match tree_lookup probe (tree_ mrs) with
  | None => Some (NotFound "not in memrowset", mrs, stats, result)
  | Some row =>
      is_ghost ← IsGhost row;
      if (is_ghost : bool)
      then Some (NotFound "not in memrowset (ghost)", mrs, stats, result)
      else
        let mut := MkMutation timestamp delta in
        let arena1 := CreateInArena (arena_ mrs) mut in
        let mrs := set_tree (tree_alter (AppendToList mut) probe (tree_ mrs))
                     arena1 mrs in
        let result := MkResult (mutated_stores result ++ [id_ mrs]) in
        let stats := MkProbeStats (mrs_consulted stats + 1) in
        let mrs := AnchorIfMinimum op_id mrs in
        let mrs := incr_update_count mrs in
        let mrs := SlowMutators mrs in
        Some (OK, mrs, stats, result)
  end.

(** [MemRowSet::CheckRowPresent]. *)
Definition CheckRowPresent (probe : string) (stats : ProbeStats)
    (mrs : MemRowSet) : option (Status * bool * ProbeStats) :=
  let stats := MkProbeStats (mrs_consulted stats + 1) in
  match tree_lookup probe (tree_ mrs) with
  | None => Some (OK, false, stats)
  | Some row => is_ghost ← IsGhost row; Some (OK, negb is_ghost, stats)
  end.

Definition AlterSchema : Status :=
  NotSupported "AlterSchema not supported by MemRowSet".

Definition GetBounds : Status := NotSupported "".

(** ** [MemRowSet::Iterator] *)

Inductive ScanState := kUninitialized | kScanning | kFinished.

#[export] Instance ScanState_eq_dec : EqDecision ScanState.
Proof. solve_decision. Defined.

(** Modelled from the spec: [ScanSpec] and [EncodedKeyRange]
    (kudu/common/scan_spec.h is not among the sources), the pushed key
    ranges of a scan, each with an optional lower and upper encoded key. *)
Record EncodedKeyRange := MkRange {
  lower_bound : option string;
  upper_bound : option string
}.

Record ScanSpec := MkScanSpec { encoded_ranges : list EncodedKeyRange }.

Definition has_encoded_ranges (spec : ScanSpec) : bool :=
  match encoded_ranges spec with [] => false | _ => true end.

(** Modelled from the spec: the forward iterator of the index
    ([CBTreeIterator] of kudu/tablet/concurrent_btree.h, not among the
    sources) with its [seek_at_or_after], [get_current_entry], [next] and
    [is_valid], as the position of its current entry; it is valid on an
    entry. *)
Definition IsValid (t : MSBTree) (pos : nat) : bool := pos <? length t.

Fixpoint seek_index (key : string) (t : MSBTree) : nat :=
  match t with
  | [] => 0
  | (k, _) :: t' =>
      match Slice_compare k key with
      | Lt => S (seek_index key t')
      | _ => 0
      end
  end.

(** [seek_at_or_after(key, &exact) → bool]: the position, [exact], and the
    result. *)
Definition tree_SeekAtOrAfter (t : MSBTree) (key : string) : nat * bool * bool :=
  let p := seek_index key t in
  (p,
   match t !! p with Some (k, _) => bool_decide (k = key) | None => false end,
   IsValid t p).

Definition GetCurrentEntry (t : MSBTree) (pos : nat) : option (string * MRSRow) :=
  t !! pos.

(** Modelled from the spec: [MvccSnapshot] (kudu/tablet/mvcc.h is not among
    the sources), a "predicate on timestamps deciding which operations are
    visible to a reader". *)
Definition MvccSnapshot := Z → bool.

Definition CreateSnapshotIncludingAllTransactions : MvccSnapshot := λ _, true.

Record Iterator := MkIterator {
  iter_ : nat;
  mvcc_snap_ : MvccSnapshot;
  state_ : ScanState;
  upper_bound_ : option string;
  tmp_buf : string
}.

Definition set_iter (p : nat) (it : Iterator) : Iterator :=
  MkIterator p (mvcc_snap_ it) (state_ it) (upper_bound_ it) (tmp_buf it).
Definition set_state (s : ScanState) (it : Iterator) : Iterator :=
  MkIterator (iter_ it) (mvcc_snap_ it) s (upper_bound_ it) (tmp_buf it).
Definition set_upper_bound (ub : string) (it : Iterator) : Iterator :=
  MkIterator (iter_ it) (mvcc_snap_ it) (state_ it) (Some ub) (tmp_buf it).
Definition set_tmp_buf (b : string) (it : Iterator) : Iterator :=
  MkIterator (iter_ it) (mvcc_snap_ it) (state_ it) (upper_bound_ it) b.

(** Modelled from the spec: the constructor of [MemRowSet::Iterator], which
    [MemRowSet::NewIterator] calls (kudu/tablet/memrowset.h is not among
    the sources).  It "binds" a CSI iterator and an MVCC snapshot; the scan
    of scenario 4 and [DebugDump] start on the first entry of the index. *)
Definition NewIterator (snap : MvccSnapshot) : Iterator :=
  MkIterator 0 snap kUninitialized None "".

Definition has_upper_bound (it : Iterator) : bool :=
  match upper_bound_ it with Some _ => true | None => false end.

(** Modelled from the spec: [Iterator::has_upper_bound] above and
    [Iterator::out_of_bounds] (kudu/tablet/memrowset.h is not among the
    sources): the scan "terminates strictly before" the bound, on
    "key ≥ upper_bound". *)
Definition out_of_bounds (it : Iterator) (key : string) : bool :=
  match upper_bound_ it with
  | Some ub => match Slice_compare key ub with Lt => false | _ => true end
  | None => false
  end.

(** The loop of [Iterator::Init] over the ranges: [inl] when a lower bound
    is past the end of the index and [Init] returns at once, else the
    iterator with the greatest lower bound met. *)
Fixpoint Init_ranges (t : MSBTree) (ranges : list EncodedKeyRange)
    (max_lower_bound : option string) (it : Iterator)
  : Iterator + (Iterator * option string) :=
  match ranges with
  | [] => inr (it, max_lower_bound)
  | range :: rest =>
      let after_lower :=
        match lower_bound range with
        | Some lb =>
            if match max_lower_bound with
               | None => true
               | Some m => match Slice_compare lb m with Gt => true | _ => false end
               end
            then
              let '(p, _, found) := tree_SeekAtOrAfter t lb in
              if negb found then inl (set_state kFinished (set_iter p it))
              else inr (set_iter p it, Some lb)
            else inr (it, max_lower_bound)
        | None => inr (it, max_lower_bound)
        end in
      match after_lower with
      | inl it' => inl it'
      | inr (it', max') =>
          let it'' :=
            match upper_bound range with
            | Some ub =>
                if negb (has_upper_bound it') ||
                   match upper_bound_ it' with
                   | Some cur =>
                       match Slice_compare ub cur with Lt => true | _ => false end
                   | None => false
                   end
                then set_upper_bound ub it'
                else it'
            | None => it'
            end in
          Init_ranges t rest max' it''
      end
  end.

(** [MemRowSet::Iterator::Init]. *)
Definition Init `{Collaborators} (spec : option ScanSpec) (t : MSBTree)
    (it : Iterator) : Status * Iterator :=
  if negb (Status_ok projector_Init) then (projector_Init, it)
  else if negb (Status_ok delta_projector_Init) then (delta_projector_Init, it)
  else
    match spec with
    | Some sp =>
        if has_encoded_ranges sp then
          match Init_ranges t (encoded_ranges sp) None it with
          | inl it' => (OK, it')
          | inr (it', max_lower_bound) =>
              let it'' :=
                match max_lower_bound with
                | Some m => set_iter (tree_SeekAtOrAfter t m).1.1 it'
                | None => it'
                end in
              (OK, set_state kScanning it'')
          end
        else (OK, set_state kScanning it)
    | None => (OK, set_state kScanning it)
    end.

(** [MemRowSet::Iterator::SeekAtOrAfter]: the status, [*exact] and the
    iterator. *)
Definition SeekAtOrAfter `{Collaborators} (t : MSBTree) (key : string)
    (it : Iterator) : Status * bool * Iterator :=
  let it :=
    if (0 <? String.length key)%nat
    then set_tmp_buf (EncodeComparableKey key) it
    else set_tmp_buf "" it in
  let '(p, exact, found) := tree_SeekAtOrAfter t (tmp_buf it) in
  let it := set_iter p it in
  if found || (String.length key =? 0)%nat
  then (OK, exact, it)
  else (NotFound "no match in memrowset", exact, it).

(** Modelled from the spec: [RowBlock] and its [SelectionVector]
    (kudu/common/rowblock.h is not among the sources): the rows, the
    selection bits of the [nrows] rows in use, and the arena (which may be
    absent) seen through the bytes it holds. *)
Record RowBlock := MkRowBlock {
  nrows : nat;
  row_capacity : nat;
  rows : list string;
  selection_vector : list bool;
  arena : option Z
}.

Definition Resize (n : nat) (b : RowBlock) : RowBlock :=
  MkRowBlock n (row_capacity b) (rows b) (resize n false (selection_vector b))
    (arena b).
Definition arena_Reset (b : RowBlock) : RowBlock :=
  MkRowBlock (nrows b) (row_capacity b) (rows b) (selection_vector b)
    (match arena b with Some _ => Some 0%Z | None => None end).
Definition SetAllTrue (b : RowBlock) : RowBlock :=
  MkRowBlock (nrows b) (row_capacity b) (rows b) (replicate (nrows b) true)
    (arena b).
Definition SetRowUnselected (i : nat) (b : RowBlock) : RowBlock :=
  MkRowBlock (nrows b) (row_capacity b) (rows b)
    (<[i := false]> (selection_vector b)) (arena b).
Definition write_row (i : nat) (data : string) (a : option Z) (b : RowBlock)
  : RowBlock :=
  MkRowBlock (nrows b) (row_capacity b) (<[i := data]> (rows b))
    (selection_vector b) a.

(** Modelled from the spec: [Iterator::ApplyMutationsToProjectedRow]
    (kudu/tablet/memrowset.h is not among the sources), which applies the
    mutations "whose timestamps are committed in the snapshot, in chain
    order"; a DELETE marks the row deleted, a REINSERT "overwrites the row
    body", an UPDATE goes through the delta projector, and a deleted row has
    its selection bit set to false. *)
Fixpoint apply_mutations `{Collaborators} (snap : MvccSnapshot)
    (muts : list Mutation) (is_deleted : bool) (data : string) (a : option Z)
  : Status * bool * string * option Z :=
  match muts with
  | [] => (OK, is_deleted, data, a)
  | m :: next =>
      if negb (snap (timestamp_ m)) then
        apply_mutations snap next is_deleted data a
      else
        match changelist_ m with
        | kMalformed _ => (decoder_Init (changelist_ m), is_deleted, data, a)
        | kDelete => apply_mutations snap next true data a
        | kReinsert r =>
            let '(st, data', a') := ProjectRowForRead r a in
            if Status_ok st then apply_mutations snap next false data' a'
            else (st, false, data', a')
        | kUpdate cols =>
            let '(st, data', a') := ApplyUpdate cols data a in
            if Status_ok st then apply_mutations snap next is_deleted data' a'
            else (st, is_deleted, data', a')
        end
  end.

Definition ApplyMutationsToProjectedRow `{Collaborators} (snap : MvccSnapshot)
    (muts : list Mutation) (i : nat) (dst : RowBlock) : Status * RowBlock :=
  match dst with
  | MkRowBlock n c rs sel a =>
      let '(st, is_deleted, data, a') :=
        apply_mutations snap muts false (default "" (rs !! i)) a in
      let dst := write_row i data a' dst in
      if Status_ok st
      then (OK, if is_deleted then SetRowUnselected i dst else dst)
      else (st, dst)
  end.

Arguments ApplyMutationsToProjectedRow : simpl never.

(** How one iteration of the loop of [FetchRows] ends. *)
Inductive fetch_step :=
| FetchBreak (it : Iterator) (dst : RowBlock)
| FetchError (st : Status) (it : Iterator) (dst : RowBlock)
| FetchNext (it : Iterator) (dst : RowBlock).

(** The body of the [do ... while] of [FetchRows], up to [++*fetched]. *)
Definition FetchRows_body `{Collaborators} (t : MSBTree) (it : Iterator)
    (dst : RowBlock) (fetched : nat) : option fetch_step :=
  '(k, row) ← GetCurrentEntry t (iter_ it);
  if mvcc_snap_ it (insertion_timestamp row) then
    if has_upper_bound it && out_of_bounds it k
    then Some (FetchBreak (set_state kFinished it) dst)
    else
      let '(st, data, a) := ProjectRowForRead (row_slice row) (arena dst) in
      let dst := write_row fetched data a dst in
      if negb (Status_ok st) then Some (FetchError st it dst)
      else
        let '(st, dst) :=
          ApplyMutationsToProjectedRow (mvcc_snap_ it) (redo_head row)
            fetched dst in
        if negb (Status_ok st) then Some (FetchError st it dst)
        else Some (FetchNext it dst)
  else Some (FetchNext it (SetRowUnselected fetched dst)).

(** [MemRowSet::Iterator::FetchRows]: the status, the iterator, the block
    and [*fetched]. *)
Fixpoint FetchRows_loop `{Collaborators} (fuel : nat) (t : MSBTree)
    (it : Iterator) (dst : RowBlock) (fetched : nat)
  : option (Status * Iterator * RowBlock * nat) :=
  match fuel with
  | O => None
  | S fuel' =>
      r ← FetchRows_body t it dst fetched;
      match r with
      | FetchBreak it' dst' => Some (OK, it', dst', fetched)
      | FetchError st it' dst' => Some (st, it', dst', fetched)
      | FetchNext it' dst' =>
          let fetched' := S fetched in
          let it'' := set_iter (S (iter_ it')) it' in
          if IsValid t (iter_ it'') && (fetched' <? nrows dst')
          then FetchRows_loop fuel' t it'' dst' fetched'
          else Some (OK, it'', dst', fetched')
      end
  end.

Definition FetchRows `{Collaborators} (t : MSBTree) (it : Iterator)
    (dst : RowBlock) : option (Status * Iterator * RowBlock * nat) :=
  FetchRows_loop (nrows dst) t it dst 0.

(** [MemRowSet::Iterator::NextBlock]. *)
Definition NextBlock `{Collaborators} (t : MSBTree) (it : Iterator)
    (dst : RowBlock) : option (Status * Iterator * RowBlock) :=
  if negb (IsValid t (iter_ it)) then
    Some (NotFound "end of iter", it, Resize 0 dst)
  else if negb (bool_decide (state_ it = kScanning)) then
    Some (OK, it, Resize 0 dst)
  else if (row_capacity dst =? 0)%nat then
    Some (OK, it, dst)
  else
    let dst := Resize (row_capacity dst) dst in
    let dst := arena_Reset dst in
    let dst := SetAllTrue dst in
    '(st, it, dst, fetched) ← FetchRows t it dst;
    if negb (Status_ok st) then Some (st, it, dst)
    else Some (OK, it, Resize fetched dst).

(** ** A store of one-column rows

    The collaborators of the examples: the encoded key of a row is its
    first two characters, copies and projections keep the row, an UPDATE
    replaces it by the last value of its change list, and every allocation
    grows the arena.  Every row comes with the schema of the store, which
    has column ids. *)
Definition simple : Collaborators := {|
  has_column_ids := λ _, true;
  EncodeComparableKey := λ row, String.substring 0 2 row;
  CopyRow := λ a row, (OK, (a + Z.of_nat (String.length row))%Z, row);
  CopyRow_status := ltac:(intros a row msg; simpl; discriminate);
  CreateInArena := λ a _, (a + 32)%Z;
  projector_Init := OK;
  delta_projector_Init := OK;
  ProjectRowForRead := λ row a, (OK, row, a);
  ApplyUpdate := λ cols data a, (OK, foldl (λ _ c, c.2) data cols, a)
|}.

(** The same store, handed rows that carry a schema without column ids. *)
Definition without_column_ids : Collaborators := {|
  has_column_ids := λ _, false;
  EncodeComparableKey := λ row, String.substring 0 2 row;
  CopyRow := λ a row, (OK, (a + Z.of_nat (String.length row))%Z, row);
  CopyRow_status := ltac:(intros a row msg; simpl; discriminate);
  CreateInArena := λ a _, (a + 32)%Z;
  projector_Init := OK;
  delta_projector_Init := OK;
  ProjectRowForRead := λ row a, (OK, row, a);
  ApplyUpdate := λ cols data a, (OK, foldl (λ _ c, c.2) data cols, a)
|}.

Definition run_Insert (ts : Z) (row : string) (op : OpId)
    (mrs : option MemRowSet) : option MemRowSet :=
  mrs ← mrs; r ← Insert (H := simple) ts row op mrs; Some r.2.

(** The rows of scenario 4: keys a, b, c, d. *)
Definition abcd : option MemRowSet :=
  run_Insert 4 "d" (MkOpId 1 4)
    (run_Insert 3 "b" (MkOpId 1 3)
       (run_Insert 2 "c" (MkOpId 1 2)
          (run_Insert 1 "a" (MkOpId 1 1) (Some (new_MemRowSet 7 0))))).

Definition spec_b_d : ScanSpec := MkScanSpec [MkRange (Some "b") (Some "d")].

Definition empty_block (capacity : nat) : RowBlock :=
  MkRowBlock 0 capacity (replicate capacity "") [] (Some 0%Z).

(** The rows a scan hands out: the selected rows of the block. *)
Definition selected_rows (b : RowBlock) : list string :=
  (zip (take (nrows b) (rows b)) (selection_vector b)) ≫=
    (λ p, if p.2 : bool then [p.1] else []).

(** Scenario 4: [Init] with the bounds, then one [NextBlock]. *)
Definition scan_b_d (capacity : nat)
  : option (Status * Iterator * RowBlock) :=
  mrs ← abcd;
  let '(st, it) := Init (H := simple) (Some spec_b_d) (tree_ mrs)
                     (NewIterator CreateSnapshotIncludingAllTransactions) in
  NextBlock (H := simple) (tree_ mrs) it (empty_block capacity).

(** ** The words of the specification *)

(** Every change list of the chain decodes. *)
Definition decodable (chain : list Mutation) : Prop :=
  Forall (λ m, decoder_Init (changelist_ m) = OK) chain.

(** "A row is a ghost at the current tail if the replay of its mutation
    chain in order ends in a DELETE without a following REINSERT." *)
Definition ends_in_delete (chain : list Mutation) : Prop :=
  ∃ pre m post, chain = pre ++ m :: post ∧ changelist_ m = kDelete ∧
    Forall (λ m', is_reinsert (changelist_ m') = false) post.

(** The lower and the upper bounds a scan specification pushes. *)
Definition lowers (ranges : list EncodedKeyRange) : list string :=
  omap lower_bound ranges.
Definition uppers (ranges : list EncodedKeyRange) : list string :=
  omap upper_bound ranges.

(** [m] is the greatest, or the least, of the keys [l] in the order of
    [Slice::compare]. *)
Definition is_max (m : string) (l : list string) : Prop :=
  m ∈ l ∧ ∀ x, x ∈ l → Slice_compare x m ≠ Gt.
Definition is_min (m : string) (l : list string) : Prop :=
  m ∈ l ∧ ∀ x, x ∈ l → Slice_compare m x ≠ Gt.

(** Scenario 3 of the specification up to the delete: the key is a ghost. *)
Definition ghost_k3 : option MemRowSet :=
  mrs ← run_Insert 10 "k3" (MkOpId 1 9) (Some (new_MemRowSet 7 0));
  r ← MutateRow (H := simple) 20 "k3" kDelete (MkOpId 1 10)
        (MkProbeStats 0) (MkResult []) mrs;
  Some r.1.1.2.

(** Three rows, the second inserted by a transaction the snapshot does not
    include, and a scan bounded above by "d". *)
Definition tree_aef : MSBTree :=
  [("a", MkMRSRow 1 [] "a"); ("e", MkMRSRow 99 [] "e"); ("f", MkMRSRow 2 [] "f")].

Definition snapshot_below_50 : MvccSnapshot := λ ts, (ts <? 50)%Z.

Definition scanning_to_d (pos : nat) : Iterator :=
  MkIterator pos snapshot_below_50 kScanning (Some "d") "".

(** The invariant of the loop of [Iterator::Init] once the ranges [pre] are
    behind it: [max] is the greatest lower bound of [pre], the index has an
    entry at or after it, and the iterator's upper bound is the least upper
    bound of [pre]. *)
Definition bounds_inv (t : MSBTree) (pre : list EncodedKeyRange)
    (max : option string) (it0 it : Iterator) : Prop :=
  state_ it = state_ it0 ∧ mvcc_snap_ it = mvcc_snap_ it0 ∧
  match max with
  | None => lowers pre = [] ∧ iter_ it = iter_ it0
  | Some m => is_max m (lowers pre) ∧ IsValid t (seek_index m t) = true
  end ∧
  match upper_bound_ it with
  | None => uppers pre = []
  | Some u => is_min u (uppers pre)
  end.

(** The block an iteration of the loop of [FetchRows] leaves. *)
Definition step_block (r : fetch_step) : RowBlock :=
  match r with
  | FetchBreak _ dst | FetchError _ _ dst | FetchNext _ dst => dst
  end.

(** The snapshot in which exactly the listed timestamps are committed. *)
Definition snapshot_of (committed : list Z) : MvccSnapshot :=
  λ ts, bool_decide (ts ∈ committed).

(** A scan of the whole store into one block of four rows: the rows it
    selects. *)
Definition scan_all (mrs : MemRowSet) (snap : MvccSnapshot)
  : option (list string) :=
  let '(st, it) := Init (H := simple) None (tree_ mrs) (NewIterator snap) in
  r ← NextBlock (H := simple) (tree_ mrs) it (empty_block 4);
  Some (selected_rows r.2).

(** Scenario 1: an insert and an UPDATE of the same key. *)
Definition k1_updated
  : option (Status * MemRowSet * ProbeStats * OperationResultPB) :=
  mrs ← run_Insert 10 "k1 v1" (MkOpId 1 1) (Some (new_MemRowSet 7 0));
  MutateRow (H := simple) 20 "k1" (kUpdate [(1, "k1 v2")]) (MkOpId 1 2)
    (MkProbeStats 0) (MkResult []) mrs.

(** Scenario 2: an insert, a DELETE and a REINSERT with a new body. *)
Definition k2_reinserted : option MemRowSet :=
  mrs ← run_Insert 5 "k2 old" (MkOpId 1 1) (Some (new_MemRowSet 7 0));
  r ← MutateRow (H := simple) 10 "k2" kDelete (MkOpId 1 2)
        (MkProbeStats 0) (MkResult []) mrs;
  run_Insert 15 "k2 new" (MkOpId 1 3) (Some r.1.1.2).

(** * The rest of [src/kudu/util/cache.cc] *)

(** ** [LRUCache::~LRUCache]

    The loop over the LRU list, oldest entry first: [e->next] is read before
    [Unref(e)], and the list itself is not unlinked.  The [DCHECK_EQ] on
    [refs] is the one of a release build: absent. *)
Fixpoint LRUCache_dtor_loop (l : list Handle) (s : LRUCache.t)
  : option LRUCache.t :=
  match l with
  | [] => Some s
  | e :: next => s' ← LRUCache.Unref s e; LRUCache_dtor_loop next s'
  end.

Definition LRUCache_dtor (s : LRUCache.t) : option LRUCache.t :=
  LRUCache_dtor_loop (LRUCache.lru_ s) s.

(** ** [class ShardedLRUCache]: the arithmetic of the shards *)
Module ShardedLRUCache.
Definition kNumShardBits : Z := 4.
Definition kNumShards : Z := Z.shiftl 1 kNumShardBits.

(** [HashSlice]: the 64-bit hash of the key, truncated to the [uint32_t]
    the function returns.  [util_hash::CityHash64] (kudu/util/hash is not
    among the sources) is a parameter. *)
Definition HashSlice (CityHash64 : string → Z) (s : string) : Z :=
  wrap32 (CityHash64 s).

(** [Shard(hash)]: [hash >> (32 - kNumShardBits)] on a [uint32_t]. *)
Definition Shard (hash : Z) : Z := Z.shiftr hash (32 - kNumShardBits).

(** The capacity the constructor gives each shard: a [size_t] sum, which
    wraps, and a [size_t] division. *)
Definition per_shard (capacity : Z) : Z :=
  (wrap64 (capacity + (kNumShards - 1)) / kNumShards)%Z.

(** The vector [shards_] the constructor fills, each shard seen through the
    capacity that [SetCapacity] gives it. *)
Definition shards_capacity (capacity : Z) : list Z :=
  replicate (Z.to_nat kNumShards) (per_shard capacity).

(** [NewId]: [++last_id_] on a [uint64_t]; the new counter and the result. *)
Definition NewId (last_id_ : Z) : Z * Z :=
  let n := wrap64 (last_id_ + 1) in (n, n).

(** [n] calls of [NewId] in a row: the counter after them and the ids they
    returned, in order. *)
Fixpoint NewIds (n : nat) (last_id_ : Z) : Z * list Z :=
  match n with
  | O => (last_id_, [])
  | S n' =>
      let r := NewId last_id_ in
      let rest := NewIds n' r.1 in
      (rest.1, r.2 :: rest.2)
  end.

(** *** The operations of the sharded cache

    The 16 shards with their callers.  A shard never reads an entry that
    another shard has allocated, so the heap is seen split by allocating
    shard: every shard comes with its own part of the heap, a
    [Cache::Handle*] is the shard whose [Insert] allocated the entry together
    with the identity of the entry in that part, and the consumption of the
    one [MemTracker] the shards share is the sum of theirs.  [Release] finds
    its shard as the source does, from the hash stored in the entry; should
    that be another shard than the one that allocated the entry, the split
    heap has no answer and the result is [None]. *)
Definition handle := (nat * Handle)%type.

Definition shard_of (hash : Z) : nat := Z.to_nat (Shard hash).

(** [ShardedLRUCache(capacity)]. *)
Definition new (capacity : Z) : list Client.config :=
  replicate (Z.to_nat kNumShards) (Client.init (per_shard capacity)).

(** [shards_[i]->...]: one operation on the shard at index [i]. *)
Definition on_shard (i : nat) (o : Client.op) (cs : list Client.config)
  : option (list Client.config) :=
  c ← cs !! i; c' ← Client.run o c; Some (<[i := c']> cs).

Definition Insert (CityHash64 : string → Z) (cs : list Client.config)
    (key : string) (v chg del : Z) : option (list Client.config * handle) :=
  let hash := HashSlice CityHash64 key in
  c ← cs !! shard_of hash;
  r ← LRUCache.Insert (Client.shard c) key hash v chg del;
  cs' ← on_shard (shard_of hash) (Client.Insert key hash v chg del) cs;
  Some (cs', (shard_of hash, r.2)).

Definition Lookup (CityHash64 : string → Z) (cs : list Client.config)
    (key : string) : option (list Client.config * option handle) :=
  let hash := HashSlice CityHash64 key in
  c ← cs !! shard_of hash;
  r ← LRUCache.Lookup (Client.shard c) key hash;
  cs' ← on_shard (shard_of hash) (Client.Lookup key hash) cs;
  Some (cs', match r.2 with
             | Some h => Some (shard_of hash, h)
             | None => None
             end).

Definition Release (cs : list Client.config) (h : handle)
  : option (list Client.config) :=
  c ← cs !! h.1;
  e ← LRUCache.heap (Client.shard c) !! h.2;
  if decide (shard_of (LRUHandle.hash e) = h.1)
  then on_shard h.1 (Client.Release h.2) cs
  else None.

Definition Erase (CityHash64 : string → Z) (cs : list Client.config)
    (key : string) : option (list Client.config) :=
  let hash := HashSlice CityHash64 key in
  on_shard (shard_of hash) (Client.Erase key hash) cs.

(** [Value(handle)]. *)
Definition Value (cs : list Client.config) (h : handle) : option Z :=
  c ← cs !! h.1;
  e ← LRUCache.heap (Client.shard c) !! h.2;
  Some (LRUHandle.value e).

(** The invariant of the sharded cache: there are 16 shards, each in a state
    that its callers can have brought it to, and every entry that a shard
    has ever allocated carries a hash that [Shard] maps to that shard. *)
Definition ok (capacity : Z) (cs : list Client.config) : Prop :=
  length cs = Z.to_nat kNumShards ∧
  ∀ i c, cs !! i = Some c →
    Client.reachable (per_shard capacity) c ∧
    ∀ h e, Client.born c !! h = Some e → shard_of (LRUHandle.hash e) = i.
End ShardedLRUCache.

Arguments ShardedLRUCache.shard_of : simpl never.
Arguments ShardedLRUCache.HashSlice : simpl never.
Arguments ShardedLRUCache.Shard : simpl never.

(** The sum of the charges of the allocated entries to which some caller
    holds a handle: these entries cannot be freed by an eviction. *)
Definition pinned_charge (held : gmultiset Handle) (m : Heap) : Z :=
  live_charge (filter (λ p, p.1 ∈ held) m).

(** The heap of the examples: one entry, key ["A"] with hash 7. *)
Definition heap_A : Heap :=
  {[ 0 := LRUHandle.Make 100 1 1 "A" 2 7 ]}.

Definition table_A : HandleTable.t :=
  HandleTable.Make 4 1 [[]; []; []; [0]].

(** One entry cached in a shard of capacity 5, its handle still held. *)
Definition one_cached : Client.config :=
  default (Client.init 5)
    (Client.exec [Client.Insert "A" 7 100 1 1] (Client.init 5)).

(** Two entries cached in a shard of capacity 5, both handles released. *)
Definition ab_released : Client.config :=
  default (Client.init 5)
    (Client.exec
       [Client.Insert "A" 7 100 2 1; Client.Release 0;
        Client.Insert "B" 9 101 2 1; Client.Release 1]
       (Client.init 5)).

(** The sum of the charges that a sequence of operations inserts. *)
Definition inserted_charge (ops : list Client.op) : Z :=
  foldr (λ o acc,
           match o with
           | Client.Insert _ _ _ chg _ => (chg + acc)%Z
           | _ => acc
           end) 0%Z ops.

(** * More of [src/kudu/tablet/memrowset.cc]: the words of its properties *)

(** The row [v'] is the row [v] after at most one more mutation: the
    insertion timestamp and the row body are those of [v], and the mutation
    chain of [v] is the beginning of the chain of [v']. *)
Definition extends (v v' : MRSRow) : Prop :=
  insertion_timestamp v' = insertion_timestamp v ∧
  row_slice v' = row_slice v ∧
  ∃ suffix, redo_head v' = redo_head v ++ suffix ∧ length suffix ≤ 1.

(** Every row of [mrs] is still in [mrs'], extended, and every row of [mrs']
    that was not in [mrs] has an empty mutation chain. *)
Definition history_kept (mrs mrs' : MemRowSet) : Prop :=
  (∀ k v, tree_lookup k (tree_ mrs) = Some v →
     ∃ v', tree_lookup k (tree_ mrs') = Some v' ∧ extends v v') ∧
  (∀ k v', tree_lookup k (tree_ mrs') = Some v' →
     is_Some (tree_lookup k (tree_ mrs)) ∨ redo_head v' = []) ∧
  id_ mrs' = id_ mrs ∧
  FLAGS_memrowset_throttle_mb mrs' = FLAGS_memrowset_throttle_mb mrs.

(** The throttling warnings in a trace. *)
Definition is_warning (e : event) : bool :=
  match e with EvLogWarning _ => true | _ => false end.

Definition warnings (t : list event) : nat :=
  length (filter (λ e, is_warning e = true) t).

(** The microseconds slept in a trace. *)
Definition slept (t : list event) : list Z :=
  omap (λ e, match e with EvSleep us => Some us | _ => None end) t.

(** The excess that a throttle check finds: the footprint minus the flag
    times 1024 * 1024, the product taken in 32-bit [int]s, the difference in
    64 bits and read as signed. *)
Definition over_mem (flag footprint : Z) : Z :=
  to_ssize (footprint - to_int32 (to_int32 (flag * 1024) * 1024)).

(** What a throttle check that finds the excess [over] logs and sleeps, and
    the value of [has_logged_throttling_] after it. *)
Definition throttle_events (flag over logged : Z) : list event :=
  if (flag =? 0)%Z || (over <=? 0)%Z then []
  else
    (if (logged =? 0)%Z
     then [EvLogWarning "Throttling memrowset insert rate"] else [])
    ++ [EvSleep (over / 524288)%Z].

Definition throttle_logged (flag over logged : Z) : Z :=
  if (flag =? 0)%Z || (over <=? 0)%Z then logged
  else if (logged =? 0)%Z then 1%Z else logged.

(** A store with the one live row "k3". *)
Definition live_k3 : option MemRowSet :=
  run_Insert 10 "k3" (MkOpId 1 9) (Some (new_MemRowSet 7 0)).

(** * Properties of the hash table *)

Lemma land_bound (a b : Z) : (0 ≤ b → 0 ≤ Z.land a b ≤ b)%Z.
Proof.
  intros Hb. split.
  - apply Z.land_nonneg. by right.
  - assert (Hd : Z.ldiff (Z.land a b) b = 0%Z).
    { apply Z.bits_inj'. intros n Hn.
      rewrite Z.ldiff_spec, Z.land_spec, Z.bits_0.
      destruct (Z.testbit a n), (Z.testbit b n); reflexivity. }
    pose proof (Z.sub_nocarry_ldiff b (Z.land a b) Hd) as Hs.
    assert (0 ≤ Z.ldiff b (Z.land a b))%Z by (apply Z.ldiff_nonneg; by left).
    lia.
Qed.

Lemma bucket_lt (len hs : Z) :
  (1 ≤ len < 2 ^ 32)%Z → HandleTable.bucket len hs < Z.to_nat len.
Proof.
  intros Hl. unfold HandleTable.bucket, wrap32.
  rewrite Z.mod_small by lia.
  pose proof (land_bound hs (len - 1)). lia.
Qed.

Lemma alter_middle {A} (f : A → A) (l : list A) (i : nat) (c : A) :
  l !! i = Some c →
  l = take i l ++ c :: drop (S i) l ∧
  alter f i l = take i l ++ f c :: drop (S i) l.
Proof.
  revert i. induction l as [|x l IH]; intros [|i] Hi; simplify_eq/=.
  - by rewrite drop_0.
  - destruct (IH _ Hi) as [H1 H2]. split; f_equal; done.
Qed.

Lemma find_chain_cases (m : Heap) (k : string) (hs : Z) (c : list Handle) :
  (∀ h, h ∈ c → is_Some (m !! h)) →
  (∃ c1 h c2, c = c1 ++ h :: c2 ∧
     HandleTable.find_chain m k hs c = Some (length c1) ∧
     matches m k hs h ∧ ∀ x, x ∈ c1 → ¬ matches m k hs x) ∨
  (HandleTable.find_chain m k hs c = Some (length c) ∧
     ∀ x, x ∈ c → ¬ matches m k hs x).
Proof.
  induction c as [|h c IH]; intros Hc.
  - right. split; [done|]. intros x Hx. by apply elem_of_nil in Hx.
  - destruct (Hc h) as [e He]; [by left|]. simpl. rewrite He. simpl.
    case_bool_decide as Hd.
    + assert (Hnm : ¬ matches m k hs h).
      { intros (e' & He' & ? & ?). simplify_eq. destruct Hd; congruence. }
      destruct IH as [(c1 & h' & c2 & -> & Hf & Hm & Hn)|[Hf Hn]].
      { intros x Hx. apply Hc. by right. }
      * left. exists (h :: c1), h', c2. rewrite Hf. split_and!; try done.
        intros x [-> |Hx]%elem_of_cons; auto.
      * right. rewrite Hf. split; [done|].
        intros x [-> |Hx]%elem_of_cons; auto.
    + left. exists [], h, c. split_and!; try done.
      * exists e. split; [done|].
        destruct (decide (LRUHandle.hash e = hs)), (decide (LRUHandle.key e = k));
          naive_solver.
      * intros x Hx. by apply elem_of_nil in Hx.
Qed.



Lemma join_alter {A} (l : list (list A)) (i : nat) (c : list A) :
  l !! i = Some c →
  ∃ a b, mjoin l = a ++ c ++ b ∧ ∀ f, mjoin (alter f i l) = a ++ f c ++ b.
Proof.
  intros Hi. exists (mjoin (take i l)), (mjoin (drop (S i) l)). split.
  - destruct (alter_middle id l i c Hi) as [H1 _].
    rewrite H1 at 1. by rewrite join_app.
  - intros f. destruct (alter_middle f l i c Hi) as [_ H2].
    rewrite H2. by rewrite join_app.
Qed.

Lemma elem_of_tbl (tb : HandleTable.t) (h : Handle) :
  h ∈ tbl_elems tb ↔ ∃ i c, HandleTable.list_ tb !! i = Some c ∧ h ∈ c.
Proof.
  unfold tbl_elems. rewrite list_elem_of_join. split.
  - intros (c & Hh & Hc). apply list_elem_of_lookup in Hc as [i Hi]. eauto.
  - intros (i & c & Hi & Hh). exists c. split; [done|].
    by eapply list_elem_of_lookup_2.
Qed.

Lemma table_wf_heap (m m' : Heap) (tb : HandleTable.t) :
  (∀ h e, h ∈ tbl_elems tb → m !! h = Some e →
     ∃ e', m' !! h = Some e' ∧ LRUHandle.hash e' = LRUHandle.hash e ∧
           LRUHandle.key e' = LRUHandle.key e) →
  table_wf m tb → table_wf m' tb.
Proof.
  intros Hag [H1 H2 H3 H4 H5 H6 H7]. split; try done.
  - intros i c h Hi Hh. destruct (H6 i c h Hi Hh) as (e & He & Hb).
    destruct (Hag h e) as (e' & He' & Hh' & _); [|done|].
    { apply elem_of_tbl. eauto. }
    exists e'. by rewrite Hh'.
  - intros h1 h2 e1 e2 Hh1 Hh2 He1 He2 Hhs Hk.
    apply elem_of_tbl in Hh1 as Hh1'. destruct Hh1' as (i1 & c1 & Hi1 & Hc1).
    apply elem_of_tbl in Hh2 as Hh2'. destruct Hh2' as (i2 & c2 & Hi2 & Hc2).
    destruct (H6 _ _ _ Hi1 Hc1) as (f1 & Hf1 & _).
    destruct (H6 _ _ _ Hi2 Hc2) as (f2 & Hf2 & _).
    destruct (Hag _ _ Hh1 Hf1) as (g1 & Hg1 & Ha1 & Hb1).
    destruct (Hag _ _ Hh2 Hf2) as (g2 & Hg2 & Ha2 & Hb2).
    simplify_eq. apply (H7 h1 h2 f1 f2); congruence.
Qed.

(** What [FindPointer] returns on a well-formed table: the slot of the one
    entry with this hash and key, or the trailing slot of the bucket. *)
Lemma FindPointer_spec (m : Heap) (tb : HandleTable.t) (k : string) (hs : Z) :
  table_wf m tb →
  ∃ i c, i = HandleTable.bucket (HandleTable.length_ tb) hs ∧
    HandleTable.list_ tb !! i = Some c ∧
    ((∃ c1 h c2, c = c1 ++ h :: c2 ∧
        HandleTable.FindPointer m tb k hs = Some (i, length c1) ∧
        matches m k hs h ∧
        ∀ x, x ∈ tbl_elems tb → matches m k hs x → x = h) ∨
     (HandleTable.FindPointer m tb k hs = Some (i, length c) ∧
        ∀ x, x ∈ tbl_elems tb → ¬ matches m k hs x)).
Proof.
  intros Hwf. pose proof Hwf as [H1 H2 H3 H4 H5 H6 H7].
  set (i := HandleTable.bucket (HandleTable.length_ tb) hs).
  assert (Hlt : i < length (HandleTable.list_ tb)).
  { pose proof (bucket_lt (HandleTable.length_ tb) hs H2). lia. }
  apply lookup_lt_is_Some_2 in Hlt as [c Hc].
  exists i, c. split; [done|]. split; [done|].
  assert (Hin : ∀ x, x ∈ tbl_elems tb → matches m k hs x → x ∈ c).
  { intros x (j & c' & Hj & Hx)%elem_of_tbl (e & He & Hhs & _).
    destruct (H6 _ _ _ Hj Hx) as (e' & He' & Hb). simplify_eq.
    fold i in Hj. by simplify_eq. }
  unfold HandleTable.FindPointer. fold i. rewrite Hc. simpl.
  destruct (find_chain_cases m k hs c) as
    [(c1 & h & c2 & -> & Hf & Hm & Hn)|[Hf Hn]].
  - intros h Hh. destruct (H6 _ _ _ Hc Hh) as (e & He & _). eauto.
  - left. exists c1, h, c2. rewrite Hf. split_and!; try done.
    intros x Hx Hmx. destruct Hm as (e & He & Hh1 & Hk1).
    destruct Hmx as (e' & He' & Hh2 & Hk2).
    apply (H7 x h e' e); try done; try congruence.
    apply elem_of_tbl. exists i, (c1 ++ h :: c2). split; [done|].
    apply elem_of_app. right. by left.
  - right. rewrite Hf. split; [done|]. intros x Hx Hmx. apply (Hn x); auto.
Qed.

Lemma Lookup_table_spec (m : Heap) (tb : HandleTable.t) (k : string) (hs : Z) :
  table_wf m tb →
  ∃ r, HandleTable.Lookup m tb k hs = Some r ∧
    (∀ h, r = Some h → h ∈ tbl_elems tb ∧ matches m k hs h) ∧
    (r = None → ∀ x, x ∈ tbl_elems tb → ¬ matches m k hs x).
Proof.
  intros Hwf.
  destruct (FindPointer_spec m tb k hs Hwf) as
    (i & c & Hi & Hc & [(c1 & h & c2 & -> & Hf & Hm & Hu)|[Hf Hn]]);
    unfold HandleTable.Lookup; rewrite Hf; simpl;
    unfold HandleTable.deref; simpl; rewrite Hc; simpl.
  - rewrite list_lookup_middle by done. eexists. split; [done|].
    split; [|done]. intros h' [= <-]. split; [|done].
    apply elem_of_tbl. exists i, (c1 ++ h :: c2). split; [done|].
    apply elem_of_app. right. by left.
  - rewrite lookup_ge_None_2 by lia. eexists. split; [done|]. split; done.
Qed.

Lemma Remove_table_spec (m : Heap) (tb : HandleTable.t) (k : string) (hs : Z) :
  table_wf m tb →
  ∃ tb' r, HandleTable.Remove m tb k hs = Some (tb', r) ∧
    table_wf m tb' ∧
    (∀ h, r = Some h →
       h ∈ tbl_elems tb ∧ matches m k hs h ∧
       ∀ x, x ∈ tbl_elems tb' ↔ x ∈ tbl_elems tb ∧ x ≠ h) ∧
    (r = None → tb' = tb ∧ ∀ x, x ∈ tbl_elems tb → ¬ matches m k hs x).
Proof.
  intros Hwf. pose proof Hwf as [H1 H2 H3 H4 H5 H6 H7].
  destruct (FindPointer_spec m tb k hs Hwf) as
    (i & c & Hi & Hc & [(c1 & h & c2 & -> & Hf & Hm & Hu)|[Hf Hn]]);
    unfold HandleTable.Remove; rewrite Hf; simpl;
    unfold HandleTable.deref; simpl; rewrite Hc; simpl.
  - rewrite list_lookup_middle by done.
    destruct (join_alter _ _ _ Hc) as (a & b & Hj & Hj').
    specialize (Hj' (delete (length c1))). rewrite delete_middle in Hj'.
    unfold tbl_elems in *. rewrite Hj in *.
    assert (Hp : a ++ (c1 ++ h :: c2) ++ b ≡ₚ h :: (a ++ (c1 ++ c2) ++ b)).
    { rewrite <- (assoc_L (++) c1 (h :: c2) b), <- (assoc_L (++) c1 c2 b).
      rewrite (assoc_L (++) a c1), (assoc_L (++) a c1 (c2 ++ b)).
      symmetry. exact (Permutation_middle (a ++ c1) (c2 ++ b) h). }
    rewrite Hp in H5. apply NoDup_cons in H5 as [Hnh Hnd].
    assert (Hmem : ∀ x, x ∈ a ++ (c1 ++ c2) ++ b ↔
                        x ∈ a ++ (c1 ++ h :: c2) ++ b ∧ x ≠ h).
    { intros x. rewrite Hp, elem_of_cons. split.
      - intros Hx. split; [by right|]. by intros ->.
      - by intros [[-> |Hx] Hne]. }
    assert (Hw : wrap32 (HandleTable.elems_ tb - 1) =
                 Z.of_nat (length (a ++ (c1 ++ c2) ++ b))).
    { apply Permutation_length in Hp. simpl in Hp.
      unfold wrap32. rewrite Z.mod_small; lia. }
    do 2 eexists. split; [done|]. split_and!.
    + split; simpl; try done.
      * by rewrite length_alter.
      * unfold tbl_elems. simpl. by rewrite Hj'.
      * rewrite Hw. apply Permutation_length in Hp. simpl in Hp. lia.
      * unfold tbl_elems. simpl. by rewrite Hj'.
      * intros j c' x Hj2 Hx. destruct (decide (i = j)) as [<-|Hne].
        -- rewrite list_lookup_alter_eq, Hc in Hj2. simpl in Hj2.
           rewrite delete_middle in Hj2. simplify_eq.
           apply (H6 _ (c1 ++ h :: c2)); [done|].
           rewrite !elem_of_app, elem_of_cons. rewrite elem_of_app in Hx.
           tauto.
        -- rewrite list_lookup_alter_ne in Hj2 by done. by eapply H6.
      * unfold tbl_elems. simpl. rewrite Hj'.
        intros h1 h2 e1 e2 Hh1%Hmem Hh2%Hmem. apply H7; tauto.
    + intros h' [= <-]. split_and!; try done.
      * rewrite !elem_of_app. right. left. right. by left.
      * unfold tbl_elems. simpl. by rewrite Hj'.
    + done.
  - rewrite lookup_ge_None_2 by lia. do 2 eexists. split; [done|].
    split_and!; done.
Qed.

Lemma grow_spec (fuel : nat) (j : nat) (elems : Z) :
  2 ≤ j ≤ 31 → 31 - j ≤ fuel → (elems ≤ 2 ^ 31)%Z →
  ∃ n, HandleTable.grow fuel (2 ^ Z.of_nat j) elems = Some n ∧
       (4 ≤ n ≤ 2 ^ 31)%Z ∧ (elems ≤ n)%Z.
Proof.
  revert j. induction fuel as [|fuel IH]; intros j Hj Hf He.
  - assert (j = 31) as -> by lia. cbn [HandleTable.grow].
    change (Z.of_nat 31) with 31%Z.
    destruct (Z.ltb_spec (2 ^ 31) elems) as [|_]; [lia|].
    exists (2 ^ 31)%Z. split; [done|]. lia.
  - cbn [HandleTable.grow].
    destruct (Z.ltb_spec (2 ^ Z.of_nat j) elems) as [Hlt|Hge].
    + assert (j < 31).
      { destruct (decide (j = 31)) as [-> |]; [|lia].
        change (Z.of_nat 31) with 31%Z in Hlt. lia. }
      assert (Hw : wrap32 (2 ^ Z.of_nat j * 2) = (2 ^ Z.of_nat (S j))%Z).
      { rewrite Nat2Z.inj_succ, Z.pow_succ_r by lia.
        unfold wrap32. rewrite Z.mod_small; [lia|].
        assert (2 ^ Z.of_nat j ≤ 2 ^ 30)%Z by (apply Z.pow_le_mono_r; lia).
        lia. }
      rewrite Hw. apply IH; lia.
    + exists (2 ^ Z.of_nat j)%Z. split; [done|]. split; [|lia].
      split.
      * change 4%Z with (2 ^ 2)%Z. apply Z.pow_le_mono_r; lia.
      * apply Z.pow_le_mono_r; lia.
Qed.

Lemma rehash_spec (m : Heap) (n : Z) (hs : list Handle) (nl : list (list Handle)) :
  (1 ≤ n < 2 ^ 32)%Z → length nl = Z.to_nat n →
  (∀ h, h ∈ hs → is_Some (m !! h)) →
  ∃ nl', HandleTable.rehash m n hs nl = Some nl' ∧
    length nl' = length nl ∧
    mjoin nl' ≡ₚ hs ++ mjoin nl ∧
    ∀ i c h, nl' !! i = Some c → h ∈ c →
      (∃ c0, nl !! i = Some c0 ∧ h ∈ c0) ∨
      (h ∈ hs ∧ ∃ e, m !! h = Some e ∧
                     HandleTable.bucket n (LRUHandle.hash e) = i).
Proof.
  intros Hn. revert nl. induction hs as [|h hs IH]; intros nl Hlen Hin.
  - exists nl. split_and!; try done. intros i c h Hi Hh. left. eauto.
  - destruct (Hin h) as [e He]; [by left|]. simpl. rewrite He. simpl.
    set (i := HandleTable.bucket n (LRUHandle.hash e)).
    assert (Hlt : i < length nl).
    { pose proof (bucket_lt n (LRUHandle.hash e) Hn). lia. }
    apply lookup_lt_is_Some_2 in Hlt as [c0 Hc0]. rewrite Hc0. simpl.
    destruct (IH (alter (cons h) i nl)) as (nl' & Hr & Hl & Hp & Hb).
    { by rewrite length_alter. }
    { intros x Hx. apply Hin. by right. }
    exists nl'. rewrite Hr. split; [done|]. rewrite Hl, length_alter.
    split; [done|]. split.
    + rewrite Hp. destruct (join_alter _ _ _ Hc0) as (a & b & Hj & Hj').
      rewrite Hj', Hj. simpl. rewrite <- !Permutation_middle. done.
    + intros j c x Hj Hx. destruct (Hb j c x Hj Hx) as
        [(c1 & Hc1 & Hx1)|(Hx1 & Hx2)].
      * destruct (decide (i = j)) as [<-|Hne].
        -- rewrite list_lookup_alter_eq, Hc0 in Hc1. simpl in Hc1.
           simplify_eq. apply elem_of_cons in Hx1 as [-> |Hx1].
           ++ right. split; [by left|]. eauto.
           ++ left. eauto.
        -- rewrite list_lookup_alter_ne in Hc1 by done. left. eauto.
      * right. split; [by right|done].
Qed.

Lemma Resize_spec (m : Heap) (tb : HandleTable.t) :
  table_wf m tb →
  ∃ tb', HandleTable.Resize m tb = Some tb' ∧ table_wf m tb' ∧
         tbl_elems tb' ≡ₚ tbl_elems tb.
Proof.
  intros [H1 H2 H3 H4 H5 H6 H7]. unfold HandleTable.Resize.
  destruct (grow_spec 32 2 (HandleTable.elems_ tb)) as (n & Hg & Hn & Hen);
    [lia|lia|done|].
  change (2 ^ Z.of_nat 2)%Z with 4%Z in Hg. rewrite Hg. simpl.
  rewrite take_ge by lia.
  destruct (rehash_spec m n (mjoin (HandleTable.list_ tb))
              (replicate (Z.to_nat n) [])) as (nl & Hr & Hl & Hp & Hb).
  { lia. }
  { by rewrite length_replicate. }
  { intros h (i & c & Hi & Hh)%elem_of_tbl.
    destruct (H6 _ _ _ Hi Hh) as (e & He & _). eauto. }
  rewrite Hr. simpl. eexists. split; [done|].
  rewrite (join_nil_2 (replicate _ _)) in Hp by apply Forall_replicate, eq_refl.
  rewrite app_nil_r in Hp. rewrite length_replicate in Hl.
  split; [|done]. split; simpl; unfold tbl_elems in *; simpl.
  - lia.
  - lia.
  - by rewrite Hp.
  - done.
  - by rewrite Hp.
  - intros i c h Hi Hh. destruct (Hb _ _ _ Hi Hh) as [(c0 & Hc0 & Hh0)|[_ Hh0]].
    + apply lookup_replicate_1 in Hc0 as [-> _]. by apply elem_of_nil in Hh0.
    + done.
  - intros h1 h2 e1 e2 Hh1 Hh2. rewrite Hp in Hh1, Hh2. by apply H7.
Qed.

Lemma store_found {A} (c1 c2 : list A) (o h : A) :
  take (length c1) (c1 ++ o :: c2) ++ h :: drop (S (length c1)) (c1 ++ o :: c2)
  = c1 ++ h :: c2.
Proof. induction c1 as [|x c1 IH]; simpl; [by rewrite drop_0|by rewrite IH]. Qed.

Lemma store_trailing {A} (c : list A) (h : A) :
  take (length c) c ++ h :: drop (S (length c)) c = c ++ [h].
Proof. rewrite take_ge by lia. by rewrite drop_ge by lia. Qed.

Lemma Insert_table_spec (m : Heap) (tb : HandleTable.t) (h : Handle)
    (e : LRUHandle.t) :
  table_wf m tb → m !! h = Some e → h ∉ tbl_elems tb →
  (HandleTable.elems_ tb < 2 ^ 31)%Z →
  ∃ tb' old, HandleTable.Insert m tb h = Some (tb', old) ∧
    table_wf m tb' ∧
    (∀ x, x ∈ tbl_elems tb' ↔ x = h ∨ (x ∈ tbl_elems tb ∧ old ≠ Some x)) ∧
    (∀ o, old = Some o → o ∈ tbl_elems tb ∧
                         matches m (LRUHandle.key e) (LRUHandle.hash e) o) ∧
    (old = None → ∀ x, x ∈ tbl_elems tb →
                       ¬ matches m (LRUHandle.key e) (LRUHandle.hash e) x).
Proof.
  intros Hwf He Hfresh Hsz. pose proof Hwf as [H1 H2 H3 H4 H5 H6 H7].
  unfold HandleTable.Insert. rewrite He. simpl.
  destruct (FindPointer_spec m tb (LRUHandle.key e) (LRUHandle.hash e) Hwf) as
    (i & c & Hi & Hc & [(c1 & o & c2 & -> & Hf & Hm & Hu)|[Hf Hn]]);
    rewrite Hf; simpl; unfold HandleTable.deref, HandleTable.store; simpl;
    rewrite Hc; simpl;
    destruct (join_alter _ _ _ Hc) as (a & b & Hj & Hj').
  - rewrite list_lookup_middle by done.
    match goal with |- context [alter ?f i _] => specialize (Hj' f) end.
    simpl in Hj'. rewrite store_found in Hj'.
    unfold tbl_elems in *. rewrite Hj in *.
    assert (Hp : a ++ (c1 ++ o :: c2) ++ b ≡ₚ o :: (a ++ (c1 ++ c2) ++ b)).
    { rewrite <- (assoc_L (++) c1 (o :: c2) b), <- (assoc_L (++) c1 c2 b).
      rewrite (assoc_L (++) a c1), (assoc_L (++) a c1 (c2 ++ b)).
      symmetry. exact (Permutation_middle (a ++ c1) (c2 ++ b) o). }
    assert (Hq : a ++ (c1 ++ h :: c2) ++ b ≡ₚ h :: (a ++ (c1 ++ c2) ++ b)).
    { rewrite <- (assoc_L (++) c1 (h :: c2) b), <- (assoc_L (++) c1 c2 b).
      rewrite (assoc_L (++) a c1), (assoc_L (++) a c1 (c2 ++ b)).
      symmetry. exact (Permutation_middle (a ++ c1) (c2 ++ b) h). }
    set (R := a ++ (c1 ++ c2) ++ b) in *.
    rewrite Hp in H5. apply NoDup_cons in H5 as [HoR HndR].
    assert (HhR : h ∉ R).
    { intros Hh. apply Hfresh. rewrite Hp. by right. }
    assert (Hmem : ∀ x, x ∈ a ++ (c1 ++ h :: c2) ++ b ↔
              x = h ∨ (x ∈ a ++ (c1 ++ o :: c2) ++ b ∧ Some o ≠ Some x)).
    { intros x. rewrite Hp, Hq, !elem_of_cons. split.
      - intros [-> |Hx]; [by left|]. right. split; [by right|].
        intros [= ->]. done.
      - intros [-> |[[-> |Hx] Hne]]; [by left|done|by right]. }
    do 2 eexists. split; [done|]. split_and!.
    + split; simpl; unfold tbl_elems; simpl; try done.
      * by rewrite length_alter.
      * rewrite Hj', H3. apply Permutation_length in Hp, Hq. simpl in *. lia.
      * rewrite Hj', Hq. by apply NoDup_cons.
      * intros j c' x Hj2 Hx. destruct (decide (i = j)) as [<-|Hne].
        -- rewrite list_lookup_alter_eq, Hc in Hj2. simpl in Hj2.
           rewrite store_found in Hj2. simplify_eq.
           apply elem_of_app in Hx as [Hx|[-> |Hx]%elem_of_cons].
           ++ apply (H6 _ (c1 ++ o :: c2)); [done|].
              apply elem_of_app. by left.
           ++ eauto.
           ++ apply (H6 _ (c1 ++ o :: c2)); [done|].
              apply elem_of_app. right. by right.
        -- rewrite list_lookup_alter_ne in Hj2 by done. by eapply H6.
      * rewrite Hj'. intros x1 x2 e1 e2 Hx1%Hmem Hx2%Hmem Hm1 Hm2 Hhs Hk.
        destruct Hx1 as [-> |[Hx1 Hn1]], Hx2 as [-> |[Hx2 Hn2]]; simplify_eq.
        -- done.
        -- exfalso. apply Hn2. f_equal. symmetry. apply Hu; [done|].
           exists e2. split_and!; congruence.
        -- exfalso. apply Hn1. f_equal. symmetry. apply Hu; [done|].
           exists e1. split_and!; congruence.
        -- by eapply H7.
    + unfold tbl_elems; simpl. by rewrite Hj'.
    + intros o' [= <-]. split; [|done]. rewrite Hp. by left.
    + done.
  - rewrite (lookup_ge_None_2 c) by lia.
    match type of Hj' with ∀ f, _ => idtac end.
    match goal with |- context [alter ?f i _] => specialize (Hj' f) end.
    simpl in Hj'. rewrite store_trailing in Hj'.
    set (l' := alter _ i _) in *.
    assert (Hq : a ++ (c ++ [h]) ++ b ≡ₚ h :: tbl_elems tb).
    { unfold tbl_elems. rewrite Hj.
      rewrite <- (assoc_L (++) c [h] b), (assoc_L (++) a c).
      rewrite (assoc_L (++) a c b).
      symmetry. exact (Permutation_middle (a ++ c) b h). }
    assert (Hw : wrap32 (HandleTable.elems_ tb + 1) =
                 (HandleTable.elems_ tb + 1)%Z).
    { unfold wrap32. rewrite Z.mod_small; lia. }
    rewrite Hw.
    assert (Hwf2 : table_wf m
              (HandleTable.Make (HandleTable.length_ tb)
                 (HandleTable.elems_ tb + 1) l')).
    { split; simpl; unfold tbl_elems; simpl; try done.
      - unfold l'. by rewrite length_alter.
      - rewrite Hj'. apply Permutation_length in Hq. simpl in Hq. lia.
      - lia.
      - rewrite Hj', Hq. by apply NoDup_cons.
      - intros j c' x Hj2 Hx. unfold l' in Hj2.
        destruct (decide (i = j)) as [<-|Hne].
        + rewrite list_lookup_alter_eq, Hc in Hj2. simpl in Hj2.
          rewrite store_trailing in Hj2. simplify_eq.
          apply elem_of_app in Hx as [Hx|Hx%list_elem_of_singleton].
          * by apply (H6 _ c).
          * subst x. eauto.
        + rewrite list_lookup_alter_ne in Hj2 by done. by eapply H6.
      - intros x1 x2 e1 e2 Hx1 Hx2 Hm1 Hm2 Hhs Hk.
        rewrite Hj', Hq in Hx1, Hx2.
        apply elem_of_cons in Hx1 as [-> |Hx1];
          apply elem_of_cons in Hx2 as [-> |Hx2]; simplify_eq.
        + done.
        + exfalso. apply (Hn x2 Hx2). exists e2. split_and!; congruence.
        + exfalso. apply (Hn x1 Hx1). exists e1. split_and!; congruence.
        + by eapply H7. }
    assert (Hmem2 : ∀ x, x ∈ mjoin l' ↔
              x = h ∨ (x ∈ tbl_elems tb ∧ (None : option Handle) ≠ Some x)).
    { intros x. rewrite Hj', Hq, elem_of_cons. split.
      - intros [-> |Hx]; [by left|right; by split].
      - intros [-> |[Hx _]]; [by left|by right]. }
    destruct (_ <? _)%Z.
    + destruct (Resize_spec _ _ Hwf2) as (tb3 & Hr & Hwf3 & Hp3).
      rewrite Hr. simpl. do 2 eexists. split; [done|]. split_and!; try done.
      intros x. rewrite Hp3. apply Hmem2.
    + do 2 eexists. split; [done|]. split_and!; done.
Qed.

Lemma live_charge_insert (m : Heap) (h : Handle) (e : LRUHandle.t) :
  m !! h = None →
  live_charge (<[h := e]> m) = (LRUHandle.charge e + live_charge m)%Z.
Proof.
  intros Hm. unfold live_charge.
  rewrite map_fold_insert_L; [done| |done]. intros; lia.
Qed.

Lemma live_charge_delete (m : Heap) (h : Handle) (e : LRUHandle.t) :
  m !! h = Some e →
  live_charge m = (LRUHandle.charge e + live_charge (delete h m))%Z.
Proof.
  intros Hm. unfold live_charge.
  rewrite (map_fold_delete_L _ _ h e m); [done| |done]. intros; lia.
Qed.

Lemma live_charge_update (m : Heap) (h : Handle) (e e' : LRUHandle.t) :
  m !! h = Some e → LRUHandle.charge e' = LRUHandle.charge e →
  live_charge (<[h := e']> m) = live_charge m.
Proof.
  intros Hm Hc. rewrite <- (insert_delete_eq m h e').
  rewrite live_charge_insert by apply lookup_delete_eq.
  rewrite (live_charge_delete m h e Hm). lia.
Qed.

Lemma live_charge_nonneg (m : Heap) :
  (∀ h e, m !! h = Some e → (0 ≤ LRUHandle.charge e)%Z) →
  (0 ≤ live_charge m)%Z.
Proof.
  unfold live_charge.
  apply (map_fold_weak_ind
    (λ r m, (∀ h e, m !! h = Some e → (0 ≤ LRUHandle.charge e)%Z) → (0 ≤ r)%Z)).
  - intros _. lia.
  - intros i x m' r Hi IH Hall.
    assert (0 ≤ LRUHandle.charge x)%Z.
    { apply (Hall i). apply lookup_insert_eq. }
    assert (0 ≤ r)%Z; [|lia].
    apply IH. intros h e He. apply (Hall h).
    rewrite lookup_insert_ne; [done|]. intros ->. congruence.
Qed.

(** [Unref] as the source writes it, on an entry whose count is in range. *)
Lemma Unref_spec (s : LRUCache.t) (e : Handle) (en : LRUHandle.t) :
  LRUCache.heap s !! e = Some en → (1 ≤ LRUHandle.refs en < 2 ^ 32)%Z →
  LRUCache.Unref s e =
    Some (if decide (LRUHandle.refs en = 1%Z) then
            LRUCache.Make (LRUCache.capacity_ s)
              (wrap64 (LRUCache.usage_ s - LRUHandle.charge en))
              (LRUCache.lru_ s) (LRUCache.table_ s)
              (delete e (LRUCache.heap s)) (LRUCache.brk s)
              (LRUCache.mem_tracker_ s - LRUHandle.charge en)
              (LRUCache.deleter_calls s ++
                 [LRUCache.Call e (LRUHandle.deleter en) (LRUHandle.key en)
                    (LRUHandle.value en)])
          else
            LRUCache.set_heap
              (<[e := LRUHandle.set_refs (LRUHandle.refs en - 1) en]>
                 (LRUCache.heap s)) s).
Proof.
  intros He Hr. unfold LRUCache.Unref. rewrite He. simpl.
  unfold wrap32. rewrite Z.mod_small by lia.
  destruct (Z.leb_spec (LRUHandle.refs en - 1) 0), (decide _); try lia; done.
Qed.

Lemma wrap64_sub (a b : Z) : wrap64 (wrap64 a - b) = wrap64 (a - b).
Proof. unfold wrap64. by rewrite Zminus_mod_idemp_l. Qed.

Lemma wrap64_add (a b : Z) : wrap64 (wrap64 a + b) = wrap64 (a + b).
Proof. unfold wrap64. by rewrite Zplus_mod_idemp_l. Qed.

Lemma in_cache_cases (s : LRUCache.t) (h : Handle) :
  ((h ∈ LRUCache.lru_ s) ∧ in_cache s h = 1%Z) ∨
  ((h ∉ LRUCache.lru_ s) ∧ in_cache s h = 0%Z).
Proof. unfold in_cache. destruct (decide _); [left|right]; done. Qed.

(** Dropping the one reference in progress re-establishes the invariant. *)
Lemma Unref_inv (s : LRUCache.t) (held : gmultiset Handle)
    (born : gmap Handle LRUHandle.t) (e : Handle) :
  inv {[+ e +]} (Client.Config s held born) →
  ∃ s', LRUCache.Unref s e = Some s' ∧
    inv ∅ (Client.Config s' held born) ∧
    LRUCache.capacity_ s' = LRUCache.capacity_ s ∧
    LRUCache.lru_ s' = LRUCache.lru_ s ∧
    LRUCache.table_ s' = LRUCache.table_ s ∧
    LRUCache.brk s' = LRUCache.brk s ∧
    (LRUCache.mem_tracker_ s' ≤ LRUCache.mem_tracker_ s)%Z.
Proof.
  intros [I1 I2 I3 I4 I5 I6 I7 I8 I9 I10 I11 I12 I13 I14 I15]. simpl in *.
  destruct (I6 e) as [en He]; [by apply gmultiset_elem_of_singleton|].
  destruct (I7 e en He) as [Hr1 Hr2].
  rewrite multiplicity_singleton_eq in Hr2.
  pose proof (I8 e en He) as Hch.
  rewrite (Unref_spec s e en He Hr1).
  assert (Hother : ∀ h, h ≠ e → multiplicity h ({[+ e +]} : gmultiset Handle) = 0).
  { intros h Hne. by apply multiplicity_singleton_ne. }
  eexists. split; [done|]. destruct (decide _) as [H1|Hn1]; simpl.
  - destruct (in_cache_cases s e) as [[_ Hc]|[Hlru Hc]]; [lia|].
    assert (Hheld : e ∉ held).
    { rewrite not_elem_of_multiplicity. lia. }
    split_and!; try done; [|lia].
    split; simpl; try done.
    + eapply table_wf_heap; [|done]. intros h e' Hh He'.
      exists e'. rewrite lookup_delete_ne; [done|].
      intros <-. apply Hlru. by apply I3.
    + intros h Hh. rewrite lookup_delete_ne; [by apply I4|]. by intros <-.
    + intros h Hh. rewrite lookup_delete_ne; [by apply I5|]. by intros <-.
    + intros h Hh. by apply gmultiset_not_elem_of_empty in Hh.
    + intros h e' He'. destruct (decide (h = e)) as [-> |Hne].
      * by rewrite lookup_delete_eq in He'.
      * rewrite lookup_delete_ne in He' by done.
        destruct (I7 h e' He') as [? Hx]. rewrite Hother in Hx by done.
        rewrite multiplicity_empty. unfold in_cache in *. simpl. done.
    + intros h e' He'. apply lookup_delete_Some in He' as [_ He']. eauto.
    + intros h [e' He']. apply lookup_delete_Some in He' as [_ He'].
      apply I9. eauto.
    + rewrite I10, wrap64_sub. f_equal.
      rewrite (live_charge_delete _ _ _ He). lia.
    + rewrite I11, (live_charge_delete _ _ _ He). lia.
    + rewrite fmap_app. simpl. apply NoDup_app. split_and!; [done| |].
      * intros h Hh ->%list_elem_of_singleton.
        apply I13 in Hh as [_ Hh]. by rewrite He in Hh.
      * apply NoDup_singleton.
    + intros h. rewrite fmap_app, elem_of_app, I13. simpl.
      rewrite list_elem_of_singleton, lookup_delete_None. split.
      * intros [[? ?]| ->]; [by auto|]. split; [|by left]. apply I9. eauto.
      * intros [Hlt [-> |Hn]]; [by right|left; done].
    + intros h e' He'. apply lookup_delete_Some in He' as [_ He']. eauto.
    + intros d [Hd| ->%list_elem_of_singleton]%elem_of_app; [eauto|].
      simpl. exists (LRUHandle.set_refs 2 en). split; [by apply I14|done].
  - split_and!; try done.
    split; simpl; try done.
    + eapply table_wf_heap; [|done]. intros h e' Hh He'.
      destruct (decide (h = e)) as [-> |Hne].
      * rewrite lookup_insert_eq. simplify_eq. eauto.
      * rewrite lookup_insert_ne by done. eauto.
    + intros h Hh. apply lookup_insert_is_Some'. right. by apply I4.
    + intros h Hh. apply lookup_insert_is_Some'. right. by apply I5.
    + intros h Hh. by apply gmultiset_not_elem_of_empty in Hh.
    + intros h e' He'. rewrite multiplicity_empty.
      destruct (decide (h = e)) as [-> |Hne].
      * rewrite lookup_insert_eq in He'. simplify_eq. simpl.
        unfold in_cache in *. simpl. lia.
      * rewrite lookup_insert_ne in He' by done.
        destruct (I7 h e' He') as [? Hx]. rewrite Hother in Hx by done.
        unfold in_cache in *. simpl. done.
    + intros h e' He'. destruct (decide (h = e)) as [-> |Hne].
      * rewrite lookup_insert_eq in He'. by simplify_eq.
      * rewrite lookup_insert_ne in He' by done. eauto.
    + intros h Hh. apply lookup_insert_is_Some' in Hh as [-> |Hh]; apply I9; eauto.
    + by rewrite (live_charge_update _ _ en).
    + by rewrite (live_charge_update _ _ en).
    + intros h. rewrite I13, lookup_insert_None. split.
      * intros [? Hn]. split_and!; try done. intros <-. congruence.
      * intros [? [? ?]]. done.
    + intros h e' He'. destruct (decide (h = e)) as [-> |Hne].
      * rewrite lookup_insert_eq in He'. simplify_eq. by rewrite (I14 _ _ He).
      * rewrite lookup_insert_ne in He' by done. eauto.
Qed.

Lemma multiplicity_le_size (h : Handle) (X : gmultiset Handle) :
  multiplicity h X ≤ size X.
Proof.
  rewrite <- (Nat.mul_1_r (multiplicity h X)).
  rewrite <- (gmultiset_size_singleton h), <- gmultiset_size_scalar_mul.
  apply gmultiset_subseteq_size. intros x.
  rewrite multiplicity_scalar_mul, multiplicity_singleton.
  case_decide; subst; lia.
Qed.

Lemma set_table_id (s : LRUCache.t) : LRUCache.set_table (LRUCache.table_ s) s = s.
Proof. by destruct s. Qed.

(** A caller's handle, taken out of [held], is the reference about to be
    dropped. *)
Lemma inv_release (s : LRUCache.t) (held : gmultiset Handle)
    (born : gmap Handle LRUHandle.t) (h : Handle) :
  inv ∅ (Client.Config s held born) → h ∈ held →
  inv {[+ h +]} (Client.Config s (held ∖ {[+ h +]}) born).
Proof.
  intros [I1 I2 I3 I4 I5 I6 I7 I8 I9 I10 I11 I12 I13 I14 I15] Hh.
  simpl in *. split; simpl; try done.
  - intros x Hx. apply I5. rewrite elem_of_multiplicity.
    rewrite elem_of_multiplicity, multiplicity_difference in Hx. lia.
  - intros x ->%gmultiset_elem_of_singleton. by apply I5.
  - intros x e He. destruct (I7 x e He) as [? Hr]. split; [done|].
    rewrite Hr, multiplicity_empty, multiplicity_difference.
    rewrite elem_of_multiplicity in Hh.
    destruct (decide (x = h)) as [-> |Hne].
    + rewrite multiplicity_singleton_eq. lia.
    + rewrite multiplicity_singleton_ne by done. lia.
Qed.

(** An entry unlinked from the table and from the LRU list still carries the
    cache's reference: it is the reference about to be dropped. *)
Lemma inv_uncache (s : LRUCache.t) (held : gmultiset Handle)
    (born : gmap Handle LRUHandle.t) (e : Handle) (tb' : HandleTable.t) :
  inv ∅ (Client.Config s held born) →
  table_wf (LRUCache.heap s) tb' →
  (∀ x, x ∈ tbl_elems tb' ↔ x ∈ tbl_elems (LRUCache.table_ s) ∧ x ≠ e) →
  e ∈ tbl_elems (LRUCache.table_ s) →
  inv {[+ e +]}
    (Client.Config
       (LRUCache.set_table tb'
          (LRUCache.set_lru (LRUCache.LRU_Remove e (LRUCache.lru_ s)) s))
       held born).
Proof.
  intros [I1 I2 I3 I4 I5 I6 I7 I8 I9 I10 I11 I12 I13 I14 I15] Hwf Hmem He.
  simpl in *. unfold LRUCache.LRU_Remove.
  split; simpl; try done.
  - by apply NoDup_filter.
  - intros x. rewrite list_elem_of_filter, Hmem, I3. tauto.
  - intros x [_ Hx]%list_elem_of_filter. by apply I4.
  - intros x ->%gmultiset_elem_of_singleton. apply I4. by apply I3.
  - intros x en Hx. destruct (I7 x en Hx) as [? Hr]. split; [done|].
    rewrite Hr, multiplicity_empty. unfold in_cache. simpl.
    destruct (decide (x = e)) as [-> |Hne].
    + rewrite multiplicity_singleton_eq.
      rewrite decide_True by (by apply I3).
      rewrite decide_False; [lia|]. rewrite list_elem_of_filter. tauto.
    + rewrite multiplicity_singleton_ne by done.
      destruct (decide (x ∈ LRUCache.lru_ s)) as [Hin|Hin].
      * rewrite decide_True; [lia|]. by apply list_elem_of_filter.
      * rewrite decide_False; [lia|]. rewrite list_elem_of_filter. tauto.
Qed.

Lemma Release_inv (s : LRUCache.t) (held : gmultiset Handle)
    (born : gmap Handle LRUHandle.t) (h : Handle) :
  inv ∅ (Client.Config s held born) → h ∈ held →
  ∃ s', LRUCache.Release s h = Some s' ∧
        inv ∅ (Client.Config s' (held ∖ {[+ h +]}) born) ∧
        LRUCache.capacity_ s' = LRUCache.capacity_ s.
Proof.
  intros Hinv Hh.
  destruct (Unref_inv s _ born h (inv_release _ _ _ _ Hinv Hh))
    as (s' & Hu & Hi & Hc & _).
  exists s'. by split.
Qed.

Lemma Erase_inv (s : LRUCache.t) (held : gmultiset Handle)
    (born : gmap Handle LRUHandle.t) (k : string) (hs : Z) :
  inv ∅ (Client.Config s held born) →
  ∃ s', LRUCache.Erase s k hs = Some s' ∧ inv ∅ (Client.Config s' held born) ∧
        LRUCache.capacity_ s' = LRUCache.capacity_ s.
Proof.
  intros Hinv. pose proof (inv_table _ _ Hinv) as Hwf. simpl in Hwf.
  destruct (Remove_table_spec _ _ k hs Hwf) as (tb' & r & Hr & Hwf' & HS & HN).
  unfold LRUCache.Erase. rewrite Hr. simpl. destruct r as [e|].
  - destruct (HS e eq_refl) as (He & _ & Hmem).
    pose proof (inv_uncache s held born e tb' Hinv Hwf' Hmem He) as Hi.
    destruct (Unref_inv _ _ _ _ Hi) as (s' & Hu & Hi' & Hc & _).
    exists s'. split; [exact Hu|done].
  - destruct (HN eq_refl) as [-> _]. rewrite set_table_id. eauto.
Qed.

Lemma Lookup_inv (s : LRUCache.t) (held : gmultiset Handle)
    (born : gmap Handle LRUHandle.t) (k : string) (hs : Z) :
  inv ∅ (Client.Config s held born) →
  (Z.of_nat (size held) + 2 < 2 ^ 32)%Z →
  ∃ s' r, LRUCache.Lookup s k hs = Some (s', r) ∧
    inv ∅ (Client.Config s'
             (match r with Some h => held ⊎ {[+ h +]} | None => held end) born) ∧
    LRUCache.capacity_ s' = LRUCache.capacity_ s ∧
    (∀ h, r = Some h →
          h ∈ LRUCache.lru_ s ∧ matches (LRUCache.heap s) k hs h) ∧
    (r = None → s' = s ∧
       ∀ x, x ∈ LRUCache.lru_ s → ¬ matches (LRUCache.heap s) k hs x).
Proof.
  intros Hinv Hbound.
  pose proof Hinv as [I1 I2 I3 I4 I5 I6 I7 I8 I9 I10 I11 I12 I13 I14 I15].
  simpl in *.
  destruct (Lookup_table_spec _ _ k hs I1) as (r & Hr & HS & HN).
  unfold LRUCache.Lookup. rewrite Hr. simpl. destruct r as [e|].
  - destruct (HS e eq_refl) as [He Hm]. apply I3 in He.
    destruct (I4 e He) as [en Hen]. rewrite Hen. simpl.
    destruct (I7 e en Hen) as [Hr1 Hr2].
    assert (Hic : in_cache s e = 1%Z).
    { unfold in_cache. by rewrite decide_True. }
    rewrite Hic, multiplicity_empty in Hr2.
    pose proof (multiplicity_le_size e held) as Hb.
    assert (Hw : wrap32 (LRUHandle.refs en + 1) = (LRUHandle.refs en + 1)%Z).
    { unfold wrap32. rewrite Z.mod_small; lia. }
    rewrite Hw. do 2 eexists. split; [done|].
    split_and!; [|done|by intros ? [= <-]|done].
    assert (Hlru : ∀ x, x ∈ LRUCache.LRU_Append e
                          (LRUCache.LRU_Remove e (LRUCache.lru_ s)) ↔
                        x ∈ LRUCache.lru_ s).
    { intros x. unfold LRUCache.LRU_Append, LRUCache.LRU_Remove.
      rewrite elem_of_app, list_elem_of_filter, list_elem_of_singleton.
      destruct (decide (x = e)) as [-> |]; tauto. }
    split; simpl; try done.
    + eapply table_wf_heap; [|done]. intros h e' Hh He'.
      destruct (decide (h = e)) as [-> |Hne].
      * rewrite lookup_insert_eq. simplify_eq. eauto.
      * rewrite lookup_insert_ne by done. eauto.
    + unfold LRUCache.LRU_Append, LRUCache.LRU_Remove.
      apply NoDup_app. split_and!.
      * by apply NoDup_filter.
      * intros x [Hx _]%list_elem_of_filter ->%list_elem_of_singleton. done.
      * apply NoDup_singleton.
    + intros x. rewrite Hlru. apply I3.
    + intros x Hx%Hlru. apply lookup_insert_is_Some'. right. by apply I4.
    + intros x [Hx|Hx]%gmultiset_elem_of_disj_union.
      * apply lookup_insert_is_Some'. right. by apply I5.
      * apply gmultiset_elem_of_singleton in Hx as ->.
        apply lookup_insert_is_Some'. by left.
    + intros x Hx. by apply gmultiset_not_elem_of_empty in Hx.
    + intros x e' He'. rewrite multiplicity_empty, multiplicity_disj_union.
      assert (Hicx : in_cache
                (LRUCache.set_lru
                   (LRUCache.LRU_Append e (LRUCache.LRU_Remove e (LRUCache.lru_ s)))
                   (LRUCache.set_heap
                      (<[e := LRUHandle.set_refs (LRUHandle.refs en + 1) en]>
                         (LRUCache.heap s)) s)) x = in_cache s x).
      { unfold in_cache. simpl.
        destruct (decide (x ∈ LRUCache.lru_ s)) as [Hin|Hin].
        - rewrite decide_True; [done|]. by apply Hlru.
        - rewrite decide_False; [done|]. by rewrite Hlru. }
      rewrite Hicx.
      destruct (decide (x = e)) as [-> |Hne].
      * rewrite lookup_insert_eq in He'. simplify_eq. simpl.
        rewrite multiplicity_singleton_eq. lia.
      * rewrite lookup_insert_ne in He' by done.
        destruct (I7 x e' He') as [? Hx].
        rewrite multiplicity_empty in Hx.
        rewrite multiplicity_singleton_ne by done. lia.
    + intros x e' He'. destruct (decide (x = e)) as [-> |Hne].
      * rewrite lookup_insert_eq in He'. simplify_eq. simpl. eauto.
      * rewrite lookup_insert_ne in He' by done. eauto.
    + intros x Hx. apply lookup_insert_is_Some' in Hx as [-> |Hx]; apply I9; eauto.
    + by rewrite (live_charge_update _ _ en).
    + by rewrite (live_charge_update _ _ en).
    + intros x. rewrite I13, lookup_insert_None. split.
      * intros [? Hn]. split_and!; try done. intros <-. by rewrite Hen in Hn.
      * intros [? [? ?]]. done.
    + intros x e' He'. destruct (decide (x = e)) as [-> |Hne].
      * rewrite lookup_insert_eq in He'. simplify_eq. by rewrite (I14 _ _ Hen).
      * rewrite lookup_insert_ne in He' by done. eauto.
  - do 2 eexists. split; [done|]. split_and!; try done.
    split; [done|]. intros x Hx%I3. by apply HN.
Qed.

Lemma evict_one_inv (s : LRUCache.t) (held : gmultiset Handle)
    (born : gmap Handle LRUHandle.t) (old : Handle) :
  inv ∅ (Client.Config s held born) → old ∈ LRUCache.lru_ s →
  ∃ s', LRUCache.evict_one s old = Some s' ∧
    inv ∅ (Client.Config s' held born) ∧
    LRUCache.capacity_ s' = LRUCache.capacity_ s ∧
    LRUCache.lru_ s' = LRUCache.LRU_Remove old (LRUCache.lru_ s) ∧
    LRUCache.brk s' = LRUCache.brk s ∧
    (LRUCache.mem_tracker_ s' ≤ LRUCache.mem_tracker_ s)%Z.
Proof.
  intros Hinv Hold.
  pose proof Hinv as [I1 I2 I3 I4 I5 I6 I7 I8 I9 I10 I11 I12 I13 I14 I15].
  simpl in *. destruct (I4 old Hold) as [en Hen].
  unfold LRUCache.evict_one. simpl. rewrite Hen. simpl.
  destruct (Remove_table_spec _ _ (LRUHandle.key en) (LRUHandle.hash en) I1)
    as (tb' & r & Hr & Hwf' & HS & HN).
  rewrite Hr. simpl.
  assert (Hm : matches (LRUCache.heap s) (LRUHandle.key en) (LRUHandle.hash en) old).
  { exists en. done. }
  apply I3 in Hold as Htb.
  destruct r as [h|]; [|by destruct (HN eq_refl) as [_ Hn]; destruct (Hn old Htb)].
  destruct (HS h eq_refl) as (Hh & (en' & Hen' & Hhs & Hk) & Hmem).
  assert (h = old) as ->.
  { apply (wf_unique _ _ I1 h old en' en); done. }
  pose proof (inv_uncache s held born old tb' Hinv Hwf' Hmem Htb) as Hi.
  destruct (Unref_inv _ _ _ _ Hi) as (s' & Hu & Hi' & Hc & Hl & _ & Hb & Ht).
  exists s'. split; [exact Hu|]. split_and!; done.
Qed.

(** The eviction loop ends within as many iterations as the LRU list has
    entries, and it ends because its condition is false. *)
Lemma evict_inv (fuel : nat) (s : LRUCache.t) (held : gmultiset Handle)
    (born : gmap Handle LRUHandle.t) :
  inv ∅ (Client.Config s held born) → length (LRUCache.lru_ s) ≤ fuel →
  ∃ s', LRUCache.evict fuel s = Some s' ∧
    inv ∅ (Client.Config s' held born) ∧
    ((LRUCache.usage_ s' ≤ LRUCache.capacity_ s')%Z ∨ LRUCache.lru_ s' = []) ∧
    LRUCache.capacity_ s' = LRUCache.capacity_ s ∧
    LRUCache.brk s' = LRUCache.brk s ∧
    (LRUCache.mem_tracker_ s' ≤ LRUCache.mem_tracker_ s)%Z.
Proof.
  revert s. induction fuel as [|fuel IH]; intros s Hinv Hlen.
  - destruct (LRUCache.lru_ s) as [|old l] eqn:Hl; [|simpl in Hlen; lia].
    exists s. simpl. rewrite Hl. split_and!; first [done | lia | by right].
  - destruct (LRUCache.lru_ s) as [|old l] eqn:Hl.
    + exists s. simpl. rewrite Hl. split_and!; first [done | lia | by right].
    + simpl. rewrite Hl.
      destruct (Z.ltb_spec (LRUCache.capacity_ s) (LRUCache.usage_ s)) as [Hlt|Hge].
      * destruct (evict_one_inv s held born old Hinv)
          as (s1 & He & Hi1 & Hc1 & Hl1 & Hb1 & Ht1).
        { rewrite Hl. by left. }
        rewrite He. simpl.
        destruct (IH s1 Hi1) as (s' & He' & Hi' & Hx & Hc' & Hb' & Ht').
        { rewrite Hl1, Hl. unfold LRUCache.LRU_Remove.
          rewrite filter_cons_False by (intros Hne; by apply Hne).
          pose proof (length_filter (λ x, x ≠ old) l). simpl in Hlen. lia. }
        exists s'. split; [done|]. split_and!; first [done | congruence | lia].
      * exists s. split_and!; first [done | lia | by left].
Qed.

Lemma inv_inserted (s : LRUCache.t) (held : gmultiset Handle)
    (born : gmap Handle LRUHandle.t) (k : string) (hs v chg del : Z)
    (tb' : HandleTable.t) (lru2 : list Handle) (extra : gmultiset Handle) :
  let e := LRUCache.brk s in
  let en := LRUHandle.Make v del chg k 2 hs in
  let m1 := <[e := en]> (LRUCache.heap s) in
  inv ∅ (Client.Config s held born) → (0 ≤ chg)%Z →
  table_wf m1 tb' → NoDup lru2 →
  (∀ x, x ∈ lru2 ↔ x ∈ tbl_elems tb') →
  (∀ x, x ∈ lru2 → x = e ∨ x ∈ LRUCache.lru_ s) → e ∈ lru2 →
  (∀ x, x ≠ e →
     in_cache s x = ((if decide (x ∈ lru2) then 1 else 0)
                     + Z.of_nat (multiplicity x extra))%Z) →
  multiplicity e extra = 0 →
  (∀ x, x ∈ extra → x ∈ LRUCache.lru_ s) →
  inv extra
    (Client.Config
       (LRUCache.Make (LRUCache.capacity_ s) (wrap64 (LRUCache.usage_ s + chg))
          lru2 tb' m1 (S e) (LRUCache.mem_tracker_ s + chg)
          (LRUCache.deleter_calls s))
       (held ⊎ {[+ e +]}) (<[e := en]> born)).
Proof.
  intros e en m1 [I1 I2 I3 I4 I5 I6 I7 I8 I9 I10 I11 I12 I13 I14 I15]
    Hchg Hwf Hnd Htb Hsub He Hic He0 Hex.
  simpl in *.
  assert (Hfresh : LRUCache.heap s !! e = None).
  { destruct (LRUCache.heap s !! e) eqn:Hq; [|done].
    assert (e < e) by (apply I9; eauto). lia. }
  assert (Hheld : multiplicity e held = 0).
  { apply not_elem_of_multiplicity. intros Hh. apply I5 in Hh as [? Hh].
    rewrite Hfresh in Hh. done. }
  split; simpl; try done.
  - intros x Hx. unfold m1. apply lookup_insert_is_Some'.
    destruct (Hsub x Hx) as [-> |Hl]; [by left|]. right. by apply I4.
  - intros x [Hx|Hx]%gmultiset_elem_of_disj_union; unfold m1;
      apply lookup_insert_is_Some'.
    + right. by apply I5.
    + apply gmultiset_elem_of_singleton in Hx. by left.
  - intros x Hx. unfold m1. apply lookup_insert_is_Some'. right.
    by apply I4, Hex.
  - intros x e' He'. unfold m1 in He'. unfold in_cache. simpl.
    rewrite multiplicity_disj_union.
    destruct (decide (x = e)) as [-> |Hne].
    + rewrite lookup_insert_eq in He'. simplify_eq. simpl.
      rewrite decide_True by done.
      rewrite multiplicity_singleton_eq, He0. fold e. rewrite Hheld. lia.
    + rewrite lookup_insert_ne in He' by done.
      destruct (I7 x e' He') as [? Hr]. split; [done|].
      rewrite Hr, multiplicity_empty, (Hic x Hne).
      rewrite multiplicity_singleton_ne by done. lia.
  - intros x e' He'. unfold m1 in He'. destruct (decide (x = e)) as [-> |Hne].
    + rewrite lookup_insert_eq in He'. by simplify_eq.
    + rewrite lookup_insert_ne in He' by done. eauto.
  - intros x Hx. unfold m1 in Hx.
    apply lookup_insert_is_Some' in Hx as [-> |Hx]; [lia|].
    apply I9 in Hx. fold e in Hx. lia.
  - unfold m1. rewrite live_charge_insert by done.
    rewrite I10, wrap64_add. apply (f_equal wrap64). unfold en. simpl. lia.
  - unfold m1. rewrite live_charge_insert by done. unfold en. simpl. lia.
  - intros x. rewrite I13. unfold m1. rewrite lookup_insert_None. fold e.
    split.
    + intros [? ?]. split_and!; [lia|done|lia].
    + intros [? [? ?]]. split; [lia|done].
  - intros x e' He'. unfold m1 in He'. destruct (decide (x = e)) as [-> |Hne].
    + rewrite lookup_insert_eq in He'. simplify_eq. by rewrite lookup_insert_eq.
    + rewrite lookup_insert_ne in He' by done.
      rewrite lookup_insert_ne by done. eauto.
  - intros d Hd. destruct (I15 d Hd) as (e' & He' & ?).
    exists e'. split; [|done]. rewrite lookup_insert_ne; [done|].
    assert (LRUCache.call_entry d < e); [|lia].
    apply I13. by apply list_elem_of_fmap_2.
Qed.

Lemma Insert_inv (s : LRUCache.t) (held : gmultiset Handle)
    (born : gmap Handle LRUHandle.t) (k : string) (hs v chg del : Z) :
  inv ∅ (Client.Config s held born) → (0 ≤ chg)%Z →
  (Z.of_nat (length (LRUCache.lru_ s)) < 2 ^ 31)%Z →
  ∃ s', LRUCache.Insert s k hs v chg del = Some (s', LRUCache.brk s) ∧
    inv ∅ (Client.Config s' (held ⊎ {[+ LRUCache.brk s +]})
             (<[LRUCache.brk s := LRUHandle.Make v del chg k 2 hs]> born)) ∧
    ((LRUCache.usage_ s' ≤ LRUCache.capacity_ s')%Z ∨ LRUCache.lru_ s' = []) ∧
    LRUCache.capacity_ s' = LRUCache.capacity_ s ∧
    (LRUCache.mem_tracker_ s' ≤ LRUCache.mem_tracker_ s + chg)%Z.
Proof.
  intros Hinv Hchg Hlen.
  pose proof Hinv as [I1 I2 I3 I4 I5 I6 I7 I8 I9 I10 I11 I12 I13 I14 I15].
  simpl in *.
  assert (Hfresh : LRUCache.heap s !! LRUCache.brk s = None).
  { destruct (LRUCache.heap s !! LRUCache.brk s) eqn:Hq; [|done].
    assert (LRUCache.brk s < LRUCache.brk s) by (apply I9; eauto). lia. }
  assert (Hwf1 : table_wf
            (<[LRUCache.brk s := LRUHandle.Make v del chg k 2 hs]> (LRUCache.heap s))
            (LRUCache.table_ s)).
  { eapply table_wf_heap; [|exact I1]. intros h e' Hh He'. exists e'.
    rewrite lookup_insert_ne; [done|]. intros <-. by rewrite Hfresh in He'. }
  assert (Hnotin : LRUCache.brk s ∉ tbl_elems (LRUCache.table_ s)).
  { intros Hh%I3%I4. destruct Hh as [? Hh]. by rewrite Hfresh in Hh. }
  assert (Hnotlru : LRUCache.brk s ∉ LRUCache.lru_ s).
  { intros Hh%I3. done. }
  assert (Helems : (HandleTable.elems_ (LRUCache.table_ s) < 2 ^ 31)%Z).
  { rewrite (wf_elems _ _ I1).
    assert (Hp : tbl_elems (LRUCache.table_ s) ≡ₚ LRUCache.lru_ s).
    { apply NoDup_Permutation; [apply (wf_nodup _ _ I1)|done|].
      intros x. symmetry. apply I3. }
    rewrite Hp. lia. }
  destruct (Insert_table_spec _ _ (LRUCache.brk s) _ Hwf1
              (lookup_insert_eq _ _ _) Hnotin Helems)
    as (tb' & old & Hins & Hwf' & Hmem & HS & HN).
  unfold LRUCache.Insert. simpl. rewrite Hins. simpl.
  destruct old as [o|].
  - destruct (HS o eq_refl) as [Ho _].
    assert (Hne : o ≠ LRUCache.brk s) by (intros ->; done).
    match goal with |- context [LRUCache.Unref ?S o] => set (s2 := S) end.
    assert (Hi2 : inv {[+ o +]}
              (Client.Config s2 (held ⊎ {[+ LRUCache.brk s +]})
                 (<[LRUCache.brk s := LRUHandle.Make v del chg k 2 hs]> born))).
    { apply (inv_inserted s held born k hs v chg del tb'
               (LRUCache.LRU_Remove o
                  (LRUCache.LRU_Append (LRUCache.brk s) (LRUCache.lru_ s)))
               {[+ o +]}); try done;
        unfold LRUCache.LRU_Remove, LRUCache.LRU_Append.
      - apply NoDup_filter. apply NoDup_app. split_and!; [done| |apply NoDup_singleton].
        intros x Hx ->%list_elem_of_singleton. done.
      - intros x. rewrite list_elem_of_filter, elem_of_app, list_elem_of_singleton.
        rewrite Hmem, I3. split.
        + intros [? [?| ->]]; [right|by left]. split; [done|]. by intros [= ->].
        + intros [-> |[? Hn]]; [split; [done|by right]|].
          split; [|by left]. intros ->. done.
      - intros x. rewrite list_elem_of_filter, elem_of_app, list_elem_of_singleton.
        tauto.
      - rewrite list_elem_of_filter, elem_of_app, list_elem_of_singleton.
        split; [done|by right].
      - intros x Hx. unfold in_cache.
        destruct (decide (x = o)) as [-> |Hxo].
        + rewrite multiplicity_singleton_eq.
          rewrite decide_True by (by apply I3).
          rewrite decide_False; [lia|]. rewrite list_elem_of_filter. tauto.
        + rewrite multiplicity_singleton_ne by done.
          destruct (decide (x ∈ LRUCache.lru_ s)) as [Hin|Hin].
          * rewrite decide_True; [lia|].
            rewrite list_elem_of_filter, elem_of_app. tauto.
          * rewrite decide_False; [lia|].
            rewrite list_elem_of_filter, elem_of_app, list_elem_of_singleton.
            tauto.
      - by apply multiplicity_singleton_ne.
      - intros x ->%gmultiset_elem_of_singleton. by apply I3. }
    destruct (Unref_inv _ _ _ _ Hi2) as (s3 & Hu & Hi3 & Hc3 & Hl3 & _ & Hb3 & Ht3).
    rewrite Hu. simpl.
    destruct (evict_inv (length (LRUCache.lru_ s3)) s3 _ _ Hi3 (le_n _))
      as (s4 & He & Hi4 & Hx4 & Hc4 & Hb4 & Ht4).
    rewrite He. simpl. exists s4. split; [done|]. split_and!; try done.
    + rewrite Hc4, Hc3. done.
    + simpl in Ht3. lia.
  - match goal with |- context [Some ?S ≫= _] => set (s2 := S) end.
    assert (Hi2 : inv ∅
              (Client.Config s2 (held ⊎ {[+ LRUCache.brk s +]})
                 (<[LRUCache.brk s := LRUHandle.Make v del chg k 2 hs]> born))).
    { apply (inv_inserted s held born k hs v chg del tb'
               (LRUCache.LRU_Append (LRUCache.brk s) (LRUCache.lru_ s)) ∅);
        try done; unfold LRUCache.LRU_Append.
      - apply NoDup_app. split_and!; [done| |apply NoDup_singleton].
        intros x Hx ->%list_elem_of_singleton. done.
      - intros x. rewrite elem_of_app, list_elem_of_singleton, Hmem, I3.
        split; [intros [?| ->]; [right; by split|by left]|].
        intros [-> |[? _]]; [by right|by left].
      - intros x. rewrite elem_of_app, list_elem_of_singleton. tauto.
      - rewrite elem_of_app, list_elem_of_singleton. by right.
      - intros x Hx. unfold in_cache. rewrite multiplicity_empty.
        destruct (decide (x ∈ LRUCache.lru_ s)) as [Hin|Hin].
        + rewrite decide_True; [lia|]. rewrite elem_of_app. tauto.
        + rewrite decide_False; [lia|].
          rewrite elem_of_app, list_elem_of_singleton. tauto.
      - intros x Hx. by apply gmultiset_not_elem_of_empty in Hx. }
    destruct (evict_inv (length (LRUCache.lru_ s2)) s2 _ _ Hi2 (le_n _))
      as (s4 & He & Hi4 & Hx4 & Hc4 & Hb4 & Ht4).
    cbn [mbind option_bind]. rewrite He. simpl.
    exists s4. split; [done|]. split_and!; done.
Qed.

(** Every operation a caller may validly issue returns, and it preserves the
    invariant. *)
Lemma run_inv (o : Client.op) (c : Client.config) :
  inv ∅ c → Client.valid o c →
  ∃ c', Client.run o c = Some c' ∧ inv ∅ c' ∧
        LRUCache.capacity_ (Client.shard c') = LRUCache.capacity_ (Client.shard c).
Proof.
  destruct c as [s held born]. intros Hinv Hv.
  destruct o as [k hs v chg del|k hs|h|k hs]; simpl in *.
  - destruct Hv as [Hchg Hlen].
    destruct (Insert_inv s held born k hs v chg del Hinv Hchg Hlen)
      as (s' & Hi & Hinv' & _ & Hc & _).
    rewrite Hi. simpl. eauto.
  - destruct (Lookup_inv s held born k hs Hinv Hv)
      as (s' & r & Hl & Hinv' & Hc & _).
    rewrite Hl. simpl. eauto.
  - destruct (Release_inv s held born h Hinv Hv) as (s' & Hr & Hinv' & Hc).
    rewrite Hr. simpl. eauto.
  - destruct (Erase_inv s held born k hs Hinv) as (s' & Hr & Hinv' & Hc).
    rewrite Hr. simpl. eauto.
Qed.

Lemma init_inv (capacity : Z) : inv ∅ (Client.init capacity).
Proof.
  split; simpl; try done.
  - split; simpl; try done.
    + unfold tbl_elems. simpl. apply NoDup_nil_2.
    + intros [|[|[|[|i]]]] c h Hi Hh; simplify_eq/=; by apply elem_of_nil in Hh.
  - apply NoDup_nil_2.
  - intros h Hh. by apply elem_of_nil in Hh.
  - intros h Hh. by apply gmultiset_not_elem_of_empty in Hh.
  - intros h Hh. by apply gmultiset_not_elem_of_empty in Hh.
  - intros h [? Hh]. by rewrite lookup_empty in Hh.
  - apply NoDup_nil_2.
  - intros h. split.
    + intros Hh. by apply elem_of_nil in Hh.
    + intros [Hh _]. lia.
  - intros d Hd. by apply elem_of_nil in Hd.
Qed.

Lemma reachable_inv (capacity : Z) (c : Client.config) :
  Client.reachable capacity c →
  inv ∅ c ∧ LRUCache.capacity_ (Client.shard c) = capacity.
Proof.
  induction 1 as [|c o c' Hreach [IH1 IH2] Hv Hrun].
  - split; [apply init_inv|done].
  - destruct (run_inv o c IH1 Hv) as (c'' & Hr & Hi & Hc).
    rewrite Hrun in Hr. simplify_eq. split; [done|congruence].
Qed.

Lemma charge_sum_agree (m m' : Heap) (l : list Handle) :
  (∀ x, x ∈ l → m' !! x = m !! x) →
  foldr (λ h acc,
           (match m' !! h with Some e => LRUHandle.charge e | None => 0 end
            + acc)%Z) 0%Z l =
  foldr (λ h acc,
           (match m !! h with Some e => LRUHandle.charge e | None => 0 end
            + acc)%Z) 0%Z l.
Proof.
  induction l as [|h l IH]; intros Hag; [done|]. simpl.
  rewrite Hag by (by left). rewrite IH; [done|].
  intros x Hx. apply Hag. by right.
Qed.

Lemma live_charge_list (l : list Handle) (m : Heap) :
  NoDup l → (∀ h, h ∈ l ↔ is_Some (m !! h)) →
  live_charge m =
  foldr (λ h acc,
           (match m !! h with Some e => LRUHandle.charge e | None => 0 end
            + acc)%Z) 0%Z l.
Proof.
  revert m. induction l as [|h l IH]; intros m Hnd Hdom.
  - assert (m = ∅) as ->; [|done].
    apply map_eq. intros i. rewrite lookup_empty.
    destruct (m !! i) eqn:Hi; [|done].
    assert (Hin : i ∈ []) by (apply Hdom; eauto). by apply elem_of_nil in Hin.
  - apply NoDup_cons in Hnd as [Hh Hnd].
    destruct (proj1 (Hdom h)) as [e He]; [by left|].
    simpl. rewrite He, (live_charge_delete m h e He). f_equal.
    rewrite (IH (delete h m) Hnd).
    + apply charge_sum_agree. intros x Hx.
      rewrite lookup_delete_ne; [done|]. by intros ->.
    + intros x. rewrite lookup_delete_is_Some, <- Hdom, elem_of_cons.
      split; [|intros [? [?|?]]; done].
      intros Hx. split; [|by right]. by intros ->.
Qed.

Lemma exec_reachable (capacity : Z) (ops : list Client.op) (c c' : Client.config) :
  Client.reachable capacity c → Client.exec ops c = Some c' →
  Client.reachable capacity c'.
Proof.
  revert c. induction ops as [|o ops IH]; intros c Hr He; simpl in He.
  - by simplify_eq.
  - destruct (decide (Client.valid o c)) as [Hv|]; [|done].
    destruct (Client.run o c) as [c1|] eqn:Hrun; [|done]. simpl in He.
    apply (IH c1); [|done]. by eapply Client.reach_step.
Qed.

Lemma oversized_reachable : Client.reachable 5 oversized.
Proof.
  apply (exec_reachable 5 [Client.Insert "A" 7 100 10 1] (Client.init 5));
    [apply Client.reach_init|]. by vm_compute.
Qed.

Lemma erased_while_held_reachable : Client.reachable 5 erased_while_held.
Proof.
  apply (exec_reachable 5 [Client.Insert "A" 7 100 1 1; Client.Erase "A" 7]
           (Client.init 5)); [apply Client.reach_init|]. by vm_compute.
Qed.

Lemma replaced_and_released_reachable :
  Client.reachable 5 replaced_and_released.
Proof.
  apply (exec_reachable 5
           [Client.Insert "A" 7 100 1 1; Client.Lookup "A" 7;
            Client.Insert "A" 7 200 1 1; Client.Release 0; Client.Release 0]
           (Client.init 5)); [apply Client.reach_init|]. by vm_compute.
Qed.

(** * The cache: the properties of the specification *)

Lemma filter_calls_none (l : list LRUCache.deleter_call) (h : Handle) :
  h ∉ LRUCache.call_entry <$> l →
  filter (λ d, LRUCache.call_entry d = h) l = [].
Proof.
  induction l as [|d l IH]; intros Hn; [done|].
  rewrite fmap_cons, not_elem_of_cons in Hn. destruct Hn as [Hne Hn].
  rewrite filter_cons_False by (intros Heq; by apply Hne). by apply IH.
Qed.

Lemma filter_calls_one (l : list LRUCache.deleter_call) (d : LRUCache.deleter_call) :
  NoDup (LRUCache.call_entry <$> l) → d ∈ l →
  filter (λ x, LRUCache.call_entry x = LRUCache.call_entry d) l = [d].
Proof.
  induction l as [|x l IH]; intros Hnd Hd; [by apply elem_of_nil in Hd|].
  rewrite fmap_cons in Hnd. apply NoDup_cons in Hnd as [Hx Hnd].
  apply elem_of_cons in Hd as [-> |Hd].
  - rewrite filter_cons_True by done. by rewrite filter_calls_none.
  - rewrite filter_cons_False; [by apply IH|].
    intros Heq. apply Hx. rewrite Heq. by apply list_elem_of_fmap_2.
Qed.

(** C1, as amended.  An entry whose charge alone exceeds the capacity is
    inserted into a shard (the sum of the live charges staying below 2^64):
    [Insert] returns, usage exceeds the capacity afterwards, and the eviction
    loop has stopped because the LRU list is empty.  The new entry was on
    that list, so it has been evicted with the others: a lookup of its key
    finds nothing.  It is not freed, since the caller's handle is the one
    reference left, and its charge still counts in usage. *)
Theorem Insert_oversized (capacity : Z) (c : Client.config)
    (k : string) (hs v chg del : Z) :
  Client.reachable capacity c →
  Client.valid (Client.Insert k hs v chg del) c →
  (capacity < chg)%Z →
  (live_charge (LRUCache.heap (Client.shard c)) + chg < 2 ^ 64)%Z →
  ∃ s', LRUCache.Insert (Client.shard c) k hs v chg del
          = Some (s', LRUCache.brk (Client.shard c)) ∧
    LRUCache.capacity_ s' = capacity ∧
    (capacity < LRUCache.usage_ s')%Z ∧
    (chg ≤ LRUCache.usage_ s'
         ≤ live_charge (LRUCache.heap (Client.shard c)) + chg)%Z ∧
    LRUCache.lru_ s' = [] ∧
    LRUCache.Lookup s' k hs = Some (s', None) ∧
    ∃ e, LRUCache.heap s' !! LRUCache.brk (Client.shard c) = Some e ∧
         LRUHandle.refs e = 1%Z ∧ LRUHandle.value e = v ∧
         LRUHandle.key e = k ∧ LRUHandle.charge e = chg.
Proof.
  destruct c as [s held born]. simpl. intros Hreach [Hchg Hlen] Hcap Hsum.
  destruct (reachable_inv _ _ Hreach) as [Hinv Hc0]. simpl in Hc0.
  destruct (Insert_inv s held born k hs v chg del Hinv Hchg Hlen)
    as (s' & Hins & Hinv' & Hexit & Hc & Ht).
  pose proof Hinv' as [I1 I2 I3 I4 I5 I6 I7 I8 I9 I10 I11 I12 I13 I14 I15].
  simpl in *.
  destruct (I5 (LRUCache.brk s)) as [e He].
  { apply gmultiset_elem_of_disj_union. right.
    by apply gmultiset_elem_of_singleton. }
  pose proof (I14 _ _ He) as Hb. rewrite lookup_insert_eq in Hb.
  assert (Hfields : LRUHandle.value e = v ∧ LRUHandle.key e = k ∧
                    LRUHandle.charge e = chg).
  { destruct e. unfold LRUHandle.set_refs in Hb. simpl in *. by simplify_eq. }
  destruct Hfields as (Hv & Hk & Hch).
  assert (Hlive : (chg ≤ live_charge (LRUCache.heap s')
                       ≤ live_charge (LRUCache.heap s) + chg)%Z).
  { split.
    - rewrite (live_charge_delete _ _ _ He), Hch.
      assert (0 ≤ live_charge (delete (LRUCache.brk s) (LRUCache.heap s')))%Z;
        [|lia].
      apply live_charge_nonneg. intros h e' He'.
      apply lookup_delete_Some in He' as [_ He']. eauto.
    - rewrite <- I11. pose proof (inv_tracker _ _ Hinv) as Ht0. simpl in Ht0. lia. }
  assert (Hus : LRUCache.usage_ s' = live_charge (LRUCache.heap s')).
  { rewrite I10. unfold wrap64. apply Z.mod_small. lia. }
  assert (Hlru : LRUCache.lru_ s' = []).
  { destruct Hexit as [Hle|Hnil]; [lia|done]. }
  exists s'. split; [done|]. split_and!; try lia; try done.
  - unfold LRUCache.Lookup.
    destruct (Lookup_table_spec _ _ k hs I1) as (r & Hr & HS & _).
    rewrite Hr. simpl. destruct r as [h|]; [|done].
    destruct (HS h eq_refl) as [Hh _]. apply I3 in Hh. rewrite Hlru in Hh.
    by apply elem_of_nil in Hh.
  - exists e. split; [done|]. split; [|done].
    destruct (I7 _ _ He) as [_ Hr]. rewrite Hr, multiplicity_empty.
    unfold in_cache. rewrite Hlru.
    rewrite decide_False by apply not_elem_of_nil.
    rewrite multiplicity_disj_union, multiplicity_singleton_eq.
    assert (Hm : multiplicity (LRUCache.brk s) held = 0); [|lia].
    apply not_elem_of_multiplicity. intros Hh.
    apply (inv_held_live _ _ Hinv) in Hh. simpl in Hh.
    apply (inv_brk _ _ Hinv) in Hh. simpl in Hh. lia.
Qed.

(** The first step of scenario 6: charge 10 into an empty shard of capacity
    5. Usage is 10 and the lookup of ["A"] returns no handle. *)
Lemma Insert_oversized_witness :
  ∃ s', LRUCache.Insert (LRUCache.init 5) "A" 7 100 10 1 = Some (s', 0) ∧
    LRUCache.usage_ s' = 10%Z ∧ LRUCache.lru_ s' = [] ∧
    LRUCache.Lookup s' "A" 7 = Some (s', None).
Proof.
  destruct (Insert_oversized 5 (Client.init 5) "A" 7 100 10 1)
    as (s' & Hi & _ & _ & Hb & Hl & Hlk & _).
  - apply Client.reach_init.
  - simpl. lia.
  - lia.
  - vm_compute. reflexivity.
  - exists s'. split; [exact Hi|]. split; [|by split].
    unfold live_charge in Hb. simpl in Hb. rewrite map_fold_empty in Hb. lia.
Defined.

(** C1, as stated, fails on its own example: after the insert of ["A"] with
    charge 10 into a shard of capacity 5, usage is 10 but ["A"] is not
    retrievable by lookup. *)
Lemma Insert_oversized_not_retrievable :
  ¬ (∃ s h s',
       LRUCache.Insert (LRUCache.init 5) "A" 7 100 10 1 = Some (s, h) ∧
       LRUCache.usage_ s = 10%Z ∧
       LRUCache.Lookup s "A" 7 = Some (s', Some h)).
Proof.
  intros (s & h & s' & Hi & _ & Hl).
  vm_compute in Hi. injection Hi as <- <-.
  vm_compute in Hl. discriminate Hl.
Qed.

(** C4, as amended.  Between operations, a shard's usage is the sum (modulo
    2^64, the width of [size_t]) of the charges of the entries that are not
    yet freed.  These are the entries the cache holds, on the LRU list and in
    the hash table alike, together with the entries it has replaced, evicted
    or erased while a caller keeps a handle: [Unref] subtracts a charge only
    when the last reference goes.  When every outstanding handle is to an
    entry still in the cache, usage is the sum of the charges of the cached
    entries.  This holds after any sequence of insert, lookup, release and
    erase, each of which returns. *)
Theorem usage_is_live_charge (capacity : Z) (c : Client.config) :
  Client.reachable capacity c →
  LRUCache.usage_ (Client.shard c)
    = wrap64 (live_charge (LRUCache.heap (Client.shard c))) ∧
  (∀ h, is_Some (LRUCache.heap (Client.shard c) !! h) ↔
        h ∈ LRUCache.lru_ (Client.shard c) ∨ h ∈ Client.held c) ∧
  (∀ h, h ∈ LRUCache.lru_ (Client.shard c) ↔
        h ∈ tbl_elems (LRUCache.table_ (Client.shard c))) ∧
  ((∀ h, h ∈ Client.held c → h ∈ LRUCache.lru_ (Client.shard c)) →
   LRUCache.usage_ (Client.shard c) = wrap64 (cache_charge (Client.shard c))) ∧
  (∀ o, Client.valid o c → ∃ c', Client.run o c = Some c').
Proof.
  intros Hreach. destruct (reachable_inv _ _ Hreach) as [Hinv _].
  pose proof Hinv as [I1 I2 I3 I4 I5 I6 I7 I8 I9 I10 I11 I12 I13 I14 I15].
  assert (Hdom : ∀ h, is_Some (LRUCache.heap (Client.shard c) !! h) ↔
            h ∈ LRUCache.lru_ (Client.shard c) ∨ h ∈ Client.held c).
  { intros h. split; [|intros [?|?]; auto].
    intros [e He]. destruct (I7 h e He) as [Hr1 Hr2].
    rewrite multiplicity_empty in Hr2.
    destruct (in_cache_cases (Client.shard c) h) as [[? _]|[_ Hc]]; [by left|].
    right. apply elem_of_multiplicity. lia. }
  split_and!; try done.
  - intros Hheld. rewrite I10. f_equal. unfold cache_charge.
    apply live_charge_list; [done|]. intros h. rewrite Hdom.
    split; [by left|]. intros [?|?]; auto.
  - intros o Hv. destruct (run_inv o c Hinv Hv) as (c' & Hr & _). eauto.
Qed.

Lemma usage_is_live_charge_witness :
  Client.reachable 5 replaced_and_released ∧
  LRUCache.usage_ (Client.shard replaced_and_released) = 1%Z ∧
  cache_charge (Client.shard replaced_and_released) = 1%Z ∧
  LRUCache.lru_ (Client.shard replaced_and_released) = [1].
Proof.
  assert (Hreach : Client.reachable 5 replaced_and_released).
  { apply (exec_reachable 5
             [Client.Insert "A" 7 100 1 1; Client.Lookup "A" 7;
              Client.Insert "A" 7 200 1 1; Client.Release 0; Client.Release 0]
             (Client.init 5)); [apply Client.reach_init|].
    vm_compute. reflexivity. }
  split; [exact Hreach|].
  destruct (usage_is_live_charge 5 replaced_and_released Hreach)
    as (_ & _ & _ & Hcached & _).
  assert (Hc : cache_charge (Client.shard replaced_and_released) = 1%Z)
    by (vm_compute; reflexivity).
  split; [|split; [exact Hc|vm_compute; reflexivity]].
  rewrite Hcached, Hc; [reflexivity|].
  assert (Hheld : Client.held replaced_and_released = {[+ 1 +]})
    by (vm_compute; reflexivity).
  intros h Hh. rewrite Hheld in Hh.
  apply gmultiset_elem_of_singleton in Hh. subst h.
  vm_compute. apply list_elem_of_here.
Defined.

(** C4, as stated, fails: an entry erased while its caller keeps the handle
    is no longer reachable from the hash table or the LRU list, and its
    charge still counts in usage. *)
Lemma usage_counts_erased_entry :
  ¬ (∀ capacity c, Client.reachable capacity c →
       LRUCache.usage_ (Client.shard c) = wrap64 (cache_charge (Client.shard c))).
Proof.
  intros H. specialize (H 5%Z erased_while_held erased_while_held_reachable).
  vm_compute in H. discriminate H.
Qed.

(** C8.  In every state a caller can bring the shard to, by any interleaving
    of insert, lookup, release and erase (evictions included): an entry that
    the cache or a caller holds is allocated and its [refs] is at least 1,
    indeed [refs] is the number of its holders; no deleter call has been made
    for an allocated entry, and [Unref] on it either only decrements [refs]
    or, when [refs] is 1, calls the deleter with the entry's key and value,
    releases the charge to the tracker and frees the entry; for a freed
    entry the deleter has been called exactly once, with the key and the
    value the entry was inserted with; the tracker's consumption is the sum
    of the charges of the entries not yet freed; and every operation the
    caller may issue next returns. *)
Theorem refs_and_deleter (capacity : Z) (c : Client.config) :
  Client.reachable capacity c →
  (∀ h, h ∈ LRUCache.lru_ (Client.shard c) ∨ h ∈ Client.held c →
        ∃ e, LRUCache.heap (Client.shard c) !! h = Some e ∧
             (1 ≤ LRUHandle.refs e)%Z) ∧
  (∀ h e, LRUCache.heap (Client.shard c) !! h = Some e →
     (1 ≤ LRUHandle.refs e)%Z ∧
     LRUHandle.refs e = (in_cache (Client.shard c) h
                         + Z.of_nat (multiplicity h (Client.held c)))%Z ∧
     filter (λ d, LRUCache.call_entry d = h)
            (LRUCache.deleter_calls (Client.shard c)) = [] ∧
     LRUCache.Unref (Client.shard c) h =
       Some (if decide (LRUHandle.refs e = 1%Z) then
               LRUCache.Make (LRUCache.capacity_ (Client.shard c))
                 (wrap64 (LRUCache.usage_ (Client.shard c) - LRUHandle.charge e))
                 (LRUCache.lru_ (Client.shard c))
                 (LRUCache.table_ (Client.shard c))
                 (delete h (LRUCache.heap (Client.shard c)))
                 (LRUCache.brk (Client.shard c))
                 (LRUCache.mem_tracker_ (Client.shard c) - LRUHandle.charge e)
                 (LRUCache.deleter_calls (Client.shard c) ++
                    [LRUCache.Call h (LRUHandle.deleter e) (LRUHandle.key e)
                       (LRUHandle.value e)])
             else
               LRUCache.set_heap
                 (<[h := LRUHandle.set_refs (LRUHandle.refs e - 1) e]>
                    (LRUCache.heap (Client.shard c))) (Client.shard c))) ∧
  (∀ h, h < LRUCache.brk (Client.shard c) →
        LRUCache.heap (Client.shard c) !! h = None →
     ∃ e, Client.born c !! h = Some e ∧
       filter (λ d, LRUCache.call_entry d = h)
              (LRUCache.deleter_calls (Client.shard c))
       = [LRUCache.Call h (LRUHandle.deleter e) (LRUHandle.key e)
            (LRUHandle.value e)]) ∧
  LRUCache.mem_tracker_ (Client.shard c)
    = live_charge (LRUCache.heap (Client.shard c)) ∧
  (∀ o, Client.valid o c → ∃ c', Client.run o c = Some c').
Proof.
  intros Hreach. destruct (reachable_inv _ _ Hreach) as [Hinv _].
  pose proof Hinv as [I1 I2 I3 I4 I5 I6 I7 I8 I9 I10 I11 I12 I13 I14 I15].
  split_and!; [| | |done|
    intros o Hv; destruct (run_inv o c Hinv Hv) as (c' & Hr & _); eauto].
  - intros h [Hh|Hh]; [apply I4 in Hh|apply I5 in Hh];
      destruct Hh as [e He]; exists e; (split; [done|]);
      by destruct (I7 h e He) as [[? _] _].
  - intros h e He. destruct (I7 h e He) as [Hr1 Hr2].
    rewrite multiplicity_empty in Hr2. split_and!; [lia|lia| |].
    + apply filter_calls_none. rewrite I13. intros [_ Hn]. by rewrite He in Hn.
    + by apply Unref_spec.
  - intros h Hlt Hnone.
    assert (Hin : h ∈ LRUCache.call_entry <$>
                    LRUCache.deleter_calls (Client.shard c)) by (by apply I13).
    apply list_elem_of_fmap in Hin as (d & -> & Hd).
    destruct (I15 d Hd) as (e & Hb & Hf & Hk & Hv).
    exists e. split; [done|]. rewrite (filter_calls_one _ d I12 Hd).
    destruct d. simpl in *. by subst.
Qed.

Lemma refs_and_deleter_witness :
  Client.reachable 5 replaced_and_released ∧
  filter (λ d, LRUCache.call_entry d = 0)
         (LRUCache.deleter_calls (Client.shard replaced_and_released))
    = [LRUCache.Call 0 1 "A" 100] ∧
  LRUCache.mem_tracker_ (Client.shard replaced_and_released) = 1%Z.
Proof.
  assert (Hreach : Client.reachable 5 replaced_and_released).
  { apply (exec_reachable 5
             [Client.Insert "A" 7 100 1 1; Client.Lookup "A" 7;
              Client.Insert "A" 7 200 1 1; Client.Release 0; Client.Release 0]
             (Client.init 5)); [apply Client.reach_init|].
    vm_compute. reflexivity. }
  split; [exact Hreach|].
  destruct (refs_and_deleter 5 replaced_and_released Hreach)
    as (_ & _ & Hfreed & Ht & _).
  split; [|vm_compute; reflexivity].
  destruct (Hfreed 0) as (e & Hb & Hf).
  - vm_compute. lia.
  - vm_compute. reflexivity.
  - vm_compute in Hb. injection Hb as <-. exact Hf.
Defined.

(** ** Scenario 5 of the specification on the model *)

Example scenario_5 :
  (c ← Client.exec abcd_released (Client.init 3);
   r ← LRUCache.Lookup (Client.shard c) "A" 7;
   Some (r.2, LRUCache.lru_ (Client.shard c))) = Some (None, [1; 2; 3]) ∧
  (c ← Client.exec (abcd_released ++ bcd_hit_then_e) (Client.init 3);
   Some (LRUCache.lru_ (Client.shard c),
         LRUCache.call_key <$> LRUCache.deleter_calls (Client.shard c)))
  = Some ([2; 3; 4], ["A"; "B"]).
Proof. split; vm_compute; reflexivity. Qed.

(** * The MemRowSet: the properties of the specification *)

Lemma IsGhost_loop_decodable (g b : bool) (chain : list Mutation) :
  IsGhost_loop g chain = Some b → decodable chain.
Proof.
  revert g. induction chain as [|m chain IH]; intros g Hg; [constructor|].
  simpl in Hg. destruct (changelist_ m) eqn:Hm; simpl in Hg; try done;
    (constructor; [by rewrite Hm|by eapply IH]).
Qed.

(** [IsGhost] computes the ghost status of the specification. *)
Lemma IsGhost_loop_spec (g : bool) (chain : list Mutation) :
  decodable chain →
  ∃ b, IsGhost_loop g chain = Some b ∧
    (b = true ↔
     ends_in_delete chain ∨
     (g = true ∧ Forall (λ m, is_reinsert (changelist_ m) = false) chain)).
Proof.
  revert g. induction chain as [|m chain IH]; intros g Hd.
  - exists g. split; [done|]. split.
    + intros ->. right. split; [done|constructor].
    + intros [(pre & m & post & Heq & _)|[-> _]]; [|done].
      by destruct pre.
  - apply Forall_cons in Hd as [Hm Hd]. simpl.
    assert (Htail : ∀ pre x post, m :: chain = pre ++ x :: post →
              (pre = [] ∧ x = m ∧ post = chain) ∨
              (∃ pre', pre = m :: pre' ∧ chain = pre' ++ x :: post)).
    { intros [|y pre] x post Heq; simplify_eq/=; [by left|right; eauto]. }
    destruct (changelist_ m) eqn:Hc; simpl in *; try done.
    + destruct (IH g Hd) as (b & Hb & Hiff). exists b. split; [done|].
      rewrite Hiff. split.
      * intros [(pre & x & post & -> & Hx & Hp)|[-> Hp]].
        -- left. exists (m :: pre), x, post. done.
        -- right. split; [done|]. constructor; [by rewrite Hc|done].
      * intros [(pre & x & post & Heq & Hx & Hp)|[-> Hp]].
        -- destruct (Htail _ _ _ Heq) as [(-> & -> & ->)|(pre' & -> & ->)];
             [congruence|]. left. by exists pre', x, post.
        -- right. split; [done|]. by apply Forall_cons in Hp as [_ Hp].
    + destruct (IH true Hd) as (b & Hb & Hiff). exists b. split; [done|].
      rewrite Hiff. split.
      * intros [(pre & x & post & -> & Hx & Hp)|[_ Hp]].
        -- left. exists (m :: pre), x, post. done.
        -- left. exists [], m, chain. done.
      * intros [(pre & x & post & Heq & Hx & Hp)|[-> Hp]].
        -- destruct (Htail _ _ _ Heq) as [(-> & -> & ->)|(pre' & -> & ->)].
           ++ right. done.
           ++ left. by exists pre', x, post.
        -- right. split; [done|]. by apply Forall_cons in Hp as [_ Hp].
    + destruct (IH false Hd) as (b & Hb & Hiff). exists b. split; [done|].
      rewrite Hiff. split.
      * intros [(pre & x & post & -> & Hx & Hp)|[? _]]; [|done].
        left. exists (m :: pre), x, post. done.
      * intros [(pre & x & post & Heq & Hx & Hp)|[_ Hp]].
        -- destruct (Htail _ _ _ Heq) as [(-> & -> & ->)|(pre' & -> & ->)];
             [congruence|]. left. by exists pre', x, post.
        -- apply Forall_cons in Hp as [Hp _]. by rewrite Hc in Hp.
Qed.

Lemma IsGhost_spec (row : MRSRow) (b : bool) :
  IsGhost row = Some b ↔
  decodable (redo_head row) ∧ (b = true ↔ ends_in_delete (redo_head row)).
Proof.
  unfold IsGhost. split.
  - intros Hg. pose proof (IsGhost_loop_decodable _ _ _ Hg) as Hd.
    split; [done|]. destruct (IsGhost_loop_spec false _ Hd) as (b' & Hb' & Hiff).
    rewrite Hg in Hb'. simplify_eq. rewrite Hiff. split; [|by left].
    intros [?|[? _]]; done.
  - intros [Hd Hiff]. destruct (IsGhost_loop_spec false _ Hd) as (b' & Hb' & Hiff').
    rewrite Hb'. f_equal. destruct b, b'; try done.
    + assert (false = true); [|done]. apply Hiff'. left. by apply Hiff.
    + assert (false = true); [|done]. apply Hiff.
      destruct (proj1 Hiff' eq_refl) as [?|[? _]]; done.
Qed.

Lemma tree_lookup_alter (f : MRSRow → MRSRow) (k : string) (t : MSBTree) :
  tree_lookup k (tree_alter f k t) = f <$> tree_lookup k t.
Proof.
  induction t as [|[k' v] t IH]; [done|]. simpl.
  destruct (decide (k' = k)) as [-> |Hne]; simpl.
  - by rewrite decide_True.
  - by rewrite decide_False.
Qed.

(** One call of [SlowMutators]: every field of the store it leaves. *)
Lemma SlowMutators_exact (mrs : MemRowSet) :
  SlowMutators mrs
  = MkMemRowSet (id_ mrs) (tree_ mrs) (arena_ mrs) (anchorer_ mrs)
      (debug_insert_count_ mrs) (debug_update_count_ mrs)
      (throttle_logged (FLAGS_memrowset_throttle_mb mrs)
         (over_mem (FLAGS_memrowset_throttle_mb mrs) (arena_ mrs))
         (has_logged_throttling_ mrs))
      (FLAGS_memrowset_throttle_mb mrs)
      (trace mrs ++ EvSlowMutators
         :: throttle_events (FLAGS_memrowset_throttle_mb mrs)
              (over_mem (FLAGS_memrowset_throttle_mb mrs) (arena_ mrs))
              (has_logged_throttling_ mrs)).
Proof.
  unfold SlowMutators, throttle_logged, throttle_events, over_mem,
    memory_footprint, log_event.
  cbn [id_ tree_ arena_ anchorer_ debug_insert_count_ debug_update_count_
       has_logged_throttling_ FLAGS_memrowset_throttle_mb trace].
  set (over := to_ssize _).
  destruct (Z.eqb_spec (FLAGS_memrowset_throttle_mb mrs) 0) as [Hf|Hf];
    cbn [orb]; [done|].
  destruct (Z.ltb_spec 0 over) as [Ho|Ho];
    destruct (Z.leb_spec over 0) as [Ho'|Ho']; try lia; [|done].
  rewrite (Z.quot_div_nonneg _ 1024) by lia.
  rewrite (Z.quot_div_nonneg _ 512) by first [lia | apply Z.div_pos; lia].
  rewrite Z.div_div by lia. change (1024 * 512)%Z with 524288%Z.
  destruct (has_logged_throttling_ mrs =? 0)%Z;
    cbn [id_ tree_ arena_ anchorer_ debug_insert_count_ debug_update_count_
         has_logged_throttling_ FLAGS_memrowset_throttle_mb trace];
    by rewrite <- !(assoc_L (++)).
Qed.

Lemma SlowMutators_frame (mrs : MemRowSet) :
  tree_ (SlowMutators mrs) = tree_ mrs ∧
  arena_ (SlowMutators mrs) = arena_ mrs ∧
  anchorer_ (SlowMutators mrs) = anchorer_ mrs ∧
  id_ (SlowMutators mrs) = id_ mrs ∧
  ∃ evs, trace (SlowMutators mrs) = trace mrs ++ EvSlowMutators :: evs.
Proof. rewrite SlowMutators_exact. split_and!; try done. by eexists. Qed.

(** [Insert] on a row that passes its [CHECK]. *)
Lemma Insert_checked `{Collaborators} (timestamp : Z) (row : string)
    (op_id : OpId) (mrs : MemRowSet) :
  has_column_ids row = true →
  Insert timestamp row op_id mrs
  = match tree_lookup (EncodeComparableKey row) (tree_ mrs) with
    | Some ms_row =>
        is_ghost ← IsGhost ms_row;
        if negb is_ghost
        then Some (AlreadyPresent "entry already present in memrowset", mrs)
        else Reinsert timestamp row (EncodeComparableKey row) mrs
    | None =>
        let '(st, arena1, mrsrow) := CopyRow (arena_ mrs) row in
        if negb (Status_ok st) then Some (st, set_tree (tree_ mrs) arena1 mrs)
        else
          tree1 ← tree_insert (EncodeComparableKey row)
                     (MkMRSRow timestamp [] mrsrow) (tree_ mrs);
          Some (OK,
                SlowMutators
                  (incr_insert_count
                     (AnchorIfMinimum op_id (set_tree tree1 arena1 mrs))))
    end.
Proof. intros Hc. unfold Insert. by rewrite Hc. Qed.

(** [Insert] on a row that fails its [CHECK]. *)
Lemma Insert_unchecked `{Collaborators} (timestamp : Z) (row : string)
    (op_id : OpId) (mrs : MemRowSet) :
  has_column_ids row = false → Insert timestamp row op_id mrs = None.
Proof. intros Hc. unfold Insert. by rewrite Hc. Qed.

Lemma Insert_AlreadyPresent_checked `{Collaborators} (timestamp : Z)
    (row : string) (op_id : OpId) (mrs : MemRowSet) :
  has_column_ids row = true →
  ((∃ msg mrs', Insert timestamp row op_id mrs
                = Some (AlreadyPresent msg, mrs')) ↔
   (∃ v, tree_lookup (EncodeComparableKey row) (tree_ mrs) = Some v ∧
         decodable (redo_head v) ∧ ¬ ends_in_delete (redo_head v))) ∧
  (∀ msg mrs', Insert timestamp row op_id mrs
               = Some (AlreadyPresent msg, mrs') → mrs' = mrs).
Proof.
  intros Hcheck. rewrite (Insert_checked _ _ _ _ Hcheck). unfold Reinsert.

  destruct (tree_lookup _ _) as [v|] eqn:Hl.
  - destruct (IsGhost v) as [[|]|] eqn:Hg; simpl.
    + apply IsGhost_spec in Hg as [Hd Hiff].
      assert (Hno : ∀ msg mrs',
        (let '(st, arena1, row_copy) := CopyRow (arena_ mrs) row in
         if negb (Status_ok st)
         then Some (st, set_tree (tree_ mrs) arena1 mrs)
         else
           Some (OK,
                 set_tree
                   (tree_alter
                      (AppendToList (MkMutation timestamp (kReinsert row_copy)))
                      (EncodeComparableKey row) (tree_ mrs))
                   (CreateInArena arena1
                      (MkMutation timestamp (kReinsert row_copy))) mrs))
        ≠ Some (AlreadyPresent msg, mrs')).
      { intros msg mrs'. pose proof (CopyRow_status (arena_ mrs) row msg) as Hc.
        destruct (CopyRow _ _) as [[st a] r]. simpl in Hc.
        destruct (Status_ok st); simpl; congruence. }
      split.
      * split.
        -- intros (msg & mrs' & Hr). by destruct (Hno msg mrs').
        -- intros (v' & [= <-] & _ & Hn). destruct Hn. by apply Hiff.
      * intros msg mrs' Hr. by destruct (Hno msg mrs').
    + apply IsGhost_spec in Hg as [Hd Hiff]. split.
      * split; [|eauto]. intros _. exists v. split_and!; try done.
        intros He. apply Hiff in He. done.
      * by intros msg mrs' [= _ <-].
    + split; [|done]. split; [by intros (? & ? & ?)|].
      intros (v' & [= <-] & Hd & Hn).
      destruct (IsGhost_loop_spec false _ Hd) as (b & Hb & _).
      unfold IsGhost in Hg. by rewrite Hg in Hb.
  - assert (Hno : ∀ msg mrs',
      (let '(st, arena1, mrsrow) := CopyRow (arena_ mrs) row in
       if negb (Status_ok st)
       then Some (st, set_tree (tree_ mrs) arena1 mrs)
       else
         tree1 ← tree_insert (EncodeComparableKey row)
                    (MkMRSRow timestamp [] mrsrow) (tree_ mrs);
         Some (OK,
               SlowMutators
                 (incr_insert_count
                    (AnchorIfMinimum op_id (set_tree tree1 arena1 mrs)))))
      ≠ Some (AlreadyPresent msg, mrs')).
    { intros msg mrs'. pose proof (CopyRow_status (arena_ mrs) row msg) as Hc.
      destruct (CopyRow _ _) as [[st a] r]. simpl in Hc.
      destruct (Status_ok st); simpl; [|congruence].
      by destruct (tree_insert _ _ _). }
    split.
    + split; [|by intros (? & ? & _)].
      intros (msg & mrs' & Hr). by destruct (Hno msg mrs').
    + intros msg mrs' Hr. by destruct (Hno msg mrs').
Qed.

(** C5.  [Insert] returns [AlreadyPresent] if and only if the row passes
    the [CHECK] on its schema, the key is in the index and its mutation
    chain, which decodes, does not end in a DELETE without a following
    REINSERT; and then it leaves the MemRowSet as it was: no row body is
    inserted and no mutation is appended.  On a row whose schema has no
    column ids the [CHECK] ends the process and nothing is returned. *)
Theorem Insert_AlreadyPresent_iff `{Collaborators} (timestamp : Z)
    (row : string) (op_id : OpId) (mrs : MemRowSet) :
  ((∃ msg mrs', Insert timestamp row op_id mrs
                = Some (AlreadyPresent msg, mrs')) ↔
   (has_column_ids row = true ∧
    ∃ v, tree_lookup (EncodeComparableKey row) (tree_ mrs) = Some v ∧
         decodable (redo_head v) ∧ ¬ ends_in_delete (redo_head v))) ∧
  (∀ msg mrs', Insert timestamp row op_id mrs
               = Some (AlreadyPresent msg, mrs') → mrs' = mrs) ∧
  (has_column_ids row = false → Insert timestamp row op_id mrs = None).
Proof.
  destruct (has_column_ids row) eqn:Hc.
  - destruct (Insert_AlreadyPresent_checked timestamp row op_id mrs Hc)
      as [Hiff Hsame].
    split_and!; [|done|done]. rewrite Hiff. split; [done|by intros [_ ?]].
  - rewrite (Insert_unchecked timestamp row op_id mrs Hc).
    split_and!; [|done|done].
    split; [by intros (? & ? & ?)|by intros [? _]].
Qed.

(** The [CHECK] of [Insert] where it fails: a row of a schema without
    column ids, on a store that holds its key live, and on an empty one. *)
Lemma Insert_without_column_ids :
  (mrs ← run_Insert 10 "k3" (MkOpId 1 9) (Some (new_MemRowSet 7 0));
   Some (Insert (H := without_column_ids) 11 "k3" (MkOpId 1 10) mrs,
         Insert (H := without_column_ids) 11 "k3" (MkOpId 1 10)
           (new_MemRowSet 7 0)))
  = Some (None, None).
Proof. vm_compute. reflexivity. Qed.

(** The throttle check where the [int] product overflows: with the flag at
    2048 and an arena of a few bytes, the insert of a row logs the warning
    and sleeps 4096 microseconds, and the update of the row sleeps 4096
    microseconds again. *)
Lemma MutateRow_throttle_overflow :
  (mrs ← run_Insert 10 "k3" (MkOpId 1 9) (Some (new_MemRowSet 7 2048));
   r ← MutateRow (H := simple) 20 "k3" (kUpdate []) (MkOpId 1 10)
         (MkProbeStats 0) (MkResult []) mrs;
   Some (arena_ r.1.1.2, has_logged_throttling_ r.1.1.2, trace r.1.1.2))
  = Some (34%Z, 1%Z,
          [EvAnchorIfMinimum (MkOpId 1 9); EvSlowMutators;
           EvLogWarning "Throttling memrowset insert rate"; EvSleep 4096;
           EvAnchorIfMinimum (MkOpId 1 10); EvSlowMutators; EvSleep 4096]).
Proof. vm_compute. reflexivity. Qed.

(** C6.  [MutateRow] returns [NotFound] exactly when the key is absent from
    the index or its chain, which decodes, ends in a ghost state, and then
    the MemRowSet (row set and anchor with it), the stats and the operation
    result are as they were.  On a key whose chain ends live it returns OK:
    the node carrying the change list is the new last node of the row's
    chain, the MRS id is added to the operation result, [mrs_consulted] is
    one more, [op_id] goes to the anchorer, which keeps the lesser of it and
    the anchor it had, the update counter is one more, and the throttle
    check runs on the footprint that the arena has with the new node: with
    the flag at 0 or no excess it does nothing; otherwise it logs the
    warning if [has_logged_throttling_] was 0, sets it, and sleeps for the
    excess divided by 524288 microseconds. *)
Theorem MutateRow_spec `{Collaborators} (timestamp : Z) (probe : string)
    (delta : RowChangeList) (op_id : OpId) (stats : ProbeStats)
    (result : OperationResultPB) (mrs : MemRowSet) :
  ((∃ msg mrs' stats' result',
      MutateRow timestamp probe delta op_id stats result mrs
      = Some (NotFound msg, mrs', stats', result')) ↔
   (tree_lookup probe (tree_ mrs) = None ∨
    ∃ v, tree_lookup probe (tree_ mrs) = Some v ∧
         decodable (redo_head v) ∧ ends_in_delete (redo_head v))) ∧
  (∀ msg mrs' stats' result',
      MutateRow timestamp probe delta op_id stats result mrs
      = Some (NotFound msg, mrs', stats', result') →
      mrs' = mrs ∧ stats' = stats ∧ result' = result) ∧
  (∀ v, tree_lookup probe (tree_ mrs) = Some v →
        decodable (redo_head v) → ¬ ends_in_delete (redo_head v) →
     ∃ mrs',
       MutateRow timestamp probe delta op_id stats result mrs
       = Some (OK, mrs', MkProbeStats (mrs_consulted stats + 1),
               MkResult (mutated_stores result ++ [id_ mrs])) ∧
       tree_ mrs' = tree_alter (AppendToList (MkMutation timestamp delta))
                      probe (tree_ mrs) ∧
       tree_lookup probe (tree_ mrs')
       = Some (MkMRSRow (insertion_timestamp v)
                 (redo_head v ++ [MkMutation timestamp delta]) (row_slice v)) ∧
       anchorer_ mrs' = anchorer_ (AnchorIfMinimum op_id mrs) ∧
       anchorer_ mrs'
       = Some (match anchorer_ mrs with
               | None => op_id
               | Some cur => if OpIdLessThan op_id cur then op_id else cur
               end) ∧
       id_ mrs' = id_ mrs ∧
       FLAGS_memrowset_throttle_mb mrs' = FLAGS_memrowset_throttle_mb mrs ∧
       debug_insert_count_ mrs' = debug_insert_count_ mrs ∧
       debug_update_count_ mrs' = (debug_update_count_ mrs + 1)%Z ∧
       arena_ mrs' = CreateInArena (arena_ mrs) (MkMutation timestamp delta) ∧
       has_logged_throttling_ mrs'
       = throttle_logged (FLAGS_memrowset_throttle_mb mrs)
           (over_mem (FLAGS_memrowset_throttle_mb mrs) (arena_ mrs'))
           (has_logged_throttling_ mrs) ∧
       trace mrs'
       = trace mrs ++ EvAnchorIfMinimum op_id :: EvSlowMutators
           :: throttle_events (FLAGS_memrowset_throttle_mb mrs)
                (over_mem (FLAGS_memrowset_throttle_mb mrs) (arena_ mrs'))
                (has_logged_throttling_ mrs)).
Proof.
  unfold MutateRow.
  destruct (tree_lookup _ _) as [v|] eqn:Hl.
  - destruct (IsGhost v) as [[|]|] eqn:Hg; simpl.
    + apply IsGhost_spec in Hg as [Hd Hiff]. split_and!.
      * split; [|eauto 10]. intros _. right. exists v. split_and!; try done.
        by apply Hiff.
      * by intros msg mrs' stats' result' [= _ <- <- <-].
      * intros v' [= <-] _ Hn. destruct Hn. by apply Hiff.
    + apply IsGhost_spec in Hg as [Hd Hiff]. split_and!.
      * split; [by intros (? & ? & ? & ? & ?)|].
        intros [?|(v' & [= <-] & _ & He)]; [done|]. apply Hiff in He. done.
      * done.
      * intros v' [= <-] _ _. rewrite SlowMutators_exact.
        cbn [id_ tree_ arena_ anchorer_ debug_insert_count_
             debug_update_count_ has_logged_throttling_
             FLAGS_memrowset_throttle_mb trace incr_update_count
             AnchorIfMinimum set_tree].
        eexists. split; [reflexivity|].
        cbn [id_ tree_ arena_ anchorer_ debug_insert_count_
             debug_update_count_ has_logged_throttling_
             FLAGS_memrowset_throttle_mb trace].
        split_and!; try done.
        -- by rewrite tree_lookup_alter, Hl.
        -- by destruct (anchorer_ mrs) as [cur|]; [destruct (OpIdLessThan _ _)|].
        -- by rewrite <- (assoc_L (++)).
    + split_and!; [|done|].
      * split; [by intros (? & ? & ? & ? & ?)|].
        intros [?|(v' & [= <-] & Hd & _)]; [done|].
        destruct (IsGhost_loop_spec false _ Hd) as (b & Hb & _).
        unfold IsGhost in Hg. by rewrite Hg in Hb.
      * intros v' [= <-] Hd _.
        destruct (IsGhost_loop_spec false _ Hd) as (b & Hb & _).
        unfold IsGhost in Hg. by rewrite Hg in Hb.
  - split_and!.
    + split; [by left|eauto 10].
    + by intros msg mrs' stats' result' [= _ <- <- <-].
    + done.
Qed.

(** On a ghost key, whatever [Insert] returns, it has neither called the
    anchorer nor run the throttle check. *)
Lemma Insert_on_ghost `{Collaborators} (timestamp : Z) (row : string)
    (op_id : OpId) (mrs : MemRowSet) (v : MRSRow) (st : Status)
    (mrs' : MemRowSet) :
  tree_lookup (EncodeComparableKey row) (tree_ mrs) = Some v →
  IsGhost v = Some true →
  Insert timestamp row op_id mrs = Some (st, mrs') →
  trace mrs' = trace mrs ∧ anchorer_ mrs' = anchorer_ mrs.
Proof.
  intros Hl Hg. destruct (has_column_ids row) eqn:Hc;
    [|by rewrite (Insert_unchecked _ _ _ _ Hc)].
  rewrite (Insert_checked _ _ _ _ Hc). unfold Reinsert. rewrite Hl, Hg. simpl.
  destruct (CopyRow _ _) as [[st0 a] r].
  destruct (Status_ok st0); simpl; intros [= <- <-]; done.
Qed.

(** C2, evaluated where it fails.  The key "k3" was inserted under the
    operation (1, 9) and deleted; a second insert, under the operation
    (1, 5), returns OK and appends the REINSERT mutation, but the trace of
    the MemRowSet has gained no call of the anchorer and no throttle check,
    and the anchor is still (1, 9). *)
Lemma Insert_reinsert_skips_anchorer :
  ∃ mrs mrs',
    ghost_k3 = Some mrs ∧
    anchorer_ mrs = Some (MkOpId 1 9) ∧
    Insert (H := simple) 30 "k3" (MkOpId 1 5) mrs = Some (OK, mrs') ∧
    tree_lookup "k3" (tree_ mrs')
    = Some (MkMRSRow 10 [MkMutation 20 kDelete; MkMutation 30 (kReinsert "k3")]
              "k3") ∧
    trace mrs' = trace mrs ∧
    anchorer_ mrs' = Some (MkOpId 1 9).
Proof.
  eexists _, _. split; [vm_compute; reflexivity|].
  split; [reflexivity|]. split; [vm_compute; reflexivity|].
  split; [reflexivity|]. split; reflexivity.
Qed.

Lemma length_zero_iff_empty (s : string) : String.length s = 0 ↔ s = "".
Proof. destruct s; simpl; split; intros; done. Qed.

(** C9.  [SeekAtOrAfter] with an empty key does not encode (the buffer it
    seeks with is empty) and returns OK whatever the seek of the index
    returns, also on an empty index, where that seek finds no entry; with a
    key that is not empty it seeks with the encoded key and returns
    [NotFound] exactly when the seek of the index fails, OK exactly when it
    succeeds. *)
Theorem SeekAtOrAfter_status `{Collaborators} (t : MSBTree) (key : string)
    (it : Iterator) :
  (key = "" →
     (SeekAtOrAfter t key it).1.1 = OK ∧
     tmp_buf (SeekAtOrAfter t key it).2 = "" ∧
     iter_ (SeekAtOrAfter t key it).2 = (tree_SeekAtOrAfter t "").1.1 ∧
     (t = [] → (tree_SeekAtOrAfter t "").2 = false)) ∧
  (key ≠ "" →
     tmp_buf (SeekAtOrAfter t key it).2 = EncodeComparableKey key ∧
     iter_ (SeekAtOrAfter t key it).2
       = (tree_SeekAtOrAfter t (EncodeComparableKey key)).1.1 ∧
     ((SeekAtOrAfter t key it).1.1 = NotFound "no match in memrowset" ↔
      (tree_SeekAtOrAfter t (EncodeComparableKey key)).2 = false) ∧
     ((SeekAtOrAfter t key it).1.1 = OK ↔
      (tree_SeekAtOrAfter t (EncodeComparableKey key)).2 = true)).
Proof.
  unfold SeekAtOrAfter, tree_SeekAtOrAfter. split.
  - intros ->. simpl. rewrite orb_true_r. simpl. split_and!; try done.
    by intros ->.
  - intros Hne.
    assert (Hlen : String.length key ≠ 0) by (by rewrite length_zero_iff_empty).
    destruct (Nat.ltb_spec 0 (String.length key)) as [_|]; [|lia].
    destruct (Nat.eqb_spec (String.length key) 0) as [|_]; [done|].
    simpl. rewrite orb_false_r.
    destruct (IsValid t _); simpl; split_and!; done.
Qed.

(** C10.  In the scanning state, on a valid index iterator, [NextBlock] on a
    block whose row capacity is 0 returns OK and leaves the block (its size,
    its arena, its selection bits, its rows) and the iterator as they were. *)
Theorem NextBlock_zero_capacity `{Collaborators} (t : MSBTree) (it : Iterator)
    (dst : RowBlock) :
  state_ it = kScanning → IsValid t (iter_ it) = true → row_capacity dst = 0 →
  NextBlock t it dst = Some (OK, it, dst).
Proof.
  intros Hs Hv Hc. unfold NextBlock. rewrite Hv, Hs, Hc. simpl. done.
Qed.

Lemma NextBlock_zero_capacity_witness :
  NextBlock (H := simple) tree_aef (scanning_to_d 0)
    (MkRowBlock 2 0 [] [true; false] (Some 5%Z))
  = Some (OK, scanning_to_d 0, MkRowBlock 2 0 [] [true; false] (Some 5%Z)).
Proof.
  apply (NextBlock_zero_capacity (H := simple)); reflexivity.
Defined.

(** C7.  On the entry the iterator is at, one iteration of the loop of
    [FetchRows] does the following.  When the insertion timestamp is not
    committed in the snapshot, it only clears the selection bit of the row:
    nothing is projected, no mutation is replayed, and the iterator keeps
    its state whatever the key, so a key at or past the upper bound does not
    finish the scan.  When the timestamp is committed and the key is at or
    past the upper bound, the iterator becomes finished and the loop stops
    with the block untouched.  When it is committed and within the bound,
    the iteration keeps the state of the iterator. *)
Theorem FetchRows_mvcc_before_bound `{Collaborators} (t : MSBTree)
    (it : Iterator) (dst : RowBlock) (fetched : nat) (k : string)
    (row : MRSRow) :
  GetCurrentEntry t (iter_ it) = Some (k, row) →
  (mvcc_snap_ it (insertion_timestamp row) = false →
     FetchRows_body t it dst fetched
     = Some (FetchNext it (SetRowUnselected fetched dst)) ∧
     rows (SetRowUnselected fetched dst) = rows dst ∧
     arena (SetRowUnselected fetched dst) = arena dst ∧
     (fetched < length (selection_vector dst) →
      selection_vector (SetRowUnselected fetched dst) !! fetched = Some false)) ∧
  (mvcc_snap_ it (insertion_timestamp row) = true →
     (has_upper_bound it && out_of_bounds it k = true →
      FetchRows_body t it dst fetched
      = Some (FetchBreak (set_state kFinished it) dst)) ∧
     (has_upper_bound it && out_of_bounds it k = false →
      ∃ dst', (FetchRows_body t it dst fetched = Some (FetchNext it dst') ∨
               ∃ st, FetchRows_body t it dst fetched
                     = Some (FetchError st it dst')))).
Proof.
  intros He. unfold FetchRows_body. rewrite He. simpl. split.
  - intros ->. split_and!; try done.
    intros Hlt. simpl. by apply list_lookup_insert_eq.
  - intros ->. split.
    + intros ->. done.
    + intros ->.
      destruct (ProjectRowForRead _ _) as [[st data] a].
      destruct (Status_ok st); simpl; [|eauto].
      destruct (ApplyMutationsToProjectedRow _ _ _ _) as [st' dst'].
      destruct (Status_ok st'); simpl; eauto.
Qed.

(** An uncommitted row past the bound "d" is fetched unselected and the
    scan goes on; the committed row after it finishes the scan. *)
Lemma FetchRows_mvcc_before_bound_witness :
  FetchRows_body (H := simple) tree_aef (scanning_to_d 1)
    (MkRowBlock 3 3 ["a"; ""; ""] [true; true; true] None) 1
  = Some (FetchNext (scanning_to_d 1)
            (MkRowBlock 3 3 ["a"; ""; ""] [true; false; true] None)) ∧
  FetchRows (H := simple) tree_aef (scanning_to_d 0)
    (MkRowBlock 3 3 [""; ""; ""] [true; true; true] None)
  = Some (OK, set_state kFinished (scanning_to_d 2),
          MkRowBlock 3 3 ["a"; ""; ""] [true; false; true] None, 2).
Proof.
  split; [|vm_compute; reflexivity].
  destruct (FetchRows_mvcc_before_bound (H := simple) tree_aef
              (scanning_to_d 1)
              (MkRowBlock 3 3 ["a"; ""; ""] [true; true; true] None) 1
              "e" (MkMRSRow 99 [] "e") eq_refl) as [Hun _].
  destruct (Hun eq_refl) as [Hbody _]. exact Hbody.
Defined.

Lemma Slice_compare_refl (a : string) : Slice_compare a a = Eq.
Proof.
  unfold Slice_compare. pose proof (String.compare_antisym a a) as Ha.
  destruct (String.compare a a); simpl in Ha; done.
Qed.

Lemma Slice_not_Gt_le (a b : string) : Slice_compare a b ≠ Gt ↔ String.le a b.
Proof.
  unfold String.le, String.leb, Slice_compare.
  destruct (String.compare a b); simpl; split; done.
Qed.

Lemma Slice_not_Gt_trans (a b c : string) :
  Slice_compare a b ≠ Gt → Slice_compare b c ≠ Gt → Slice_compare a c ≠ Gt.
Proof. rewrite !Slice_not_Gt_le. intros. by etrans. Qed.

Lemma Slice_Gt_flip (a b : string) :
  Slice_compare a b = Gt → Slice_compare b a ≠ Gt.
Proof.
  unfold Slice_compare. rewrite (String.compare_antisym a b).
  destruct (String.compare b a); simpl; done.
Qed.

Lemma Slice_Lt_flip (a b : string) :
  Slice_compare a b = Lt → Slice_compare b a = Gt.
Proof.
  unfold Slice_compare. rewrite (String.compare_antisym a b).
  destruct (String.compare b a); simpl; done.
Qed.

Lemma is_max_snoc_new (m : option string) (lb : string) (l : list string) :
  match m with
  | None => l = []
  | Some m => is_max m l ∧ Slice_compare lb m = Gt
  end →
  is_max lb (l ++ [lb]).
Proof.
  intros Hm. split; [apply elem_of_app; right; by left|].
  intros x [Hx| ->%list_elem_of_singleton]%elem_of_app;
    [|by rewrite Slice_compare_refl].
  destruct m as [m|]; [|subst; by apply elem_of_nil in Hx].
  destruct Hm as [[_ Hmax] Hgt].
  eapply Slice_not_Gt_trans; [by apply Hmax|by apply Slice_Gt_flip].
Qed.

Lemma is_max_snoc_old (m lb : string) (l : list string) :
  is_max m l → Slice_compare lb m ≠ Gt → is_max m (l ++ [lb]).
Proof.
  intros [Hin Hmax] Hle. split; [apply elem_of_app; by left|].
  intros x [Hx| ->%list_elem_of_singleton]%elem_of_app; auto.
Qed.

Lemma is_min_snoc_new (u : option string) (ub : string) (l : list string) :
  match u with
  | None => l = []
  | Some u => is_min u l ∧ Slice_compare ub u = Lt
  end →
  is_min ub (l ++ [ub]).
Proof.
  intros Hu. split; [apply elem_of_app; right; by left|].
  intros x [Hx| ->%list_elem_of_singleton]%elem_of_app;
    [|by rewrite Slice_compare_refl].
  destruct u as [u|]; [|subst; by apply elem_of_nil in Hx].
  destruct Hu as [[_ Hmin] Hlt].
  eapply Slice_not_Gt_trans; [|by apply Hmin]. by rewrite Hlt.
Qed.

Lemma is_min_snoc_old (u ub : string) (l : list string) :
  is_min u l → Slice_compare ub u ≠ Lt → is_min u (l ++ [ub]).
Proof.
  intros [Hin Hmin] Hge. split; [apply elem_of_app; by left|].
  intros x [Hx| ->%list_elem_of_singleton]%elem_of_app; [auto|].
  intros Hgt. apply Hge. unfold Slice_compare in *.
  rewrite (String.compare_antisym ub u), Hgt. done.
Qed.

Lemma lowers_snoc (pre : list EncodedKeyRange) (r : EncodedKeyRange) :
  lowers (pre ++ [r]) =
  lowers pre ++ match lower_bound r with Some l => [l] | None => [] end.
Proof. unfold lowers. rewrite omap_app. simpl. by destruct (lower_bound r). Qed.

Lemma uppers_snoc (pre : list EncodedKeyRange) (r : EncodedKeyRange) :
  uppers (pre ++ [r]) =
  uppers pre ++ match upper_bound r with Some l => [l] | None => [] end.
Proof. unfold uppers. rewrite omap_app. simpl. by destruct (upper_bound r). Qed.

(** The loop of [Init] keeps [bounds_inv], or leaves early on a lower bound
    that is past the end of the index. *)
Lemma Init_ranges_spec (t : MSBTree) (it0 : Iterator)
    (rest pre : list EncodedKeyRange) (max : option string) (it : Iterator) :
  bounds_inv t pre max it0 it →
  match Init_ranges t rest max it with
  | inl it' =>
      state_ it' = kFinished ∧
      ∃ l, l ∈ lowers (pre ++ rest) ∧ IsValid t (seek_index l t) = false
  | inr (it', max') => bounds_inv t (pre ++ rest) max' it0 it'
  end.
Proof.
  revert pre max it. induction rest as [|r rest IH]; intros pre max it Hinv.
  { simpl. by rewrite app_nil_r. }
  cbn [Init_ranges].
  replace (pre ++ r :: rest) with ((pre ++ [r]) ++ rest)
    by (by rewrite <- (assoc_L (++))).
  destruct Hinv as (Hst & Hsnap & Hlow & Hup).
  (* the lower bound of the range *)
  assert (Hlower :
    match
      match lower_bound r with
      | Some lb =>
          if match max with
             | None => true
             | Some m => match Slice_compare lb m with Gt => true | _ => false end
             end
          then
            let '(p, _, found) := tree_SeekAtOrAfter t lb in
            if negb found then inl (set_state kFinished (set_iter p it))
            else inr (set_iter p it, Some lb)
          else inr (it, max)
      | None => inr (it, max)
      end
    with
    | inl it' =>
        state_ it' = kFinished ∧
        ∃ l, l ∈ lowers (pre ++ [r]) ∧ IsValid t (seek_index l t) = false
    | inr (it', max') =>
        state_ it' = state_ it0 ∧ mvcc_snap_ it' = mvcc_snap_ it0 ∧
        upper_bound_ it' = upper_bound_ it ∧
        match max' with
        | None => lowers (pre ++ [r]) = [] ∧ iter_ it' = iter_ it0
        | Some m => is_max m (lowers (pre ++ [r])) ∧
                    IsValid t (seek_index m t) = true
        end
    end).
  { rewrite lowers_snoc. destruct (lower_bound r) as [lb|].
    - destruct max as [m|].
      + destruct Hlow as [Hmax Hv].
        destruct (Slice_compare lb m) eqn:Hc.
        * split_and!; try done.
          apply is_max_snoc_old; [done|by rewrite Hc].
        * split_and!; try done.
          apply is_max_snoc_old; [done|by rewrite Hc].
        * unfold tree_SeekAtOrAfter. cbn zeta.
          destruct (IsValid t (seek_index lb t)) eqn:Hv'; simpl.
          -- split_and!; try done.
             by apply (is_max_snoc_new (Some m)).
          -- split; [done|]. exists lb. split; [|done].
             apply elem_of_app. right. by left.
      + destruct Hlow as [Hnil Hpos].
        unfold tree_SeekAtOrAfter. cbn zeta.
        destruct (IsValid t (seek_index lb t)) eqn:Hv'; simpl.
        * split_and!; try done.
          by apply (is_max_snoc_new None).
        * split; [done|]. exists lb. split; [|done].
          apply elem_of_app. right. by left.
    - rewrite app_nil_r. split_and!; done. }
  destruct (match lower_bound r with Some _ => _ | None => _ end)
    as [it1|[it1 max1]].
  { destruct Hlower as [Hf (l & Hl & Hv)]. split; [done|].
    exists l. split; [|done].
    unfold lowers in *. rewrite omap_app. apply elem_of_app. by left. }
  destruct Hlower as (Hst1 & Hsnap1 & Hub1 & Hlow1).
  apply IH. split_and!.
  - by destruct (upper_bound r) as [ub|]; [destruct (_ || _)|].
  - by destruct (upper_bound r) as [ub|]; [destruct (_ || _)|].
  - by destruct (upper_bound r) as [ub|]; [destruct (_ || _)|];
      destruct max1.
  - rewrite uppers_snoc. unfold has_upper_bound.
    destruct (upper_bound r) as [ub|];
      [|rewrite app_nil_r, Hub1; exact Hup].
    rewrite Hub1. destruct (upper_bound_ it) as [u|] eqn:Hu; simpl.
    + destruct (Slice_compare ub u) eqn:Hc; simpl; rewrite ?Hub1.
      * apply is_min_snoc_old; [done|by rewrite Hc].
      * by apply (is_min_snoc_new (Some u)).
      * apply is_min_snoc_old; [done|by rewrite Hc].
    + by apply (is_min_snoc_new None).
Qed.

Lemma out_of_bounds_has (it : Iterator) (k : string) :
  has_upper_bound it && out_of_bounds it k = out_of_bounds it k.
Proof. unfold has_upper_bound, out_of_bounds. by destruct (upper_bound_ it). Qed.

Lemma ApplyMutations_selection `{Collaborators} (snap : MvccSnapshot)
    (muts : list Mutation) (i : nat) (dst : RowBlock) (j : nat) :
  j ≠ i →
  selection_vector (ApplyMutationsToProjectedRow snap muts i dst).2 !! j
  = selection_vector dst !! j.
Proof.
  intros Hne. unfold ApplyMutationsToProjectedRow. destruct dst as [n c rs sel a].
  destruct (apply_mutations _ _ _ _ _) as [[[st d] data] a'].
  destruct (Status_ok st); simpl; [|done].
  destruct d; simpl; [|done]. by rewrite list_lookup_insert_ne.
Qed.

(** One iteration of the loop of [FetchRows], case by case. *)
Lemma FetchRows_body_spec `{Collaborators} (t : MSBTree) (it : Iterator)
    (dst : RowBlock) (f : nat) (r : fetch_step) :
  FetchRows_body t it dst f = Some r →
  ∃ k row, t !! iter_ it = Some (k, row) ∧
    match r with
    | FetchBreak it1 dst1 =>
        it1 = set_state kFinished it ∧ dst1 = dst ∧
        mvcc_snap_ it (insertion_timestamp row) = true ∧
        out_of_bounds it k = true
    | FetchError st it1 dst1 => it1 = it
    | FetchNext it1 dst1 =>
        it1 = it ∧
        (mvcc_snap_ it (insertion_timestamp row) = true →
         out_of_bounds it k = false) ∧
        (∀ j, j ≠ f → selection_vector dst1 !! j = selection_vector dst !! j) ∧
        (mvcc_snap_ it (insertion_timestamp row) = false →
         selection_vector dst1 !! f ≠ Some true)
    end.
Proof.
  unfold FetchRows_body, GetCurrentEntry.
  destruct (t !! iter_ it) as [[k row]|]; [|done]. simpl.
  intros Hr. exists k, row. split; [done|].
  rewrite out_of_bounds_has in Hr.
  destruct (mvcc_snap_ it (insertion_timestamp row)) eqn:Hc.
  - destruct (out_of_bounds it k) eqn:Ho; [by simplify_eq|].
    destruct (ProjectRowForRead _ _) as [[st data] a].
    destruct (Status_ok st); simpl in Hr; [|by simplify_eq].
    destruct (ApplyMutationsToProjectedRow _ _ _ _) as [st' dst'] eqn:Ha.
    destruct (Status_ok st'); simpl in Hr; simplify_eq; [|done].
    split_and!; try done. intros j Hj.
    pose proof (ApplyMutations_selection (mvcc_snap_ it) (redo_head row) f
                  (write_row f data a dst) j Hj) as Hs.
    rewrite Ha in Hs. simpl in Hs. done.
  - simplify_eq. split_and!; try done.
    + intros j Hj. simpl. by rewrite list_lookup_insert_ne.
    + intros _. simpl.
      destruct (decide (f < length (selection_vector dst))) as [Hlt|Hge].
      * by rewrite list_lookup_insert_eq.
      * rewrite lookup_ge_None_2; [done|]. rewrite length_insert. lia.
Qed.

(** The rows [FetchRows] goes over: each committed one is within the upper
    bound, a selected row was committed, and the scan finishes only on a
    committed entry at or past the bound. *)
Lemma FetchRows_loop_spec `{Collaborators} (fuel : nat) (t : MSBTree)
    (it : Iterator) (dst : RowBlock) (f : nat)
    (st : Status) (it' : Iterator) (dst' : RowBlock) (f' : nat) :
  FetchRows_loop fuel t it dst f = Some (st, it', dst', f') →
  f ≤ f' ∧
  (∀ j, j < f → selection_vector dst' !! j = selection_vector dst !! j) ∧
  (∀ i, f ≤ i < f' →
     ∃ k row, t !! (iter_ it + (i - f)) = Some (k, row) ∧
       (mvcc_snap_ it (insertion_timestamp row) = true →
        out_of_bounds it k = false) ∧
       (selection_vector dst' !! i = Some true →
        mvcc_snap_ it (insertion_timestamp row) = true)) ∧
  (state_ it' ≠ state_ it →
     state_ it' = kFinished ∧
     ∃ k row, t !! (iter_ it + (f' - f)) = Some (k, row) ∧
       mvcc_snap_ it (insertion_timestamp row) = true ∧
       out_of_bounds it k = true).
Proof.
  revert it dst f. induction fuel as [|fuel IH]; intros it dst f Hr; [done|].
  cbn [FetchRows_loop] in Hr.
  destruct (FetchRows_body t it dst f) as [r|] eqn:Hb; [|done]. simpl in Hr.
  destruct (FetchRows_body_spec _ _ _ _ _ Hb) as (k & row & Hk & Hcase).
  destruct r as [it1 dst1|st1 it1 dst1|it1 dst1].
  - destruct Hcase as (-> & -> & Hc & Ho). simplify_eq.
    split_and!; [lia|done|intros; lia|].
    intros _. split; [done|]. exists k, row.
    rewrite Nat.sub_diag, Nat.add_0_r. done.
  - subst it1. simplify_eq. split_and!; [lia|..|done].
    + intros j Hj. unfold FetchRows_body, GetCurrentEntry in Hb.
      rewrite Hk in Hb. simpl in Hb. rewrite out_of_bounds_has in Hb.
      destruct (mvcc_snap_ it' _); [|done].
      destruct (out_of_bounds it' k); [done|].
      destruct (ProjectRowForRead _ _) as [[st0 data] a].
      destruct (Status_ok st0); simpl in Hb; [|by simplify_eq].
      destruct (ApplyMutationsToProjectedRow _ _ _ _) as [st' dst0] eqn:Ha.
      destruct (Status_ok st'); simpl in Hb; simplify_eq.
      pose proof (ApplyMutations_selection (mvcc_snap_ it') (redo_head row) f'
                    (write_row f' data a dst) j ltac:(lia)) as Hs.
      rewrite Ha in Hs. done.
    + intros; lia.
  - destruct Hcase as (-> & Hin & Hframe & Hun).
    assert (Hhere : ∀ d : RowBlock,
      (∀ j, j < S f → selection_vector d !! j = selection_vector dst1 !! j) →
      ∀ i, i = f →
        ∃ k0 row0, t !! (iter_ it + (i - f)) = Some (k0, row0) ∧
          (mvcc_snap_ it (insertion_timestamp row0) = true →
           out_of_bounds it k0 = false) ∧
          (selection_vector d !! i = Some true →
           mvcc_snap_ it (insertion_timestamp row0) = true)).
    { intros d Hd i ->. exists k, row.
      rewrite Nat.sub_diag, Nat.add_0_r. split_and!; try done.
      rewrite Hd by lia. intros Hsel.
      destruct (mvcc_snap_ it (insertion_timestamp row)); [done|].
      by destruct (Hun eq_refl). }
    destruct (IsValid t _ && _) eqn:Hcont.
    + apply IH in Hr as (Hle & Hsel & Hrows & Hfin). simpl in *.
      split_and!.
      * lia.
      * intros j Hj. rewrite Hsel by lia. apply Hframe. lia.
      * intros i Hi. destruct (decide (i = f)) as [-> |Hne]; [by apply Hhere|].
        destruct (Hrows i) as (k0 & row0 & Hk0 & H1 & H2); [lia|].
        exists k0, row0. split_and!; try done.
        rewrite <- Hk0. f_equal. lia.
      * intros Hst. destruct (Hfin Hst) as (Hf & k0 & row0 & Hk0 & H1 & H2).
        split; [done|]. exists k0, row0. split_and!; try done.
        rewrite <- Hk0. f_equal. lia.
    + simplify_eq. simpl. split_and!; [lia| | |done].
      * intros j Hj. apply Hframe. lia.
      * intros i Hi. apply Hhere; [done|lia].
Qed.

Lemma ApplyMutations_nrows `{Collaborators} (snap : MvccSnapshot)
    (muts : list Mutation) (i : nat) (dst : RowBlock) :
  nrows (ApplyMutationsToProjectedRow snap muts i dst).2 = nrows dst.
Proof.
  unfold ApplyMutationsToProjectedRow. destruct dst as [n c rs sel a].
  destruct (apply_mutations _ _ _ _ _) as [[[st d] data] a'].
  destruct (Status_ok st); simpl; [|done]. by destruct d.
Qed.

Lemma FetchRows_body_total `{Collaborators} (t : MSBTree) (it : Iterator)
    (dst : RowBlock) (f : nat) :
  IsValid t (iter_ it) = true →
  ∃ r, FetchRows_body t it dst f = Some r ∧ nrows (step_block r) = nrows dst.
Proof.
  intros Hv. unfold IsValid in Hv. apply Nat.ltb_lt in Hv.
  apply lookup_lt_is_Some_2 in Hv as [[k row] Hk].
  destruct (FetchRows_body t it dst f) as [r|] eqn:Hb.
  - exists r. split; [done|].
    unfold FetchRows_body, GetCurrentEntry in Hb. rewrite Hk in Hb.
    simpl in Hb.
    destruct (mvcc_snap_ it _); [|by simplify_eq].
    destruct (_ && _); [by simplify_eq|].
    destruct (ProjectRowForRead _ _) as [[st data] a].
    destruct (Status_ok st); simpl in Hb; [|by simplify_eq].
    destruct (ApplyMutationsToProjectedRow _ _ _ _) as [st' dst'] eqn:Ha.
    pose proof (ApplyMutations_nrows (mvcc_snap_ it) (redo_head row) f
                  (write_row f data a dst)) as Hn.
    rewrite Ha in Hn. simpl in Hn.
    destruct (Status_ok st'); simpl in Hb; by simplify_eq.
  - exfalso. unfold FetchRows_body, GetCurrentEntry in Hb. rewrite Hk in Hb.
    simpl in Hb.
    destruct (mvcc_snap_ it _); [|done].
    destruct (_ && _); [done|].
    destruct (ProjectRowForRead _ _) as [[st data] a].
    destruct (Status_ok st); simpl in Hb; [|done].
    destruct (ApplyMutationsToProjectedRow _ _ _ _) as [st' dst'].
    destruct (Status_ok st'); done.
Qed.

(** The loop of [FetchRows] ends within as many iterations as the block has
    rows. *)
Lemma FetchRows_loop_total `{Collaborators} (fuel : nat) (t : MSBTree)
    (it : Iterator) (dst : RowBlock) (f : nat) :
  IsValid t (iter_ it) = true → nrows dst - f ≤ fuel → 0 < fuel →
  ∃ r, FetchRows_loop fuel t it dst f = Some r.
Proof.
  revert it dst f. induction fuel as [|fuel IH]; intros it dst f Hv Hf Hpos;
    [lia|].
  cbn [FetchRows_loop].
  destruct (FetchRows_body_total t it dst f Hv) as (r & Hr & Hn).
  rewrite Hr. simpl. destruct r as [it1 dst1|st1 it1 dst1|it1 dst1]; eauto.
  simpl in Hn. simpl.
  destruct (IsValid t (S (iter_ it1))) eqn:Hv'; simpl; [|eauto].
  destruct (Nat.ltb_spec (S f) (nrows dst1)); [|eauto].
  apply IH; [done|lia|lia].
Qed.

(** C3.  With projectors that initialise, [Init] on a fresh iterator
    returns OK and either leaves the iterator scanning, placed by the seek
    of the index at or after the greatest lower bound of the scan
    specification (on the first entry when there is none) and bounded above
    by the least of its upper bounds, or finishes the scan because a lower
    bound is past the end of the index.  [FetchRows] then stops strictly
    before the upper bound: whatever it goes over that is committed has a
    key below the bound, a row it leaves selected is one of those, and it
    finishes only on a committed entry that is at or past the bound, which
    it has not fetched; a key compares below the bound exactly when
    [out_of_bounds] is false, so a key equal to the bound is out.  On a valid
    iterator and a block that has rows, [FetchRows] returns. *)
Theorem Init_and_FetchRows_bounds `{Collaborators} (t : MSBTree)
    (sp : ScanSpec) (snap : MvccSnapshot) :
  projector_Init = OK → delta_projector_Init = OK →
  (Init (Some sp) t (NewIterator snap)).1 = OK ∧
  ((state_ (Init (Some sp) t (NewIterator snap)).2 = kScanning ∧
    ((lowers (encoded_ranges sp) = [] ∧
      iter_ (Init (Some sp) t (NewIterator snap)).2 = 0) ∨
     (∃ m, is_max m (lowers (encoded_ranges sp)) ∧
           iter_ (Init (Some sp) t (NewIterator snap)).2 = seek_index m t ∧
           IsValid t (seek_index m t) = true)) ∧
    ((uppers (encoded_ranges sp) = [] ∧
      upper_bound_ (Init (Some sp) t (NewIterator snap)).2 = None) ∨
     (∃ u, is_min u (uppers (encoded_ranges sp)) ∧
           upper_bound_ (Init (Some sp) t (NewIterator snap)).2 = Some u))) ∨
   (state_ (Init (Some sp) t (NewIterator snap)).2 = kFinished ∧
    ∃ l, l ∈ lowers (encoded_ranges sp) ∧ IsValid t (seek_index l t) = false)) ∧
  (∀ it dst st it' dst' fetched,
     state_ it = kScanning →
     FetchRows t it dst = Some (st, it', dst', fetched) →
     (∀ i, i < fetched →
        ∃ k row, t !! (iter_ it + i) = Some (k, row) ∧
          (mvcc_snap_ it (insertion_timestamp row) = true →
           out_of_bounds it k = false) ∧
          (selection_vector dst' !! i = Some true →
           mvcc_snap_ it (insertion_timestamp row) = true)) ∧
     (state_ it' = kFinished →
        ∃ k row, t !! (iter_ it + fetched) = Some (k, row) ∧
          mvcc_snap_ it (insertion_timestamp row) = true ∧
          out_of_bounds it k = true)) ∧
  (∀ it ub k, upper_bound_ it = Some ub →
     (out_of_bounds it k = false ↔ Slice_compare k ub = Lt)) ∧
  (∀ it dst, IsValid t (iter_ it) = true → 0 < nrows dst →
     ∃ r, FetchRows t it dst = Some r).
Proof.
  intros Hp Hd. split_and!.
  - unfold Init. rewrite Hp, Hd. simpl.
    destruct (has_encoded_ranges sp); [|done].
    by destruct (Init_ranges _ _ _ _) as [?|[? ?]].
  - unfold Init. rewrite Hp, Hd. simpl.
    pose proof (Init_ranges_spec t (NewIterator snap) (encoded_ranges sp) []
                  None (NewIterator snap)) as Hspec.
    destruct (has_encoded_ranges sp) eqn:Hhas.
    + destruct (Init_ranges _ _ _ _) as [it'|[it' max']].
      * simpl in *. right. apply Hspec. split_and!; done.
      * simpl in *. left. split; [done|].
        destruct Hspec as (_ & _ & Hlow & Hup); [by split_and!|].
        split.
        -- destruct max' as [m|]; simpl; [right|left; done].
           exists m. destruct Hlow. done.
        -- destruct max' as [m|]; simpl;
             (destruct (upper_bound_ it') as [u|]; [right; eauto|left; done]).
    + unfold has_encoded_ranges in Hhas.
      destruct (encoded_ranges sp); [|done]. simpl. left.
      split; [done|]. split; left; done.
  - intros it dst st it' dst' fetched Hs Hf. unfold FetchRows in Hf.
    apply FetchRows_loop_spec in Hf as (_ & _ & Hrows & Hfin). split.
    + intros i Hi. destruct (Hrows i) as (k & row & Hk & H1 & H2); [lia|].
      exists k, row. rewrite Nat.sub_0_r in Hk. done.
    + intros Hst. destruct Hfin as (_ & k & row & Hk & H1 & H2); [congruence|].
      exists k, row. rewrite Nat.sub_0_r in Hk. done.
  - intros it ub k Hub. unfold out_of_bounds. rewrite Hub.
    destruct (Slice_compare k ub); split; done.
  - intros it dst Hv Hn. unfold FetchRows.
    apply FetchRows_loop_total; [done|lia|done].
Qed.

(** Scenario 4: over the keys a, b, c, d, the scan with lower bound "b" and
    upper bound "d" is placed on "b" by [Init], and one [NextBlock] returns
    exactly the rows b and c and finishes on "d". *)
Lemma Init_and_FetchRows_bounds_witness :
  ∃ mrs, abcd = Some mrs ∧
    (Init (H := simple) (Some spec_b_d) (tree_ mrs)
       (NewIterator CreateSnapshotIncludingAllTransactions)).1 = OK ∧
    iter_ (Init (H := simple) (Some spec_b_d) (tree_ mrs)
             (NewIterator CreateSnapshotIncludingAllTransactions)).2 = 1 ∧
    (selected_rows <$> (snd <$> scan_b_d 10)) = Some ["b"; "c"] ∧
    (state_ <$> (snd <$> (fst <$> scan_b_d 10))) = Some kFinished.
Proof.
  destruct abcd as [mrs|] eqn:Hm; [|by vm_compute in Hm].
  exists mrs. split; [reflexivity|].
  destruct (Init_and_FetchRows_bounds (H := simple) (tree_ mrs) spec_b_d
              CreateSnapshotIncludingAllTransactions eq_refl eq_refl)
    as (Hok & _).
  split; [exact Hok|].
  vm_compute in Hm. injection Hm as <-.
  split; [vm_compute; reflexivity|].
  split; vm_compute; reflexivity.
Defined.

(** ** The scenarios of the specification on the model *)

Example scenario_1 :
  (r ← k1_updated; rows ← scan_all r.1.1.2 (snapshot_of [10; 20]%Z);
   Some (r.1.1.1, rows, mrs_consulted r.1.2))
  = Some (OK, ["k1 v2"], 1%Z).
Proof. vm_compute. reflexivity. Qed.

Example scenario_2 :
  (mrs ← k2_reinserted; scan_all mrs (snapshot_of [5; 10; 15]%Z))
    = Some ["k2 new"] ∧
  (mrs ← k2_reinserted; scan_all mrs (snapshot_of [5; 10]%Z)) = Some [].
Proof. split; vm_compute; reflexivity. Qed.

Example scenario_3 :
  (mrs ← run_Insert 10 "k3" (MkOpId 1 9) (Some (new_MemRowSet 7 0));
   second ← Insert (H := simple) 11 "k3" (MkOpId 1 10) mrs;
   mrs ← ghost_k3;
   third ← Insert (H := simple) 30 "k3" (MkOpId 1 11) mrs;
   present ← CheckRowPresent "k3" (MkProbeStats 0) third.2;
   Some (second.1, third.1, present.1.2))
  = Some (AlreadyPresent "entry already present in memrowset", OK, true).
Proof. vm_compute. reflexivity. Qed.

(** * The cache: further properties of the code *)

(** ** The hash table *)

Lemma Lookup_table_Some (m : Heap) (tb : HandleTable.t) (k : string) (hs : Z)
    (h : Handle) :
  table_wf m tb → h ∈ tbl_elems tb → matches m k hs h →
  HandleTable.Lookup m tb k hs = Some (Some h).
Proof.
  intros Hwf Hh Hm.
  destruct (Lookup_table_spec m tb k hs Hwf) as (r & Hr & HS & HN).
  rewrite Hr. destruct r as [x|].
  - destruct (HS x eq_refl) as [Hx (ex & Hex & Hhs & Hk)].
    destruct Hm as (e & He & Hhs' & Hk').
    assert (x = h) as ->; [|done].
    apply (wf_unique _ _ Hwf x h ex e); congruence.
  - destruct (HN eq_refl h Hh Hm).
Qed.

Lemma Lookup_table_None (m : Heap) (tb : HandleTable.t) (k : string) (hs : Z) :
  table_wf m tb → (∀ x, x ∈ tbl_elems tb → ¬ matches m k hs x) →
  HandleTable.Lookup m tb k hs = Some None.
Proof.
  intros Hwf Hno.
  destruct (Lookup_table_spec m tb k hs Hwf) as (r & Hr & HS & HN).
  rewrite Hr. destruct r as [x|]; [|done].
  destruct (HS x eq_refl) as [Hx Hm]. destruct (Hno x Hx Hm).
Qed.

(** What [Lookup] returns depends on the entries of the table only. *)
Lemma Lookup_table_ext (m : Heap) (tb tb' : HandleTable.t) (k : string)
    (hs : Z) :
  table_wf m tb → table_wf m tb' →
  (∀ x, matches m k hs x → (x ∈ tbl_elems tb' ↔ x ∈ tbl_elems tb)) →
  HandleTable.Lookup m tb' k hs = HandleTable.Lookup m tb k hs.
Proof.
  intros Hwf Hwf' Hmem.
  destruct (Lookup_table_spec m tb k hs Hwf) as (r & Hr & HS & HN).
  rewrite Hr. destruct r as [x|].
  - destruct (HS x eq_refl) as [Hx Hm].
    apply Lookup_table_Some; [done| |done]. by apply Hmem.
  - apply Lookup_table_None; [done|]. intros x Hx Hm.
    apply (HN eq_refl x); [|done]. by apply Hmem.
Qed.

Lemma table_wf_empty (m : Heap) : table_wf m HandleTable.empty.
Proof.
  split; simpl; try done.
  - unfold tbl_elems. simpl. apply NoDup_nil_2.
  - intros [|[|[|[|i]]]] c h Hi Hh; simplify_eq/=; by apply elem_of_nil in Hh.
  - intros h1 h2 e1 e2 Hh. by apply elem_of_nil in Hh.
Qed.

Lemma Resize_fields (m : Heap) (tb tb' : HandleTable.t) :
  (HandleTable.elems_ tb ≤ 2 ^ 31)%Z →
  HandleTable.Resize m tb = Some tb' →
  HandleTable.elems_ tb' = HandleTable.elems_ tb ∧
  (4 ≤ HandleTable.length_ tb')%Z ∧
  (HandleTable.elems_ tb' ≤ HandleTable.length_ tb')%Z.
Proof.
  intros Hb Hr. unfold HandleTable.Resize in Hr.
  destruct (grow_spec 32 2 (HandleTable.elems_ tb)) as (n & Hg & Hn & Hle);
    [lia|lia|done|].
  change (2 ^ Z.of_nat 2)%Z with 4%Z in Hg. rewrite Hg in Hr. simpl in Hr.
  destruct (HandleTable.rehash _ _ _ _) as [nl|]; [|discriminate Hr].
  cbn [mbind option_bind] in Hr. injection Hr as <-.
  cbn [HandleTable.elems_ HandleTable.length_]. split_and!; [done|lia|done].
Qed.

(** X1.  [HandleTable::Insert] of an allocated entry that is not chained yet
    returns, and what it returns is what [Lookup] of the entry's key and hash
    found before: the entry it has replaced, or none.  Afterwards [Lookup] of
    that key and hash finds the new entry, the lookup of every other key and
    hash finds what it found before, the element count has grown by one
    exactly when nothing was replaced, and a table that had no more elements
    than buckets still has no more elements than buckets. *)
Theorem HandleTable_Insert_Lookup (m : Heap) (tb : HandleTable.t) (h : Handle)
    (e : LRUHandle.t) :
  table_wf m tb → m !! h = Some e → h ∉ tbl_elems tb →
  (HandleTable.elems_ tb < 2 ^ 31)%Z →
  ∃ tb' old, HandleTable.Insert m tb h = Some (tb', old) ∧
    HandleTable.Lookup m tb (LRUHandle.key e) (LRUHandle.hash e) = Some old ∧
    HandleTable.Lookup m tb' (LRUHandle.key e) (LRUHandle.hash e)
      = Some (Some h) ∧
    (∀ k hs, ¬ (k = LRUHandle.key e ∧ hs = LRUHandle.hash e) →
       HandleTable.Lookup m tb' k hs = HandleTable.Lookup m tb k hs) ∧
    table_wf m tb' ∧
    HandleTable.elems_ tb'
      = (match old with
         | Some _ => HandleTable.elems_ tb
         | None => HandleTable.elems_ tb + 1
         end)%Z ∧
    ((HandleTable.elems_ tb ≤ HandleTable.length_ tb)%Z →
     (HandleTable.elems_ tb' ≤ HandleTable.length_ tb')%Z).
Proof.
  intros Hwf He Hh Hel.
  destruct (Insert_table_spec m tb h e Hwf He Hh Hel)
    as (tb' & old & Hins & Hwf' & Hmem & HS & HN).
  exists tb', old. split; [done|].
  assert (Hme : matches m (LRUHandle.key e) (LRUHandle.hash e) h)
    by (by exists e).
  split_and!.
  - destruct old as [o|].
    + destruct (HS o eq_refl). by apply Lookup_table_Some.
    + apply Lookup_table_None; [done|]. by apply HN.
  - apply Lookup_table_Some; [done| |done]. apply Hmem. by left.
  - intros k hs Hne. apply Lookup_table_ext; [done..|].
    intros x Hx. rewrite Hmem. split.
    + intros [-> |[? _]]; [|done].
      destruct Hx as (e' & He' & <- & <-). simplify_eq. by destruct Hne.
    + intros Hin. right. split; [done|]. intros ->.
      destruct (HS x eq_refl) as [_ (e1 & He1 & Hhs1 & Hk1)].
      destruct Hx as (e2 & He2 & Hhs2 & Hk2). simplify_eq. by destruct Hne.
  - done.
  - pose proof (wf_elems _ _ Hwf) as Hcnt.
    assert (0 ≤ HandleTable.elems_ tb)%Z by lia.
    unfold HandleTable.Insert in Hins. rewrite He in Hins. simpl in Hins.
    destruct (HandleTable.FindPointer _ _ _ _) as [p|]; [|done]. simpl in Hins.
    destruct (HandleTable.deref tb p) as [o|]; [by simplify_eq/=|].
    assert (Hw : wrap32 (HandleTable.elems_ tb + 1)
                 = (HandleTable.elems_ tb + 1)%Z).
    { unfold wrap32. rewrite Z.mod_small; lia. }
    rewrite Hw in Hins.
    destruct (_ <? _)%Z.
    + destruct (HandleTable.Resize _ _) as [tb3|] eqn:Hr; simplify_eq/=.
      apply Resize_fields in Hr as (-> & _); [done|simpl; lia].
    + by simplify_eq/=.
  - intros Hload.
    pose proof (wf_elems _ _ Hwf) as Hcnt.
    assert (0 ≤ HandleTable.elems_ tb)%Z by lia.
    unfold HandleTable.Insert in Hins. rewrite He in Hins. simpl in Hins.
    destruct (HandleTable.FindPointer _ _ _ _) as [p|]; [|done]. simpl in Hins.
    destruct (HandleTable.deref tb p) as [o|]; [by simplify_eq/=|].
    assert (Hw : wrap32 (HandleTable.elems_ tb + 1)
                 = (HandleTable.elems_ tb + 1)%Z).
    { unfold wrap32. rewrite Z.mod_small; lia. }
    rewrite Hw in Hins.
    destruct (Z.ltb_spec (HandleTable.length_ tb) (HandleTable.elems_ tb + 1)).
    + destruct (HandleTable.Resize _ _) as [tb3|] eqn:Hr; simplify_eq/=.
      apply Resize_fields in Hr as (_ & _ & ?); [done|simpl; lia].
    + simplify_eq/=. lia.
Qed.

(** The first entry of an empty table: nothing is replaced and the entry is
    found again. *)
Lemma HandleTable_Insert_Lookup_witness :
  ∃ tb' old, HandleTable.Insert heap_A HandleTable.empty 0 = Some (tb', old) ∧
    HandleTable.Lookup heap_A HandleTable.empty "A" 7 = Some old ∧
    HandleTable.Lookup heap_A tb' "A" 7 = Some (Some 0) ∧
    (∀ k hs, ¬ (k = "A" ∧ hs = 7%Z) →
       HandleTable.Lookup heap_A tb' k hs
       = HandleTable.Lookup heap_A HandleTable.empty k hs) ∧
    table_wf heap_A tb' ∧
    HandleTable.elems_ tb' = (match old with Some _ => 0 | None => 0 + 1 end)%Z ∧
    ((0 ≤ 4)%Z → (HandleTable.elems_ tb' ≤ HandleTable.length_ tb')%Z).
Proof.
  apply (HandleTable_Insert_Lookup heap_A HandleTable.empty 0
           (LRUHandle.Make 100 1 1 "A" 2 7)).
  - apply table_wf_empty.
  - reflexivity.
  - unfold tbl_elems. simpl. apply not_elem_of_nil.
  - simpl. lia.
Defined.

Lemma table_A_wf : table_wf heap_A table_A.
Proof.
  destruct (Insert_table_spec heap_A HandleTable.empty 0
              (LRUHandle.Make 100 1 1 "A" 2 7) (table_wf_empty _) eq_refl)
    as (tb' & old & Hins & Hwf & _).
  - unfold tbl_elems. simpl. apply not_elem_of_nil.
  - simpl. lia.
  - vm_compute in Hins. injection Hins as <- <-. exact Hwf.
Qed.

(** X2.  [HandleTable::Remove] returns, and what it returns is what [Lookup]
    of the key and hash found before: the entry it has unlinked, or none, in
    which case the table is as it was.  Afterwards [Lookup] of that key and
    hash finds nothing, the lookup of every other key and hash finds what it
    found before, the number of buckets is the same and the element count is
    one less exactly when an entry was unlinked. *)
Theorem HandleTable_Remove_Lookup (m : Heap) (tb : HandleTable.t) (k : string)
    (hs : Z) :
  table_wf m tb →
  ∃ tb' r, HandleTable.Remove m tb k hs = Some (tb', r) ∧
    HandleTable.Lookup m tb k hs = Some r ∧
    HandleTable.Lookup m tb' k hs = Some None ∧
    (∀ k' hs', ¬ (k' = k ∧ hs' = hs) →
       HandleTable.Lookup m tb' k' hs' = HandleTable.Lookup m tb k' hs') ∧
    table_wf m tb' ∧
    (r = None → tb' = tb) ∧
    HandleTable.length_ tb' = HandleTable.length_ tb ∧
    HandleTable.elems_ tb'
      = (match r with
         | Some _ => HandleTable.elems_ tb - 1
         | None => HandleTable.elems_ tb
         end)%Z.
Proof.
  intros Hwf.
  destruct (Remove_table_spec m tb k hs Hwf) as (tb' & r & Hr & Hwf' & HS & HN).
  exists tb', r. split; [done|]. destruct r as [h|].
  - destruct (HS h eq_refl) as (Hh & Hm & Hmem).
    assert (Hone : ∀ x, x ∈ tbl_elems tb → matches m k hs x → x = h).
    { intros x Hx (ex & Hex & Hhx & Hkx). destruct Hm as (e & He & Hhe & Hke).
      apply (wf_unique _ _ Hwf x h ex e); congruence. }
    split_and!.
    + by apply Lookup_table_Some.
    + apply Lookup_table_None; [done|]. intros x [Hx Hne]%Hmem Hmx.
      by apply Hne, Hone.
    + intros k' hs' Hne. apply Lookup_table_ext; [done..|].
      intros x Hx. rewrite Hmem. split; [by intros [? _]|].
      intros Hin. split; [done|]. intros ->.
      destruct Hm as (e1 & He1 & Hhs1 & Hk1).
      destruct Hx as (e2 & He2 & Hhs2 & Hk2). simplify_eq. by destruct Hne.
    + done.
    + done.
    + unfold HandleTable.Remove in Hr.
      destruct (HandleTable.FindPointer _ _ _ _) as [p|]; [|done].
      cbn [mbind option_bind] in Hr.
      destruct (HandleTable.deref tb p); by simplify_eq.
    + assert (1 ≤ HandleTable.elems_ tb < 2 ^ 32)%Z as Hb.
      { pose proof (wf_elems_bound _ _ Hwf). rewrite (wf_elems _ _ Hwf) in *.
        assert (0 < length (tbl_elems tb)); [|lia].
        revert Hh. destruct (tbl_elems tb); [by intros ?%elem_of_nil|].
        simpl. lia. }
      unfold HandleTable.Remove in Hr.
      destruct (HandleTable.FindPointer _ _ _ _) as [p|]; [|done].
      cbn [mbind option_bind] in Hr.
      destruct (HandleTable.deref tb p); [|done].
      injection Hr as <- _. cbn [HandleTable.elems_].
      unfold wrap32. rewrite Z.mod_small; lia.
  - destruct (HN eq_refl) as [-> Hno]. split_and!; try done.
    + by apply Lookup_table_None.
    + by apply Lookup_table_None.
Qed.

(** The only entry of a table is removed: it is returned and no longer
    found. *)
Lemma HandleTable_Remove_Lookup_witness :
  ∃ tb' r, HandleTable.Remove heap_A table_A "A" 7 = Some (tb', r) ∧
    HandleTable.Lookup heap_A table_A "A" 7 = Some r ∧
    HandleTable.Lookup heap_A tb' "A" 7 = Some None ∧
    (∀ k' hs', ¬ (k' = "A" ∧ hs' = 7%Z) →
       HandleTable.Lookup heap_A tb' k' hs'
       = HandleTable.Lookup heap_A table_A k' hs') ∧
    table_wf heap_A tb' ∧
    (r = None → tb' = table_A) ∧
    HandleTable.length_ tb' = 4%Z ∧
    HandleTable.elems_ tb' = (match r with Some _ => 1 - 1 | None => 1 end)%Z.
Proof. apply (HandleTable_Remove_Lookup heap_A table_A "A" 7 table_A_wf). Defined.

(** X3.  [HandleTable::Resize] on a table that holds at most 2^31 entries
    returns: its doubling loop ends.  The new table has at least 4 buckets and
    at least as many buckets as elements, the same element count, and
    [Lookup] of every key and hash finds in it what it found before. *)
Theorem HandleTable_Resize_Lookup (m : Heap) (tb : HandleTable.t) :
  table_wf m tb →
  ∃ tb', HandleTable.Resize m tb = Some tb' ∧
    table_wf m tb' ∧
    HandleTable.elems_ tb' = HandleTable.elems_ tb ∧
    (4 ≤ HandleTable.length_ tb')%Z ∧
    (HandleTable.elems_ tb' ≤ HandleTable.length_ tb')%Z ∧
    ∀ k hs, HandleTable.Lookup m tb' k hs = HandleTable.Lookup m tb k hs.
Proof.
  intros Hwf.
  destruct (Resize_spec m tb Hwf) as (tb' & Hr & Hwf' & Hp).
  exists tb'. split; [done|].
  destruct (Resize_fields m tb tb' (wf_elems_bound _ _ Hwf) Hr) as (? & ? & ?).
  split_and!; try done.
  intros k hs. apply Lookup_table_ext; [done..|].
  intros x _. by rewrite Hp.
Qed.

Lemma HandleTable_Resize_Lookup_witness :
  ∃ tb', HandleTable.Resize heap_A table_A = Some tb' ∧
    table_wf heap_A tb' ∧
    HandleTable.elems_ tb' = 1%Z ∧
    (4 ≤ HandleTable.length_ tb')%Z ∧
    (HandleTable.elems_ tb' ≤ HandleTable.length_ tb')%Z ∧
    ∀ k hs, HandleTable.Lookup heap_A tb' k hs
            = HandleTable.Lookup heap_A table_A k hs.
Proof. apply (HandleTable_Resize_Lookup heap_A table_A table_A_wf). Defined.

(** ** One shard *)

Lemma one_cached_reachable : Client.reachable 5 one_cached.
Proof.
  apply (exec_reachable 5 [Client.Insert "A" 7 100 1 1] (Client.init 5));
    [apply Client.reach_init|]. by vm_compute.
Qed.

Lemma ab_released_reachable : Client.reachable 5 ab_released.
Proof.
  apply (exec_reachable 5
           [Client.Insert "A" 7 100 2 1; Client.Release 0;
            Client.Insert "B" 9 101 2 1; Client.Release 1]
           (Client.init 5)); [apply Client.reach_init|]. by vm_compute.
Qed.

(** What [Unref] leaves alone. *)
Lemma Unref_frame (s s' : LRUCache.t) (e : Handle) :
  LRUCache.Unref s e = Some s' →
  LRUCache.capacity_ s' = LRUCache.capacity_ s ∧
  LRUCache.lru_ s' = LRUCache.lru_ s ∧
  LRUCache.table_ s' = LRUCache.table_ s ∧
  LRUCache.brk s' = LRUCache.brk s ∧
  (∀ x, x ≠ e → LRUCache.heap s' !! x = LRUCache.heap s !! x) ∧
  (∀ en', LRUCache.heap s' !! e = Some en' →
     ∃ en, LRUCache.heap s !! e = Some en ∧
           en' = LRUHandle.set_refs (wrap32 (LRUHandle.refs en - 1)) en).
Proof.
  unfold LRUCache.Unref. intros Hu.
  destruct (LRUCache.heap s !! e) as [en|] eqn:He; [|done].
  cbn [mbind option_bind] in Hu.
  destruct (_ <=? _)%Z; injection Hu as <-; simpl; split_and!; try done.
  - intros x Hx. by rewrite lookup_delete_ne.
  - intros en'. by rewrite lookup_delete_eq.
  - intros x Hx. by rewrite lookup_insert_ne.
  - intros en'. rewrite lookup_insert_eq. intros [= <-]. eauto.
Qed.

(** X4.  In every state a caller can bring a shard to, [LRUCache::Lookup]
    returns.  It returns a handle exactly when the cache holds an entry with
    that key and hash, and that entry is the one returned; on a miss the
    shard is as it was.  On a hit the entry has become the newest of the LRU
    list while the others keep their order, its [refs] is one more (without
    wrapping), and usage, capacity, the hash table, the tracker and the
    deleter calls are as they were. *)
Theorem Lookup_hit_iff_cached (capacity : Z) (c : Client.config) (k : string)
    (hs : Z) :
  Client.reachable capacity c → Client.valid (Client.Lookup k hs) c →
  ∃ s' r, LRUCache.Lookup (Client.shard c) k hs = Some (s', r) ∧
    (∀ h, r = Some h ↔
          h ∈ LRUCache.lru_ (Client.shard c) ∧
          matches (LRUCache.heap (Client.shard c)) k hs h) ∧
    (r = None → s' = Client.shard c) ∧
    (∀ h, r = Some h →
       ∃ e, LRUCache.heap (Client.shard c) !! h = Some e ∧
         s' = LRUCache.Make (LRUCache.capacity_ (Client.shard c))
                (LRUCache.usage_ (Client.shard c))
                (filter (λ x, x ≠ h) (LRUCache.lru_ (Client.shard c)) ++ [h])
                (LRUCache.table_ (Client.shard c))
                (<[h := LRUHandle.set_refs (LRUHandle.refs e + 1) e]>
                   (LRUCache.heap (Client.shard c)))
                (LRUCache.brk (Client.shard c))
                (LRUCache.mem_tracker_ (Client.shard c))
                (LRUCache.deleter_calls (Client.shard c))).
Proof.
  intros Hreach Hv. destruct (reachable_inv _ _ Hreach) as [Hinv _].
  destruct c as [s held born]. simpl in *.
  destruct (Lookup_inv s held born k hs Hinv Hv)
    as (s' & r & Hl & _ & _ & HS & HN).
  pose proof Hinv as [I1 I2 I3 I4 I5 I6 I7 I8 I9 I10 I11 I12 I13 I14 I15].
  simpl in *.
  exists s', r. split; [done|]. split_and!.
  - intros h. split; [intros ->; by apply HS|].
    intros [Hh Hm]. destruct r as [x|].
    + destruct (HS x eq_refl) as [Hx (ex & Hex & Hhx & Hkx)].
      destruct Hm as (e & He & Hhe & Hke). f_equal.
      apply (wf_unique _ _ I1 x h ex e); try congruence; by apply I3.
    + destruct (HN eq_refl) as [_ Hno]. destruct (Hno h Hh Hm).
  - intros ->. by destruct (HN eq_refl).
  - intros h ->. destruct (HS h eq_refl) as [Hh _].
    destruct (I4 h Hh) as [e He]. exists e. split; [done|].
    destruct (I7 h e He) as [Hr1 Hr2].
    assert (Hic : in_cache s h = 1%Z).
    { unfold in_cache. by rewrite decide_True. }
    rewrite Hic, multiplicity_empty in Hr2.
    pose proof (multiplicity_le_size h held) as Hb.
    unfold LRUCache.Lookup in Hl.
    destruct (HandleTable.Lookup _ _ _ _) as [[x|]|]; simpl in Hl; [|done..].
    destruct (LRUCache.heap s !! x) as [ex|] eqn:Hex; [|done].
    simpl in Hl. injection Hl as <- <-. rewrite He in Hex. simplify_eq.
    unfold wrap32. rewrite Z.mod_small by lia. done.
Qed.

(** The entry of key ["A"] is found, and is then held twice. *)
Lemma Lookup_hit_iff_cached_witness :
  ∃ s' r, LRUCache.Lookup (Client.shard one_cached) "A" 7 = Some (s', r) ∧
    r = Some 0 ∧
    (LRUHandle.refs <$> LRUCache.heap s' !! 0) = Some 3%Z.
Proof.
  destruct (Lookup_hit_iff_cached 5 one_cached "A" 7 one_cached_reachable)
    as (s' & r & Hl & Hiff & _ & Hhit).
  { vm_compute. reflexivity. }
  exists s', r. split; [exact Hl|].
  assert (Hr : r = Some 0).
  { apply Hiff. split; [vm_compute; apply list_elem_of_here|].
    eexists. split; [vm_compute; reflexivity|]. split; reflexivity. }
  split; [exact Hr|].
  destruct (Hhit 0 Hr) as (e & He & ->).
  vm_compute in He. injection He as <-. vm_compute. reflexivity.
Defined.

(** X5.  In every state a caller can bring a shard to, [LRUCache::Erase]
    returns, and afterwards [Lookup] of the erased key and hash finds
    nothing and changes nothing.  The cache holds the entries it held except
    the one of that key and hash, and when it held none of that key the
    shard is as it was.  An entry to which a caller holds a handle stays
    allocated with the value, key, charge and deleter it had, the erased one
    included. *)
Theorem Erase_then_Lookup (capacity : Z) (c : Client.config) (k : string)
    (hs : Z) :
  Client.reachable capacity c →
  ∃ s', LRUCache.Erase (Client.shard c) k hs = Some s' ∧
    LRUCache.Lookup s' k hs = Some (s', None) ∧
    (∀ x, x ∈ LRUCache.lru_ s' ↔
          x ∈ LRUCache.lru_ (Client.shard c) ∧
          ¬ matches (LRUCache.heap (Client.shard c)) k hs x) ∧
    ((∀ x, x ∈ LRUCache.lru_ (Client.shard c) →
           ¬ matches (LRUCache.heap (Client.shard c)) k hs x) →
     s' = Client.shard c) ∧
    (∀ h, h ∈ Client.held c →
       ∃ e e', LRUCache.heap (Client.shard c) !! h = Some e ∧
         LRUCache.heap s' !! h = Some e' ∧
         LRUHandle.set_refs 2 e' = LRUHandle.set_refs 2 e).
Proof.
  intros Hreach. destruct (reachable_inv _ _ Hreach) as [Hinv _].
  destruct c as [s held born]. simpl in *.
  destruct (Erase_inv s held born k hs Hinv) as (s' & He & Hinv' & _).
  pose proof Hinv as [I1 I2 I3 I4 I5 I6 I7 I8 I9 I10 I11 I12 I13 I14 I15].
  simpl in *.
  exists s'. split; [done|].
  destruct (Remove_table_spec _ _ k hs I1) as (tb' & r & Hr & Hwf' & HS & HN).
  unfold LRUCache.Erase in He. rewrite Hr in He. simpl in He.
  assert (Hheld : ∀ h, h ∈ held →
            ∃ e e', LRUCache.heap s !! h = Some e ∧
              LRUCache.heap s' !! h = Some e' ∧
              LRUHandle.set_refs 2 e' = LRUHandle.set_refs 2 e).
  { intros h Hh. destruct (I5 h Hh) as [e Hhe].
    destruct (inv_held_live _ _ Hinv' h Hh) as [e' Hhe']. simpl in Hhe'.
    exists e, e'. split_and!; [done..|].
    pose proof (I14 _ _ Hhe) as H1.
    pose proof (inv_born_heap _ _ Hinv' _ _ Hhe') as H2. simpl in H2.
    congruence. }
  destruct r as [e|].
  - destruct (HS e eq_refl) as (Hin & Hm & Hmem).
    apply Unref_frame in He as Hf. simpl in Hf.
    destruct Hf as (_ & Hlru & Htb & _ & Hother & _).
    assert (Hone : ∀ x, x ∈ LRUCache.lru_ s →
              matches (LRUCache.heap s) k hs x → x = e).
    { intros x Hx (ex & Hex & Hhx & Hkx). destruct Hm as (en & Hen & Hhe & Hke).
      apply (wf_unique _ _ I1 x e ex en); try congruence. by apply I3. }
    assert (Hl : ∀ x, x ∈ LRUCache.lru_ s' ↔
              x ∈ LRUCache.lru_ s ∧ ¬ matches (LRUCache.heap s) k hs x).
    { intros x. rewrite Hlru. unfold LRUCache.LRU_Remove.
      rewrite list_elem_of_filter. split.
      - intros [Hne Hx]. split; [done|]. intros Hmx. by apply Hne, Hone.
      - intros [Hx Hnm]. split; [|done]. by intros ->. }
    split_and!; [|done| |done].
    + unfold LRUCache.Lookup.
      rewrite (Lookup_table_None (LRUCache.heap s') (LRUCache.table_ s') k hs);
        [done|apply (inv_table _ _ Hinv')|].
      intros x Hx (ex & Hex & Hhx & Hkx).
      apply (inv_lru_table _ _ Hinv') in Hx. simpl in Hx.
      pose proof Hx as Hx'. rewrite Hlru in Hx'.
      apply list_elem_of_filter in Hx' as [Hne _].
      apply Hl in Hx as [Hx Hnm]. apply Hnm.
      exists ex. by rewrite <- Hother.
    + intros Hno. apply I3 in Hin. destruct (Hno e Hin Hm).
  - destruct (HN eq_refl) as [-> Hno]. rewrite set_table_id in He.
    injection He as <-. split_and!; [|  |done|done].
    + unfold LRUCache.Lookup. rewrite Lookup_table_None; done.
    + intros x. split; [|by intros [? _]].
      intros Hx. split; [done|]. apply Hno. by apply I3.
Qed.

(** The cached entry is erased while its handle is held: it is no longer
    found, and its value is still there for the holder. *)
Lemma Erase_then_Lookup_witness :
  ∃ s', LRUCache.Erase (Client.shard one_cached) "A" 7 = Some s' ∧
    LRUCache.Lookup s' "A" 7 = Some (s', None) ∧
    LRUCache.lru_ s' = [] ∧
    (LRUHandle.value <$> LRUCache.heap s' !! 0) = Some 100%Z.
Proof.
  destruct (Erase_then_Lookup 5 one_cached "A" 7 one_cached_reachable)
    as (s' & He & Hl & _).
  exists s'. split; [exact He|]. split; [exact Hl|].
  vm_compute in He. injection He as <-. split; vm_compute; reflexivity.
Defined.

(** ** Charges *)

Lemma live_charge_ext (m m' : Heap) :
  (∀ x, LRUHandle.charge <$> m' !! x = LRUHandle.charge <$> m !! x) →
  live_charge m' = live_charge m.
Proof.
  revert m'. induction m as [|i e m Hi IH] using map_ind; intros m' H.
  - assert (m' = ∅) as ->; [|done]. apply map_empty. intros x.
    specialize (H x). rewrite lookup_empty in H. by destruct (m' !! x).
  - pose proof (H i) as Hi'. rewrite lookup_insert_eq in Hi'.
    destruct (m' !! i) as [e'|] eqn:He'; [|done]. injection Hi' as Hc.
    rewrite (live_charge_delete m' i e' He'), live_charge_insert by done.
    rewrite (IH (delete i m')); [lia|]. intros x.
    destruct (decide (x = i)) as [-> |Hne].
    + by rewrite lookup_delete_eq, Hi.
    + rewrite lookup_delete_ne by done. specialize (H x).
      by rewrite lookup_insert_ne in H.
Qed.

Lemma pinned_lookup (held : gmultiset Handle) (m : Heap) (x : Handle) :
  filter (λ p, p.1 ∈ held) m !! x = if decide (x ∈ held) then m !! x else None.
Proof.
  destruct (decide (x ∈ held)) as [Hx|Hx].
  - destruct (m !! x) as [e|] eqn:He.
    + by apply map_lookup_filter_Some.
    + apply map_lookup_filter_None. left. done.
  - apply map_lookup_filter_None. right. intros e _. done.
Qed.

Lemma pinned_charge_ext (held held' : gmultiset Handle) (m m' : Heap) :
  (∀ x, (if decide (x ∈ held') then LRUHandle.charge <$> m' !! x else None)
        = (if decide (x ∈ held) then LRUHandle.charge <$> m !! x else None)) →
  pinned_charge held' m' = pinned_charge held m.
Proof.
  intros H. apply live_charge_ext. intros x. rewrite !pinned_lookup.
  specialize (H x). by destruct (decide (x ∈ held')), (decide (x ∈ held)).
Qed.

Lemma pinned_charge_all (held : gmultiset Handle) (m : Heap) :
  (∀ h e, m !! h = Some e → h ∈ held) → pinned_charge held m = live_charge m.
Proof.
  intros H. unfold pinned_charge. rewrite map_filter_id; [done|].
  intros i x Hix. simpl. by eapply H.
Qed.

Lemma pinned_charge_insert (held : gmultiset Handle) (m : Heap) (e : Handle)
    (en : LRUHandle.t) :
  m !! e = None → e ∉ held →
  pinned_charge (held ⊎ {[+ e +]}) (<[e := en]> m)
  = (LRUHandle.charge en + pinned_charge held m)%Z.
Proof.
  intros Hm He. unfold pinned_charge.
  rewrite map_filter_insert_True.
  2:{ simpl. apply gmultiset_elem_of_disj_union. right.
      by apply gmultiset_elem_of_singleton. }
  rewrite live_charge_insert.
  2:{ apply map_lookup_filter_None. by left. }
  f_equal. f_equal. apply map_filter_ext. intros i x Hix. simpl.
  rewrite gmultiset_elem_of_disj_union, gmultiset_elem_of_singleton.
  split; [|by left]. intros [?| ->]; [done|]. by rewrite Hm in Hix.
Qed.

Lemma wrap64_small (z : Z) : (0 ≤ z < 2 ^ 64)%Z → wrap64 z = z.
Proof. intros. unfold wrap64. by apply Z.mod_small. Qed.

Lemma wrap64_le (z : Z) : (0 ≤ z)%Z → (wrap64 z ≤ z)%Z.
Proof. intros. unfold wrap64. apply Z.mod_le; lia. Qed.

Lemma inv_live_nonneg (extra : gmultiset Handle) (c : Client.config) :
  inv extra c → (0 ≤ live_charge (LRUCache.heap (Client.shard c)))%Z.
Proof. intros Hinv. apply live_charge_nonneg. apply (inv_charge _ _ Hinv). Qed.

(** Every allocated entry is on the LRU list or held by a caller. *)
Lemma inv_heap_dom (c : Client.config) (h : Handle) (e : LRUHandle.t) :
  inv ∅ c → LRUCache.heap (Client.shard c) !! h = Some e →
  h ∈ LRUCache.lru_ (Client.shard c) ∨ h ∈ Client.held c.
Proof.
  intros Hinv He. destruct (inv_refs _ _ Hinv h e He) as [Hr1 Hr2].
  rewrite multiplicity_empty in Hr2.
  destruct (in_cache_cases (Client.shard c) h) as [[? _]|[_ Hc]]; [by left|].
  right. apply elem_of_multiplicity. lia.
Qed.

Lemma filter_all {A} (P : A → Prop) `{!∀ x, Decision (P x)} (l : list A) :
  (∀ x, x ∈ l → P x) → filter P l = l.
Proof.
  induction l as [|a l IH]; intros Hall; [done|].
  rewrite filter_cons_True by (apply Hall; by left).
  rewrite IH; [done|]. intros x Hx. apply Hall. by right.
Qed.

Lemma LRU_Remove_head (old : Handle) (l : list Handle) :
  NoDup (old :: l) → LRUCache.LRU_Remove old (old :: l) = l.
Proof.
  intros [Hn Hnd]%NoDup_cons. unfold LRUCache.LRU_Remove.
  rewrite filter_cons_False by (intros Hne; by apply Hne).
  apply filter_all. intros x Hx ->. done.
Qed.

Lemma evict_one_frame (s s1 : LRUCache.t) (old : Handle) :
  LRUCache.evict_one s old = Some s1 →
  (∀ x, x ≠ old → LRUCache.heap s1 !! x = LRUCache.heap s !! x) ∧
  (∀ en', LRUCache.heap s1 !! old = Some en' →
     ∃ en, LRUCache.heap s !! old = Some en ∧
           LRUHandle.charge en' = LRUHandle.charge en).
Proof.
  unfold LRUCache.evict_one. cbn [LRUCache.heap LRUCache.set_lru].
  intros He. destruct (LRUCache.heap s !! old) as [en|] eqn:Hen; [|done].
  cbn [mbind option_bind] in He.
  destruct (HandleTable.Remove _ _ _ _) as [r|]; [|done].
  cbn [mbind option_bind] in He.
  apply Unref_frame in He as (_ & _ & _ & _ & Ho & Hs). simpl in Ho, Hs.
  split; [done|]. intros en' Hen'. destruct (Hs en' Hen') as (en0 & H0 & ->).
  exists en0. split; [congruence|done].
Qed.

(** The eviction loop of [Insert]: it drops entries from the old end of the
    LRU list and nothing else, it drops none when usage is within the
    capacity, and it stops before the newest entry when that entry and the
    entries that callers hold fit in the capacity together. *)
Lemma evict_spec (fuel : nat) (s : LRUCache.t) (held : gmultiset Handle)
    (born : gmap Handle LRUHandle.t) :
  inv ∅ (Client.Config s held born) → length (LRUCache.lru_ s) ≤ fuel →
  ∃ s' n, LRUCache.evict fuel s = Some s' ∧
    inv ∅ (Client.Config s' held born) ∧
    LRUCache.lru_ s' = drop n (LRUCache.lru_ s) ∧
    ((LRUCache.usage_ s' ≤ LRUCache.capacity_ s')%Z ∨ LRUCache.lru_ s' = []) ∧
    LRUCache.capacity_ s' = LRUCache.capacity_ s ∧
    ((LRUCache.usage_ s ≤ LRUCache.capacity_ s)%Z → n = 0 ∧ s' = s) ∧
    (∀ x, x ∈ LRUCache.lru_ s' → LRUCache.heap s' !! x = LRUCache.heap s !! x) ∧
    (live_charge (LRUCache.heap s') ≤ live_charge (LRUCache.heap s))%Z ∧
    (∀ e l, LRUCache.lru_ s = l ++ [e] → e ∈ held →
       (pinned_charge held (LRUCache.heap s) ≤ LRUCache.capacity_ s)%Z →
       (live_charge (LRUCache.heap s) < 2 ^ 64)%Z →
       n ≤ length l ∧ (LRUCache.usage_ s' ≤ LRUCache.capacity_ s')%Z).
Proof.
  revert s. induction fuel as [|fuel IH]; intros s Hinv Hlen.
  - destruct (LRUCache.lru_ s) as [|old l0] eqn:Hl; [|simpl in Hlen; lia].
    exists s, 0. simpl. rewrite Hl. split_and!; try done; try lia.
    + by right.
    + intros e l Hle. by destruct l.
  - destruct (LRUCache.lru_ s) as [|old l0] eqn:Hl.
    + exists s, 0. simpl. rewrite Hl. split_and!; try done; try lia.
      * by right.
      * intros e l Hle. by destruct l.
    + simpl. rewrite Hl.
      destruct (Z.ltb_spec (LRUCache.capacity_ s) (LRUCache.usage_ s)) as [Hlt|Hge].
      * destruct (evict_one_inv s held born old Hinv)
          as (s1 & He & Hi1 & Hc1 & Hl1 & Hb1 & Ht1).
        { rewrite Hl. by left. }
        pose proof (inv_lru_nodup _ _ Hinv) as Hnd. simpl in Hnd.
        rewrite Hl in Hnd, Hl1. rewrite (LRU_Remove_head _ _ Hnd) in Hl1.
        destruct (evict_one_frame _ _ _ He) as [Hfr Hfo].
        assert (Hlive1 : (live_charge (LRUCache.heap s1)
                          ≤ live_charge (LRUCache.heap s))%Z).
        { pose proof (inv_tracker _ _ Hinv) as T0.
          pose proof (inv_tracker _ _ Hi1) as T1. simpl in T0, T1. lia. }
        rewrite He. simpl.
        destruct (IH s1 Hi1)
          as (s' & n' & He' & Hi' & Hl' & Hx & Hc' & _ & Hfr' & Hlive' & Hkeep).
        { rewrite Hl1. simpl in Hlen. lia. }
        exists s', (S n'). split; [done|].
        split_and!; first [done | congruence | lia | idtac].
        -- rewrite Hl', Hl1. done.
        -- intros x Hx'. rewrite (Hfr' x Hx'). apply Hfr. intros ->.
           rewrite Hl', Hl1 in Hx'. apply NoDup_cons in Hnd as [Hn _].
           apply Hn. by apply (subseteq_drop n' l0).
        -- intros e l Hle Heh Hpin Hsum.
           destruct l as [|a l1]; simpl in Hle; injection Hle as <- Hl0.
           ++ exfalso.
              assert (Hall : pinned_charge held (LRUCache.heap s)
                             = live_charge (LRUCache.heap s)).
              { apply pinned_charge_all. intros h en Hh.
                destruct (inv_heap_dom _ h en Hinv Hh) as [Hin|Hin];
                  simpl in Hin; [|done].
                rewrite Hl, Hl0 in Hin. by apply list_elem_of_singleton in Hin as ->. }
              pose proof (inv_usage _ _ Hinv) as Hu. simpl in Hu.
              pose proof (inv_live_nonneg _ _ Hinv) as Hnn. simpl in Hnn.
              rewrite wrap64_small in Hu by lia. lia.
           ++ destruct (Hkeep e l1) as [Hn' Hu']; [by rewrite Hl1|done| |lia|].
              { rewrite Hc1.
                rewrite (pinned_charge_ext held held (LRUCache.heap s)
                           (LRUCache.heap s1)); [done|].
                intros x. destruct (decide (x ∈ held)) as [Hxh|]; [|done].
                destruct (decide (x = old)) as [-> |Hne]; [|by rewrite Hfr].
                destruct (inv_held_live _ _ Hi1 old Hxh) as [en' Hen'].
                simpl in Hen'. destruct (Hfo en' Hen') as (en & Hen & Hch).
                rewrite Hen', Hen. simpl. by rewrite Hch. }
              split; [simpl; lia|done].
      * exists s, 0. split_and!; first [done | lia].
Qed.

(** [Insert] up to its eviction loop: the new entry is allocated, linked in
    as the newest and chained in the table, and the entry it replaces is
    unlinked and unreferenced. *)
Lemma Insert_steps (s : LRUCache.t) (held : gmultiset Handle)
    (born : gmap Handle LRUHandle.t) (k : string) (hs v chg del : Z) :
  inv ∅ (Client.Config s held born) → (0 ≤ chg)%Z →
  (Z.of_nat (length (LRUCache.lru_ s)) < 2 ^ 31)%Z →
  ∃ s3 old,
    HandleTable.Lookup (LRUCache.heap s) (LRUCache.table_ s) k hs = Some old ∧
    LRUCache.Insert s k hs v chg del
      = LRUCache.evict (length (LRUCache.lru_ s3)) s3
          ≫= (λ s4, Some (s4, LRUCache.brk s)) ∧
    inv ∅ (Client.Config s3 (held ⊎ {[+ LRUCache.brk s +]})
             (<[LRUCache.brk s := LRUHandle.Make v del chg k 2 hs]> born)) ∧
    LRUCache.lru_ s3
      = filter (λ x, Some x ≠ old) (LRUCache.lru_ s) ++ [LRUCache.brk s] ∧
    LRUCache.capacity_ s3 = LRUCache.capacity_ s ∧
    LRUCache.heap s3 !! LRUCache.brk s
      = Some (LRUHandle.Make v del chg k 2 hs) ∧
    (∀ x, x ∈ LRUCache.lru_ s3 → x ≠ LRUCache.brk s →
          LRUCache.heap s3 !! x = LRUCache.heap s !! x) ∧
    (∀ x, x ∈ held →
          LRUHandle.charge <$> LRUCache.heap s3 !! x
          = LRUHandle.charge <$> LRUCache.heap s !! x) ∧
    (LRUCache.brk s ∉ held) ∧
    LRUCache.heap s !! LRUCache.brk s = None ∧
    (live_charge (LRUCache.heap s3) ≤ live_charge (LRUCache.heap s) + chg)%Z ∧
    (∀ o, old = Some o →
       ∃ e, LRUCache.heap s !! o = Some e ∧ o ∈ LRUCache.lru_ s ∧
         LRUHandle.key e = k ∧ LRUHandle.hash e = hs ∧
         (((o ∉ held) ∧ LRUCache.heap s3 !! o = None ∧
           LRUCache.deleter_calls s3
           = LRUCache.deleter_calls s ++
               [LRUCache.Call o (LRUHandle.deleter e) (LRUHandle.key e)
                  (LRUHandle.value e)]) ∨
          (o ∈ held ∧
           LRUCache.heap s3 !! o
           = Some (LRUHandle.set_refs (LRUHandle.refs e - 1) e) ∧
           LRUCache.deleter_calls s3 = LRUCache.deleter_calls s))).
Proof.
  intros Hinv Hchg Hlen.
  pose proof Hinv as [I1 I2 I3 I4 I5 I6 I7 I8 I9 I10 I11 I12 I13 I14 I15].
  simpl in *.
  assert (Hfresh : LRUCache.heap s !! LRUCache.brk s = None).
  { destruct (LRUCache.heap s !! LRUCache.brk s) eqn:Hq; [|done].
    assert (LRUCache.brk s < LRUCache.brk s) by (apply I9; eauto). lia. }
  assert (Hnheld : LRUCache.brk s ∉ held).
  { intros Hh%I5. destruct Hh as [? Hh]. by rewrite Hfresh in Hh. }
  assert (Hwf1 : table_wf
            (<[LRUCache.brk s := LRUHandle.Make v del chg k 2 hs]> (LRUCache.heap s))
            (LRUCache.table_ s)).
  { eapply table_wf_heap; [|exact I1]. intros h e' Hh He'. exists e'.
    rewrite lookup_insert_ne; [done|]. intros <-. by rewrite Hfresh in He'. }
  assert (Hnotin : LRUCache.brk s ∉ tbl_elems (LRUCache.table_ s)).
  { intros Hh%I3%I4. destruct Hh as [? Hh]. by rewrite Hfresh in Hh. }
  assert (Hnotlru : LRUCache.brk s ∉ LRUCache.lru_ s).
  { intros Hh%I3. done. }
  assert (Helems : (HandleTable.elems_ (LRUCache.table_ s) < 2 ^ 31)%Z).
  { rewrite (wf_elems _ _ I1).
    assert (Hp : tbl_elems (LRUCache.table_ s) ≡ₚ LRUCache.lru_ s).
    { apply NoDup_Permutation; [apply (wf_nodup _ _ I1)|done|].
      intros x. symmetry. apply I3. }
    rewrite Hp. lia. }
  assert (Hmatch : ∀ x, x ∈ tbl_elems (LRUCache.table_ s) →
            matches (<[LRUCache.brk s := LRUHandle.Make v del chg k 2 hs]>
                       (LRUCache.heap s)) k hs x →
            matches (LRUCache.heap s) k hs x).
  { intros x Hx (ex & Hex & ?). exists ex. split; [|done].
    rewrite lookup_insert_ne in Hex; [done|]. by intros <-. }
  destruct (Insert_table_spec _ _ (LRUCache.brk s) _ Hwf1
              (lookup_insert_eq _ _ _) Hnotin Helems)
    as (tb' & old & Hins & Hwf' & Hmem & HS & HN).
  simpl in HS, HN.
  unfold LRUCache.Insert. simpl. rewrite Hins. simpl.
  destruct old as [o|].
  - destruct (HS o eq_refl) as [Ho Hmo].
    assert (Hne : o ≠ LRUCache.brk s) by (intros ->; done).
    match goal with |- context [LRUCache.Unref ?S o] => set (s2 := S) end.
    assert (Hi2 : inv {[+ o +]}
              (Client.Config s2 (held ⊎ {[+ LRUCache.brk s +]})
                 (<[LRUCache.brk s := LRUHandle.Make v del chg k 2 hs]> born))).
    { apply (inv_inserted s held born k hs v chg del tb'
               (LRUCache.LRU_Remove o
                  (LRUCache.LRU_Append (LRUCache.brk s) (LRUCache.lru_ s)))
               {[+ o +]}); try done;
        unfold LRUCache.LRU_Remove, LRUCache.LRU_Append.
      - apply NoDup_filter. apply NoDup_app. split_and!; [done| |apply NoDup_singleton].
        intros x Hx ->%list_elem_of_singleton. done.
      - intros x. rewrite list_elem_of_filter, elem_of_app, list_elem_of_singleton.
        rewrite Hmem, I3. split.
        + intros [? [?| ->]]; [right|by left]. split; [done|]. by intros [= ->].
        + intros [-> |[? Hn]]; [split; [done|by right]|].
          split; [|by left]. intros ->. done.
      - intros x. rewrite list_elem_of_filter, elem_of_app, list_elem_of_singleton.
        tauto.
      - rewrite list_elem_of_filter, elem_of_app, list_elem_of_singleton.
        split; [done|by right].
      - intros x Hx. unfold in_cache.
        destruct (decide (x = o)) as [-> |Hxo].
        + rewrite multiplicity_singleton_eq.
          rewrite decide_True by (by apply I3).
          rewrite decide_False; [lia|]. rewrite list_elem_of_filter. tauto.
        + rewrite multiplicity_singleton_ne by done.
          destruct (decide (x ∈ LRUCache.lru_ s)) as [Hin|Hin].
          * rewrite decide_True; [lia|].
            rewrite list_elem_of_filter, elem_of_app. tauto.
          * rewrite decide_False; [lia|].
            rewrite list_elem_of_filter, elem_of_app, list_elem_of_singleton.
            tauto.
      - by apply multiplicity_singleton_ne.
      - intros x ->%gmultiset_elem_of_singleton. by apply I3. }
    destruct (Unref_inv _ _ _ _ Hi2) as (s3 & Hu & Hi3 & Hc3 & Hl3 & _ & Hb3 & Ht3).
    rewrite Hu. cbn [mbind option_bind].
    destruct (Unref_frame _ _ _ Hu) as (_ & _ & _ & _ & Hfr & Hfo).
    simpl in Hfr, Hfo.
    exists s3, (Some o). split_and!; try done.
    + apply Lookup_table_Some; [done..|]. by apply Hmatch.
    + rewrite Hl3. simpl. unfold LRUCache.LRU_Remove, LRUCache.LRU_Append.
      rewrite filter_app. f_equal.
      * apply list_filter_iff. intros x. split; [by intros ? [= ->]|].
        intros Hx ->. done.
      * by rewrite filter_cons_True by done.
    + rewrite Hfr by done. apply lookup_insert_eq.
    + intros x Hx Hxe. rewrite Hl3 in Hx. simpl in Hx.
      apply list_elem_of_filter in Hx as [Hxo _].
      rewrite Hfr by done. by rewrite lookup_insert_ne.
    + intros x Hx. assert (x ≠ LRUCache.brk s) as Hxe by (by intros ->).
      destruct (decide (x = o)) as [-> |Hxo].
      * destruct (inv_held_live _ _ Hi3 o) as [en' Hen'].
        { apply gmultiset_elem_of_disj_union. by left. }
        simpl in Hen'. destruct (Hfo en' Hen') as (en & Hen & ->).
        rewrite lookup_insert_ne in Hen by done. by rewrite Hen', Hen.
      * rewrite Hfr by done. by rewrite lookup_insert_ne.
    + pose proof (inv_tracker _ _ Hi3) as T3. simpl in T3, Ht3. lia.
    + intros o' [= <-]. destruct Hmo as (eo & Heo & Hhs & Hk).
      destruct (inv_refs _ _ Hi2 o eo Heo) as [Hb Hr]. simpl in Hr.
      assert (Hic : in_cache s2 o = 0%Z).
      { unfold in_cache, s2. simpl. rewrite decide_False; [done|].
        unfold LRUCache.LRU_Remove. rewrite list_elem_of_filter. tauto. }
      rewrite Hic, multiplicity_disj_union, multiplicity_singleton_eq,
        multiplicity_singleton_ne in Hr by done.
      rewrite (Unref_spec s2 o eo Heo Hb) in Hu.
      exists eo. rewrite lookup_insert_ne in Heo by done.
      split_and!; [done|by apply I3|done..|].
      destruct (decide (LRUHandle.refs eo = 1%Z)) as [H1|H1];
        injection Hu as <-; simpl; [left|right].
      * split_and!; [|by rewrite lookup_delete_eq|done].
        apply not_elem_of_multiplicity. lia.
      * split_and!; [|by rewrite lookup_insert_eq|done].
        apply elem_of_multiplicity. lia.
  - match goal with |- context [Some ?S ≫= _] => set (s2 := S) end.
    assert (Hi2 : inv ∅
              (Client.Config s2 (held ⊎ {[+ LRUCache.brk s +]})
                 (<[LRUCache.brk s := LRUHandle.Make v del chg k 2 hs]> born))).
    { apply (inv_inserted s held born k hs v chg del tb'
               (LRUCache.LRU_Append (LRUCache.brk s) (LRUCache.lru_ s)) ∅);
        try done; unfold LRUCache.LRU_Append.
      - apply NoDup_app. split_and!; [done| |apply NoDup_singleton].
        intros x Hx ->%list_elem_of_singleton. done.
      - intros x. rewrite elem_of_app, list_elem_of_singleton, Hmem, I3.
        split; [intros [?| ->]; [right; by split|by left]|].
        intros [-> |[? _]]; [by right|by left].
      - intros x. rewrite elem_of_app, list_elem_of_singleton. tauto.
      - rewrite elem_of_app, list_elem_of_singleton. by right.
      - intros x Hx. unfold in_cache. rewrite multiplicity_empty.
        destruct (decide (x ∈ LRUCache.lru_ s)) as [Hin|Hin].
        + rewrite decide_True; [lia|]. rewrite elem_of_app. tauto.
        + rewrite decide_False; [lia|].
          rewrite elem_of_app, list_elem_of_singleton. tauto.
      - intros x Hx. by apply gmultiset_not_elem_of_empty in Hx. }
    cbn [mbind option_bind].
    exists s2, None. split_and!; try done.
    + apply Lookup_table_None; [done|]. intros x Hx Hm.
      apply (HN eq_refl x Hx). destruct Hm as (ex & Hex & ?). exists ex.
      split; [|done]. rewrite lookup_insert_ne; [done|]. by intros <-.
    + simpl. unfold LRUCache.LRU_Append. f_equal. symmetry.
      by apply filter_all.
    + simpl. apply lookup_insert_eq.
    + intros x _ Hxe. simpl. by rewrite lookup_insert_ne.
    + intros x Hx. simpl. rewrite lookup_insert_ne; [done|]. by intros <-.
    + simpl. rewrite live_charge_insert by done. simpl. lia.
Qed.

(** An insert that fits: the new entry stays cached and is found. *)
Lemma Insert_fits (s : LRUCache.t) (held : gmultiset Handle)
    (born : gmap Handle LRUHandle.t) (k : string) (hs v chg del : Z) :
  inv ∅ (Client.Config s held born) → (0 ≤ chg)%Z →
  (Z.of_nat (length (LRUCache.lru_ s)) < 2 ^ 31)%Z →
  (pinned_charge held (LRUCache.heap s) + chg ≤ LRUCache.capacity_ s)%Z →
  (live_charge (LRUCache.heap s) + chg < 2 ^ 64)%Z →
  ∃ s', LRUCache.Insert s k hs v chg del = Some (s', LRUCache.brk s) ∧
    inv ∅ (Client.Config s' (held ⊎ {[+ LRUCache.brk s +]})
             (<[LRUCache.brk s := LRUHandle.Make v del chg k 2 hs]> born)) ∧
    (LRUCache.usage_ s' ≤ LRUCache.capacity_ s)%Z ∧
    (∃ l, LRUCache.lru_ s' = l ++ [LRUCache.brk s]) ∧
    LRUCache.heap s' !! LRUCache.brk s
      = Some (LRUHandle.Make v del chg k 2 hs) ∧
    ∃ s'', LRUCache.Lookup s' k hs = Some (s'', Some (LRUCache.brk s)).
Proof.
  intros Hinv Hchg Hlen Hpin Hsum.
  destruct (Insert_steps s held born k hs v chg del Hinv Hchg Hlen)
    as (s3 & old & _ & Hins & Hi3 & Hl3 & Hc3 & He3 & _ & Hheld & Hnh & Hfresh
        & Hlive3 & _).
  destruct (evict_spec (length (LRUCache.lru_ s3)) s3 _ _ Hi3 (le_n _))
    as (s4 & n & Hev & Hi4 & Hl4 & _ & Hc4 & _ & Hfr & _ & Hkeep).
  assert (Hnew : LRUCache.brk s ∈ held ⊎ {[+ LRUCache.brk s +]}).
  { apply gmultiset_elem_of_disj_union. right.
    by apply gmultiset_elem_of_singleton. }
  destruct (Hkeep _ _ Hl3 Hnew) as [Hn Hu].
  { rewrite Hc3.
    rewrite (pinned_charge_ext (held ⊎ {[+ LRUCache.brk s +]}) _
               (<[LRUCache.brk s := LRUHandle.Make v del chg k 2 hs]>
                  (LRUCache.heap s))).
    - rewrite pinned_charge_insert by done. simpl. lia.
    - intros x. destruct (decide (x ∈ _)) as [Hx|]; [|done].
      apply gmultiset_elem_of_disj_union in Hx as [Hx|Hx].
      + rewrite (Hheld x Hx). rewrite lookup_insert_ne; [done|]. by intros <-.
      + apply gmultiset_elem_of_singleton in Hx as ->.
        by rewrite He3, lookup_insert_eq. }
  { pose proof (inv_live_nonneg _ _ Hinv). simpl in *. lia. }
  rewrite Hl3, drop_app_le in Hl4 by done.
  assert (Hin : LRUCache.brk s ∈ LRUCache.lru_ s4).
  { rewrite Hl4, elem_of_app, list_elem_of_singleton. by right. }
  assert (He4 : LRUCache.heap s4 !! LRUCache.brk s
                = Some (LRUHandle.Make v del chg k 2 hs)).
  { by rewrite (Hfr _ Hin). }
  exists s4. rewrite Hins, Hev. split; [done|]. split_and!.
  - done.
  - lia.
  - eauto.
  - done.
  - unfold LRUCache.Lookup.
    rewrite (Lookup_table_Some _ _ k hs (LRUCache.brk s)).
    + simpl. rewrite He4. simpl. eauto.
    + apply (inv_table _ _ Hi4).
    + by apply (inv_lru_table _ _ Hi4).
    + eexists. split; [exact He4|done].
Qed.

(** X6.  An insert whose charge, together with the charges of the entries
    to which callers hold handles, is within the capacity of the shard (the
    sum of the live charges staying below 2^64): [Insert] returns with usage
    within the capacity, the new entry is the newest of the LRU list, it
    carries the value, the deleter, the charge and the key it was inserted
    with, and [Lookup] of its key and hash returns it. *)
Theorem Insert_within_capacity (capacity : Z) (c : Client.config)
    (k : string) (hs v chg del : Z) :
  Client.reachable capacity c →
  Client.valid (Client.Insert k hs v chg del) c →
  (pinned_charge (Client.held c) (LRUCache.heap (Client.shard c)) + chg
   ≤ capacity)%Z →
  (live_charge (LRUCache.heap (Client.shard c)) + chg < 2 ^ 64)%Z →
  ∃ s', LRUCache.Insert (Client.shard c) k hs v chg del
          = Some (s', LRUCache.brk (Client.shard c)) ∧
    (LRUCache.usage_ s' ≤ capacity)%Z ∧
    (∃ l, LRUCache.lru_ s' = l ++ [LRUCache.brk (Client.shard c)]) ∧
    LRUCache.heap s' !! LRUCache.brk (Client.shard c)
      = Some (LRUHandle.Make v del chg k 2 hs) ∧
    ∃ s'', LRUCache.Lookup s' k hs
           = Some (s'', Some (LRUCache.brk (Client.shard c))).
Proof.
  destruct c as [s held born]. simpl. intros Hreach [Hchg Hlen] Hpin Hsum.
  destruct (reachable_inv _ _ Hreach) as [Hinv Hc0]. simpl in Hc0.
  rewrite <- Hc0 in Hpin.
  destruct (Insert_fits s held born k hs v chg del Hinv Hchg Hlen Hpin Hsum)
    as (s' & Hi & _ & Hu & Hl & He & Hlk).
  exists s'. rewrite <- Hc0. split; [exact Hi|]. split; [exact Hu|].
  split; [exact Hl|]. split; [exact He|exact Hlk].
Qed.

(** Into a shard of capacity 5 that holds ["A"] and ["B"], of charge 2 each
    and released, ["C"] of charge 2 is inserted: usage is back to 4 and
    ["C"] is found. *)
Lemma Insert_within_capacity_witness :
  ∃ s', LRUCache.Insert (Client.shard ab_released) "C" 11 102 2 1
          = Some (s', 2) ∧
    (LRUCache.usage_ s' ≤ 5)%Z ∧
    (∃ l, LRUCache.lru_ s' = l ++ [2]) ∧
    LRUCache.heap s' !! 2 = Some (LRUHandle.Make 102 1 2 "C" 2 11) ∧
    ∃ s'', LRUCache.Lookup s' "C" 11 = Some (s'', Some 2).
Proof.
  apply (Insert_within_capacity 5 ab_released "C" 11 102 2 1
           ab_released_reachable).
  - vm_compute. split; [discriminate|reflexivity].
  - vm_compute. discriminate.
  - vm_compute. reflexivity.
Defined.

(** X7.  In every state a caller can bring a shard to, [Insert] returns the
    new entry, and the LRU list it leaves is an end of the list made of the
    entries cached before, in their order and without the entry of the same
    key and hash that the new one replaces, followed by the new entry:
    evictions take the least recently used entries first, and nothing else
    leaves the cache.  When the live charges and the new charge fit in the
    capacity, no entry is evicted.  On return usage is within the capacity
    or the LRU list is empty, and the entries that stay cached are as they
    were. *)
Theorem Insert_evicts_oldest (capacity : Z) (c : Client.config)
    (k : string) (hs v chg del : Z) :
  Client.reachable capacity c →
  Client.valid (Client.Insert k hs v chg del) c →
  ∃ s' old n,
    LRUCache.Insert (Client.shard c) k hs v chg del
      = Some (s', LRUCache.brk (Client.shard c)) ∧
    HandleTable.Lookup (LRUCache.heap (Client.shard c))
      (LRUCache.table_ (Client.shard c)) k hs = Some old ∧
    LRUCache.lru_ s'
      = drop n (filter (λ x, Some x ≠ old) (LRUCache.lru_ (Client.shard c))
                ++ [LRUCache.brk (Client.shard c)]) ∧
    ((live_charge (LRUCache.heap (Client.shard c)) + chg ≤ capacity)%Z →
     n = 0) ∧
    ((LRUCache.usage_ s' ≤ capacity)%Z ∨ LRUCache.lru_ s' = []) ∧
    (∀ x, x ∈ LRUCache.lru_ s' → x ≠ LRUCache.brk (Client.shard c) →
          LRUCache.heap s' !! x = LRUCache.heap (Client.shard c) !! x).
Proof.
  destruct c as [s held born]. simpl. intros Hreach [Hchg Hlen].
  destruct (reachable_inv _ _ Hreach) as [Hinv Hc0]. simpl in Hc0.
  destruct (Insert_steps s held born k hs v chg del Hinv Hchg Hlen)
    as (s3 & old & Hold & Hins & Hi3 & Hl3 & Hc3 & He3 & Hfr3 & _ & _ & _
        & Hlive3 & _).
  destruct (evict_spec (length (LRUCache.lru_ s3)) s3 _ _ Hi3 (le_n _))
    as (s4 & n & Hev & Hi4 & Hl4 & Hx4 & Hc4 & Hstay & Hfr & _ & _).
  exists s4, old, n. rewrite Hins, Hev. split; [done|]. split_and!.
  - done.
  - by rewrite Hl4, Hl3.
  - intros Hfit. apply Hstay.
    pose proof (inv_usage _ _ Hi3) as Hu. simpl in Hu.
    pose proof (inv_live_nonneg _ _ Hi3) as Hnn. simpl in Hnn.
    pose proof (wrap64_le _ Hnn). lia.
  - rewrite Hc4, Hc3, Hc0 in Hx4. done.
  - intros x Hx Hne. rewrite (Hfr x Hx). apply Hfr3; [|done].
    rewrite Hl4 in Hx. by apply (subseteq_drop n (LRUCache.lru_ s3)).
Qed.

(** The same insert evicts ["A"], the least recently used entry, and keeps
    ["B"]. *)
Lemma Insert_evicts_oldest_witness :
  ∃ s' (old : option Handle) n,
    LRUCache.Insert (Client.shard ab_released) "C" 11 102 2 1 = Some (s', 2) ∧
    old = None ∧ n = 1 ∧ LRUCache.lru_ s' = [1; 2].
Proof.
  destruct (Insert_evicts_oldest 5 ab_released "C" 11 102 2 1
              ab_released_reachable) as (s' & old & n & Hi & Ho & Hl & _).
  { vm_compute. split; [discriminate|reflexivity]. }
  exists s', old, n. split; [exact Hi|].
  vm_compute in Hi. injection Hi as <-.
  vm_compute in Ho. injection Ho as <-.
  split; [reflexivity|].
  assert (Hn : n = 1).
  { vm_compute in Hl. destruct n as [|[|[|n]]]; simpl in Hl;
      first [reflexivity | discriminate Hl | destruct n; discriminate Hl]. }
  split; [exact Hn|]. vm_compute. reflexivity.
Defined.

(** What one operation does to the live charges and to the LRU list. *)
Lemma run_usage (o : Client.op) (c c' : Client.config) :
  inv ∅ c → Client.valid o c → Client.run o c = Some c' →
  inv ∅ c' ∧
  LRUCache.capacity_ (Client.shard c') = LRUCache.capacity_ (Client.shard c) ∧
  match o with
  | Client.Insert _ _ _ chg _ =>
      (0 ≤ chg)%Z ∧
      (live_charge (LRUCache.heap (Client.shard c'))
       ≤ live_charge (LRUCache.heap (Client.shard c)) + chg)%Z ∧
      ((LRUCache.usage_ (Client.shard c')
        ≤ LRUCache.capacity_ (Client.shard c'))%Z ∨
       LRUCache.lru_ (Client.shard c') = [])
  | _ =>
      (live_charge (LRUCache.heap (Client.shard c'))
       ≤ live_charge (LRUCache.heap (Client.shard c)))%Z ∧
      (LRUCache.lru_ (Client.shard c) = [] →
       LRUCache.lru_ (Client.shard c') = [])
  end.
Proof.
  destruct c as [s held born]. intros Hinv Hv Hrun.
  pose proof (inv_tracker _ _ Hinv) as T0. simpl in T0.
  destruct o as [k hs v chg del|k hs|h|k hs]; simpl in *.
  - destruct Hv as [Hchg Hlen].
    destruct (Insert_inv s held born k hs v chg del Hinv Hchg Hlen)
      as (s' & Hi & Hinv' & Hx & Hc & Ht).
    rewrite Hi in Hrun. simpl in Hrun. injection Hrun as <-. simpl.
    pose proof (inv_tracker _ _ Hinv') as T1. simpl in T1.
    split_and!; first [done | lia].
  - destruct (Lookup_inv s held born k hs Hinv Hv)
      as (s' & r & Hl & Hinv' & Hc & HS & HN).
    rewrite Hl in Hrun. simpl in Hrun. injection Hrun as <-. simpl.
    pose proof (inv_tracker _ _ Hinv') as T1. simpl in T1.
    split_and!; try done.
    + destruct r as [e|]; [|by destruct (HN eq_refl) as [-> _]].
      unfold LRUCache.Lookup in Hl.
      destruct (HandleTable.Lookup _ _ _ _) as [[x|]|]; simpl in Hl; [|done..].
      destruct (LRUCache.heap s !! x); [|done]. simpl in Hl.
      injection Hl as <- _. simpl in *. lia.
    + intros Hnil. destruct r as [e|]; [|by destruct (HN eq_refl) as [-> _]].
      destruct (HS e eq_refl) as [He _]. rewrite Hnil in He.
      by apply elem_of_nil in He.
  - destruct (Unref_inv s _ born h (inv_release _ _ _ _ Hinv Hv))
      as (s' & Hu & Hinv' & Hc & Hl & _ & _ & Ht).
    unfold LRUCache.Release in Hrun. rewrite Hu in Hrun. simpl in Hrun.
    injection Hrun as <-. simpl.
    pose proof (inv_tracker _ _ Hinv') as T1. simpl in T1.
    split_and!; first [done | lia | congruence].
  - pose proof (inv_table _ _ Hinv) as Hwf. simpl in Hwf.
    destruct (Remove_table_spec _ _ k hs Hwf) as (tb' & r & Hr & Hwf' & HS & HN).
    unfold LRUCache.Erase in Hrun. rewrite Hr in Hrun. simpl in Hrun.
    destruct r as [e|].
    + destruct (HS e eq_refl) as (He & _ & Hmem).
      pose proof (inv_uncache s held born e tb' Hinv Hwf' Hmem He) as Hi.
      destruct (Unref_inv _ _ _ _ Hi) as (s' & Hu & Hinv' & Hc & Hl & _ & _ & Ht).
      assert (Hrun' : LRUCache.Unref
                (LRUCache.set_table tb'
                   (LRUCache.set_lru (LRUCache.LRU_Remove e (LRUCache.lru_ s)) s)) e
                ≫= (λ s0, Some (Client.Config s0 held born)) = Some c')
        by exact Hrun.
      rewrite Hu in Hrun'. simpl in Hrun'. injection Hrun' as <-. simpl.
      pose proof (inv_tracker _ _ Hinv') as T1. simpl in T1, Ht.
      split_and!; first [done | lia | idtac].
      intros Hnil. apply (inv_lru_table _ _ Hinv) in He. simpl in He.
      rewrite Hnil in He. by apply elem_of_nil in He.
    + destruct (HN eq_refl) as [-> _]. rewrite set_table_id in Hrun.
      injection Hrun as <-. simpl. split_and!; first [done | lia].
Qed.

Lemma exec_charge_nonneg (ops : list Client.op) (c c' : Client.config) :
  Client.exec ops c = Some c' → (0 ≤ inserted_charge ops)%Z.
Proof.
  revert c. induction ops as [|o ops IH]; intros c He; simpl in *; [done|].
  destruct (decide (Client.valid o c)) as [Hv|]; [|done].
  destruct (Client.run o c) as [c1|]; [|done]. simpl in He.
  apply IH in He. destruct o; simpl in *; lia.
Qed.

Lemma exec_usage (ops : list Client.op) (c c' : Client.config) :
  inv ∅ c →
  ((LRUCache.usage_ (Client.shard c) ≤ LRUCache.capacity_ (Client.shard c))%Z ∨
   LRUCache.lru_ (Client.shard c) = []) →
  (live_charge (LRUCache.heap (Client.shard c)) + inserted_charge ops
   < 2 ^ 64)%Z →
  Client.exec ops c = Some c' →
  inv ∅ c' ∧
  LRUCache.capacity_ (Client.shard c') = LRUCache.capacity_ (Client.shard c) ∧
  ((LRUCache.usage_ (Client.shard c') ≤ LRUCache.capacity_ (Client.shard c'))%Z ∨
   LRUCache.lru_ (Client.shard c') = []) ∧
  (live_charge (LRUCache.heap (Client.shard c')) < 2 ^ 64)%Z.
Proof.
  revert c. induction ops as [|o ops IH]; intros c Hinv HP Hsum He;
    simpl in *.
  - injection He as <-. split_and!; first [done | lia].
  - destruct (decide (Client.valid o c)) as [Hv|]; [|done].
    destruct (Client.run o c) as [c1|] eqn:Hrun; [|done]. simpl in He.
    pose proof (exec_charge_nonneg _ _ _ He) as Hnn.
    destruct (run_usage o c c1 Hinv Hv Hrun) as (Hinv1 & Hc1 & Hstep).
    pose proof (inv_usage _ _ Hinv) as U0.
    pose proof (inv_usage _ _ Hinv1) as U1.
    pose proof (inv_live_nonneg _ _ Hinv) as N0.
    pose proof (inv_live_nonneg _ _ Hinv1) as N1.
    assert (Hgoal : ((LRUCache.usage_ (Client.shard c1)
                      ≤ LRUCache.capacity_ (Client.shard c1))%Z ∨
                     LRUCache.lru_ (Client.shard c1) = []) ∧
                    (live_charge (LRUCache.heap (Client.shard c1))
                     + inserted_charge ops < 2 ^ 64)%Z).
    { destruct o as [k hs v chg del|k hs|h|k hs]; simpl in *.
      - destruct Hstep as (? & ? & ?). split; [done|lia].
      - destruct Hstep as [Hl Hnil]. split; [|lia].
        destruct HP as [HP|HP]; [left|right; auto].
        rewrite wrap64_small in U0, U1 by lia. lia.
      - destruct Hstep as [Hl Hnil]. split; [|lia].
        destruct HP as [HP|HP]; [left|right; auto].
        rewrite wrap64_small in U0, U1 by lia. lia.
      - destruct Hstep as [Hl Hnil]. split; [|lia].
        destruct HP as [HP|HP]; [left|right; auto].
        rewrite wrap64_small in U0, U1 by lia. lia. }
    destruct Hgoal as [HP1 Hsum1].
    destruct (IH c1 Hinv1 HP1 Hsum1 He) as (? & ? & ? & ?).
    split_and!; first [done | congruence].
Qed.

(** X8.  After any sequence of operations that a caller may issue on a new
    shard, the charges it has inserted being below 2^64 in total: usage has
    not wrapped, it is the sum of the charges of the entries not yet freed,
    and it is within the capacity unless the LRU list is empty.  A shard is
    over its capacity only by entries that callers hold and that it has
    already dropped. *)
Theorem usage_within_capacity_or_empty (capacity : Z)
    (ops : list Client.op) (c : Client.config) :
  Client.exec ops (Client.init capacity) = Some c →
  (inserted_charge ops < 2 ^ 64)%Z →
  LRUCache.usage_ (Client.shard c)
    = live_charge (LRUCache.heap (Client.shard c)) ∧
  ((LRUCache.usage_ (Client.shard c) ≤ capacity)%Z ∨
   LRUCache.lru_ (Client.shard c) = []).
Proof.
  intros He Hsum.
  assert (H0 : (live_charge (LRUCache.heap (Client.shard (Client.init capacity)))
                + inserted_charge ops < 2 ^ 64)%Z).
  { unfold live_charge. simpl. rewrite map_fold_empty. lia. }
  destruct (exec_usage ops (Client.init capacity) c (init_inv capacity)
              (or_intror eq_refl) H0 He) as (Hinv & Hc & HP & Hlive).
  pose proof (inv_usage _ _ Hinv) as U.
  pose proof (inv_live_nonneg _ _ Hinv) as N.
  rewrite wrap64_small in U by lia. simpl in Hc. rewrite Hc in HP. done.
Qed.

(** The caller of scenario 6, who keeps every handle: after ["A"] of charge
    10 into a shard of capacity 5, usage is 10 and the LRU list is empty. *)
Lemma usage_within_capacity_or_empty_witness :
  LRUCache.usage_ (Client.shard oversized)
    = live_charge (LRUCache.heap (Client.shard oversized)) ∧
  ((LRUCache.usage_ (Client.shard oversized) ≤ 5)%Z ∨
   LRUCache.lru_ (Client.shard oversized) = []).
Proof.
  apply (usage_within_capacity_or_empty 5 [Client.Insert "A" 7 100 10 1]).
  - vm_compute. reflexivity.
  - vm_compute. reflexivity.
Defined.

(** ** The destructor *)

(** The loop of [~LRUCache] over the entries [l] that are left: it frees
    those that no caller holds, and takes the cache's reference from the
    others. *)
Lemma dtor_loop_spec (l : list Handle) (s : LRUCache.t)
    (held : gmultiset Handle) :
  NoDup l →
  (∀ h, h ∈ l → is_Some (LRUCache.heap s !! h)) →
  (∀ h, h ∈ held → is_Some (LRUCache.heap s !! h)) →
  (∀ h e, LRUCache.heap s !! h = Some e →
     (1 ≤ LRUHandle.refs e < 2 ^ 32)%Z ∧
     LRUHandle.refs e = ((if decide (h ∈ l) then 1 else 0)
                         + Z.of_nat (multiplicity h held))%Z) →
  ∃ s' calls, LRUCache_dtor_loop l s = Some s' ∧
    (∀ h, is_Some (LRUCache.heap s' !! h) ↔
          is_Some (LRUCache.heap s !! h) ∧ (h ∉ l ∨ h ∈ held)) ∧
    (∀ h e', LRUCache.heap s' !! h = Some e' →
       ∃ e, LRUCache.heap s !! h = Some e ∧
            e' = LRUHandle.set_refs (Z.of_nat (multiplicity h held)) e) ∧
    (LRUCache.mem_tracker_ s' - live_charge (LRUCache.heap s')
     = LRUCache.mem_tracker_ s - live_charge (LRUCache.heap s))%Z ∧
    wrap64 (LRUCache.usage_ s' - live_charge (LRUCache.heap s'))
      = wrap64 (LRUCache.usage_ s - live_charge (LRUCache.heap s)) ∧
    LRUCache.deleter_calls s' = LRUCache.deleter_calls s ++ calls ∧
    Forall2 (λ d h, ∃ e, LRUCache.heap s !! h = Some e ∧
               d = LRUCache.Call h (LRUHandle.deleter e) (LRUHandle.key e)
                     (LRUHandle.value e))
      calls (filter (λ h, h ∉ held) l) ∧
    ((0 ≤ LRUCache.usage_ s < 2 ^ 64)%Z → (0 ≤ LRUCache.usage_ s' < 2 ^ 64)%Z).
Proof.
  revert s. induction l as [|e0 l IH]; intros s Hnd Hl Hh Hrefs.
  - exists s, []. simpl. split_and!; try done.
    + intros h. split; [|by intros [? _]]. intros ?. split; [done|].
      left. apply not_elem_of_nil.
    + intros h e' He'. exists e'. split; [done|].
      destruct (Hrefs h e' He') as [_ Hr]. rewrite decide_False in Hr
        by apply not_elem_of_nil.
      destruct e'. unfold LRUHandle.set_refs. simpl in *. f_equal. lia.
    + by rewrite app_nil_r.
  - apply NoDup_cons in Hnd as [Hn0 Hnd].
    destruct (Hl e0) as [en Hen]; [by left|].
    destruct (Hrefs e0 en Hen) as [Hb Hr].
    rewrite decide_True in Hr by (by left).
    simpl. rewrite (Unref_spec s e0 en Hen Hb). cbn [mbind option_bind].
    destruct (decide (LRUHandle.refs en = 1%Z)) as [H1|H1].
    + assert (Hnh : e0 ∉ held).
      { apply not_elem_of_multiplicity. lia. }
      match goal with |- context [LRUCache_dtor_loop l ?S] => set (s1 := S) end.
      destruct (IH s1 Hnd) as (s' & calls & Hd & Ha & Hb' & Hc & Hu & Hcalls & Hf & Hrng).
      { intros h Hin. simpl. rewrite lookup_delete_ne by (by intros <-).
        apply Hl. by right. }
      { intros h Hin. simpl. rewrite lookup_delete_ne by (by intros <-).
        by apply Hh. }
      { intros h e. simpl. intros [Hne He]%lookup_delete_Some.
        destruct (Hrefs h e He) as [? Hre]. split; [done|].
        rewrite Hre. destruct (decide (h ∈ e0 :: l)) as [Hin|Hin].
        - apply elem_of_cons in Hin as [?|Hin]; [done|].
          by rewrite decide_True.
        - rewrite decide_False; [done|]. intros ?. apply Hin. by right. }
      exists s', (LRUCache.Call e0 (LRUHandle.deleter en) (LRUHandle.key en)
                    (LRUHandle.value en) :: calls).
      split; [done|]. simpl in *. split_and!.
      * intros h. rewrite Ha, lookup_delete_is_Some, elem_of_cons. split.
        -- intros [[Hne ?] [?|?]]; (split; [done|]); [left|by right].
           intros [?|?]; done.
        -- intros [? [Hni|Hin]].
           ++ split; [split; [|done]|left].
              ** intros <-. apply Hni. by left.
              ** intros ?. apply Hni. by right.
           ++ split; [split; [|done]|by right]. by intros <-.
      * intros h e' He'. destruct (Hb' h e' He') as (e & [_ He]%lookup_delete_Some & ->).
        eauto.
      * rewrite Hc, (live_charge_delete _ _ _ Hen). lia.
      * rewrite Hu, (live_charge_delete (LRUCache.heap s) _ _ Hen).
        rewrite wrap64_sub. f_equal. lia.
      * by rewrite Hcalls, <- app_assoc.
      * rewrite filter_cons_True by done. constructor; [eauto|].
        eapply Forall2_impl; [exact Hf|]. simpl.
        intros d h (e & [_ He]%lookup_delete_Some & ->). eauto.
      * intros _. apply Hrng. unfold wrap64. apply Z.mod_pos_bound. lia.
    + assert (Hin : e0 ∈ held).
      { apply elem_of_multiplicity. lia. }
      match goal with |- context [LRUCache_dtor_loop l ?S] => set (s1 := S) end.
      destruct (IH s1 Hnd) as (s' & calls & Hd & Ha & Hb' & Hc & Hu & Hcalls & Hf & Hrng).
      { intros h Hin'. simpl. apply lookup_insert_is_Some'. right.
        apply Hl. by right. }
      { intros h Hin'. simpl. apply lookup_insert_is_Some'. right.
        by apply Hh. }
      { intros h e. simpl. destruct (decide (h = e0)) as [-> |Hne].
        - rewrite lookup_insert_eq. intros [= <-]. simpl.
          rewrite decide_False by done. lia.
        - rewrite lookup_insert_ne by done. intros He.
          destruct (Hrefs h e He) as [? Hre]. split; [done|].
          rewrite Hre. destruct (decide (h ∈ e0 :: l)) as [Hin'|Hin'].
          + apply elem_of_cons in Hin' as [?|Hin']; [done|].
            by rewrite decide_True.
          + rewrite decide_False; [done|]. intros ?. apply Hin'. by right. }
      exists s', calls. split; [done|]. simpl in *. split_and!.
      * intros h. rewrite Ha, lookup_insert_is_Some', elem_of_cons. split.
        -- intros [[-> |?] [Hni|?]].
           ++ split; [eauto|by right].
           ++ split; [eauto|by right].
           ++ split; [done|]. destruct (decide (h = e0)) as [-> |?];
                [by right|left]. intros [?|?]; done.
           ++ split; [done|by right].
        -- intros [? [Hni|?]].
           ++ split; [by right|left]. intros ?. apply Hni. by right.
           ++ split; [by right|by right].
      * intros h e' He'. destruct (Hb' h e' He') as (e & He & ->).
        destruct (decide (h = e0)) as [-> |Hne].
        -- rewrite lookup_insert_eq in He. injection He as <-.
           exists en. split; [done|]. by destruct en.
        -- rewrite lookup_insert_ne in He by done. eauto.
      * rewrite Hc, (live_charge_update _ _ en) by done. done.
      * rewrite Hu, (live_charge_update _ _ en) by done. done.
      * done.
      * rewrite filter_cons_False by (intros Hni; by apply Hni).
        eapply Forall2_impl; [exact Hf|]. simpl.
        intros d h (e & He & ->). destruct (decide (h = e0)) as [-> |Hne].
        -- rewrite lookup_insert_eq in He. injection He as <-.
           exists en. by split.
        -- rewrite lookup_insert_ne in He by done. eauto.
      * done.
Qed.

(** X9.  [~LRUCache] on a shard in any state its callers can bring it to:
    the loop returns, having called the deleter once, in LRU order, for
    every cached entry that no caller holds, with the key and the value of
    the entry, and having freed these entries.  The entries left allocated
    are exactly those to which callers still hold handles, each with [refs]
    equal to the number of its handles, and the tracker's consumption and
    usage are the sum of their charges.  When no handle is outstanding every
    entry is freed and the tracker's consumption and usage are 0. *)
Theorem LRUCache_dtor_frees (capacity : Z) (c : Client.config) :
  Client.reachable capacity c →
  ∃ s' calls, LRUCache_dtor (Client.shard c) = Some s' ∧
    (∀ h, is_Some (LRUCache.heap s' !! h) ↔ h ∈ Client.held c) ∧
    (∀ h e', LRUCache.heap s' !! h = Some e' →
       LRUHandle.refs e' = Z.of_nat (multiplicity h (Client.held c))) ∧
    LRUCache.deleter_calls s'
      = LRUCache.deleter_calls (Client.shard c) ++ calls ∧
    Forall2 (λ d h, ∃ e, LRUCache.heap (Client.shard c) !! h = Some e ∧
               d = LRUCache.Call h (LRUHandle.deleter e) (LRUHandle.key e)
                     (LRUHandle.value e))
      calls (filter (λ h, h ∉ Client.held c) (LRUCache.lru_ (Client.shard c))) ∧
    LRUCache.mem_tracker_ s' = live_charge (LRUCache.heap s') ∧
    LRUCache.usage_ s' = wrap64 (live_charge (LRUCache.heap s')) ∧
    (Client.held c = ∅ →
     LRUCache.heap s' = ∅ ∧ LRUCache.mem_tracker_ s' = 0%Z ∧
     LRUCache.usage_ s' = 0%Z).
Proof.
  intros Hreach. destruct (reachable_inv _ _ Hreach) as [Hinv _].
  destruct c as [s held born].
  pose proof Hinv as [I1 I2 I3 I4 I5 I6 I7 I8 I9 I10 I11 I12 I13 I14 I15].
  simpl in *.
  destruct (dtor_loop_spec (LRUCache.lru_ s) s held I2 I4 I5)
    as (s' & calls & Hd & Ha & Hb & Hc & Hu & Hcalls & Hf & Hrng).
  { intros h e He. destruct (I7 h e He) as [? Hr]. split; [done|].
    rewrite Hr, multiplicity_empty. unfold in_cache. lia. }
  assert (Hdom : ∀ h, is_Some (LRUCache.heap s' !! h) ↔ h ∈ held).
  { intros h. rewrite Ha. split.
    - intros [[e He] [Hni|?]]; [|done].
      by destruct (inv_heap_dom _ h e Hinv He).
    - intros Hin. split; [by apply I5|by right]. }
  assert (Htr : LRUCache.mem_tracker_ s' = live_charge (LRUCache.heap s'))
    by lia.
  assert (Hus : LRUCache.usage_ s' = wrap64 (live_charge (LRUCache.heap s'))).
  { rewrite I10, wrap64_sub, Z.sub_diag in Hu.
    assert (Hr : (0 ≤ LRUCache.usage_ s' < 2 ^ 64)%Z).
    { apply Hrng. rewrite I10. unfold wrap64. apply Z.mod_pos_bound. lia. }
    replace (live_charge (LRUCache.heap s'))
      with (LRUCache.usage_ s'
            - (LRUCache.usage_ s' - live_charge (LRUCache.heap s')))%Z by lia.
    unfold wrap64 in *. rewrite <- Zminus_mod_idemp_r, Hu.
    change (0 mod 2 ^ 64)%Z with 0%Z. rewrite Z.sub_0_r, Z.mod_small; done. }
  exists s', calls. split; [done|]. split_and!; try done.
  - intros h e' He'. by destruct (Hb h e' He') as (e & _ & ->).
  - intros ->.
    assert (Hem : LRUCache.heap s' = ∅).
    { apply map_empty. intros h. apply eq_None_not_Some. rewrite Hdom.
      apply gmultiset_not_elem_of_empty. }
    rewrite Hus, Htr, Hem. unfold live_charge. rewrite map_fold_empty. done.
Qed.

(** The shard with ["A"] and ["B"] cached and released is destroyed: both
    deleters run, oldest entry first, and nothing stays allocated. *)
Lemma LRUCache_dtor_frees_witness :
  ∃ s', LRUCache_dtor (Client.shard ab_released) = Some s' ∧
    LRUCache.heap s' = ∅ ∧ LRUCache.mem_tracker_ s' = 0%Z ∧
    LRUCache.usage_ s' = 0%Z ∧
    LRUCache.deleter_calls s'
    = [LRUCache.Call 0 1 "A" 100; LRUCache.Call 1 1 "B" 101].
Proof.
  destruct (LRUCache_dtor_frees 5 ab_released ab_released_reachable)
    as (s' & calls & Hd & _ & _ & _ & _ & _ & _ & Hfree).
  destruct Hfree as (Hh & Ht & Hu); [vm_compute; reflexivity|].
  exists s'. split; [exact Hd|]. split; [exact Hh|]. split; [exact Ht|].
  split; [exact Hu|]. vm_compute in Hd. injection Hd as <-.
  vm_compute. reflexivity.
Defined.

(** ** The sharded cache *)

(** X10.  Whatever the 64-bit hash function and the key, the hash that
    [HashSlice] returns is a 32-bit number, [Shard] of it is its top four
    bits, a number below [kNumShards], and the vector of shards that the
    constructor has filled has a shard at that index, whose capacity is
    [per_shard]: the operations of the sharded cache never index [shards_]
    out of range. *)
Theorem Shard_in_range (CityHash64 : string → Z) (key : string)
    (capacity : Z) :
  (0 ≤ ShardedLRUCache.HashSlice CityHash64 key < 2 ^ 32)%Z ∧
  ShardedLRUCache.Shard (ShardedLRUCache.HashSlice CityHash64 key)
    = (ShardedLRUCache.HashSlice CityHash64 key / 2 ^ 28)%Z ∧
  (0 ≤ ShardedLRUCache.Shard (ShardedLRUCache.HashSlice CityHash64 key)
     < ShardedLRUCache.kNumShards)%Z ∧
  ShardedLRUCache.shards_capacity capacity
    !! Z.to_nat (ShardedLRUCache.Shard
                   (ShardedLRUCache.HashSlice CityHash64 key))
  = Some (ShardedLRUCache.per_shard capacity).
Proof.
  assert (Hh : (0 ≤ ShardedLRUCache.HashSlice CityHash64 key < 2 ^ 32)%Z).
  { unfold ShardedLRUCache.HashSlice, wrap32. apply Z.mod_pos_bound. lia. }
  assert (Hs : ShardedLRUCache.Shard (ShardedLRUCache.HashSlice CityHash64 key)
               = (ShardedLRUCache.HashSlice CityHash64 key / 2 ^ 28)%Z).
  { unfold ShardedLRUCache.Shard, ShardedLRUCache.kNumShardBits.
    change (32 - 4)%Z with 28%Z. by rewrite Z.shiftr_div_pow2 by lia. }
  assert (Hr : (0 ≤ ShardedLRUCache.Shard
                      (ShardedLRUCache.HashSlice CityHash64 key)
                < ShardedLRUCache.kNumShards)%Z).
  { rewrite Hs. change ShardedLRUCache.kNumShards with 16%Z. split.
    - apply Z.div_pos; lia.
    - apply Z.div_lt_upper_bound; lia. }
  split; [exact Hh|]. split; [exact Hs|]. split; [exact Hr|].
  unfold ShardedLRUCache.shards_capacity. apply lookup_replicate_2. lia.
Qed.

(** X11.  The capacity the constructor gives each of the 16 shards.  For a
    capacity of at most 2^64 - 16 it is the capacity divided by 16 and
    rounded up: the shards together hold at least the capacity asked for,
    and less than 16 more.  For a capacity within 15 of the largest
    [size_t] the sum in the source wraps and each shard gets capacity 0. *)
Theorem per_shard_spec (capacity : Z) :
  ((0 ≤ capacity ≤ 2 ^ 64 - 16)%Z →
   (capacity ≤ ShardedLRUCache.kNumShards * ShardedLRUCache.per_shard capacity
      < capacity + 16)%Z) ∧
  ((2 ^ 64 - 16 < capacity < 2 ^ 64)%Z →
   ShardedLRUCache.per_shard capacity = 0%Z).
Proof.
  unfold ShardedLRUCache.per_shard.
  change ShardedLRUCache.kNumShards with 16%Z. split; intros Hc.
  - rewrite wrap64_small by lia.
    pose proof (Z.div_mod (capacity + (16 - 1)) 16 ltac:(lia)) as Hd.
    pose proof (Z.mod_pos_bound (capacity + (16 - 1)) 16 ltac:(lia)). lia.
  - unfold wrap64.
    replace (capacity + (16 - 1))%Z
      with ((capacity + 15 - 2 ^ 64) + 1 * 2 ^ 64)%Z by lia.
    rewrite Z.mod_add by lia. rewrite Z.mod_small by lia.
    apply Z.div_small. lia.
Qed.

Lemma NewIds_fresh (n : nat) (last_id_ : Z) :
  (0 ≤ last_id_)%Z → (last_id_ + Z.of_nat n < 2 ^ 64)%Z →
  ShardedLRUCache.NewIds n last_id_
  = ((last_id_ + Z.of_nat n)%Z,
     (λ i, (last_id_ + Z.of_nat i)%Z) <$> seq 1 n).
Proof.
  revert last_id_. induction n as [|n IH]; intros last H0 Hn.
  - simpl. f_equal. lia.
  - cbn [ShardedLRUCache.NewIds]. unfold ShardedLRUCache.NewId.
    cbn [fst snd]. rewrite wrap64_small by lia.
    rewrite IH by lia. cbn [fst snd]. f_equal; try lia.
    cbn [seq fmap list_fmap]. f_equal; try lia.
    rewrite <- (fmap_S_seq 1 n), <- list_fmap_compose.
    apply list_fmap_ext. intros i x _. simpl. lia.
Qed.

(** X12.  As long as the counter does not pass 2^64 - 1, successive calls of
    [NewId] return the successive numbers after it, so that on a new cache,
    whose counter is 0, the ids are 1, 2, 3, ...: they are all different and
    none is 0. *)
Theorem NewId_successive (n : nat) (last_id_ : Z) :
  (0 ≤ last_id_)%Z → (last_id_ + Z.of_nat n < 2 ^ 64)%Z →
  (ShardedLRUCache.NewIds n last_id_).1 = (last_id_ + Z.of_nat n)%Z ∧
  (ShardedLRUCache.NewIds n last_id_).2
    = (λ i, (last_id_ + Z.of_nat i)%Z) <$> seq 1 n ∧
  NoDup (ShardedLRUCache.NewIds n last_id_).2 ∧
  (∀ id, id ∈ (ShardedLRUCache.NewIds n last_id_).2 → (last_id_ < id)%Z).
Proof.
  intros H0 Hn. rewrite NewIds_fresh by done. cbn [fst snd].
  split_and!; try done.
  - apply NoDup_fmap_2; [|apply NoDup_seq]. intros i j Hij. lia.
  - intros id (i & -> & Hi%elem_of_seq)%list_elem_of_fmap. lia.
Qed.

Lemma NewId_successive_witness :
  (ShardedLRUCache.NewIds 3 0).1 = (0 + Z.of_nat 3)%Z ∧
  (ShardedLRUCache.NewIds 3 0).2 = (λ i, (0 + Z.of_nat i)%Z) <$> seq 1 3 ∧
  NoDup (ShardedLRUCache.NewIds 3 0).2 ∧
  (∀ id, id ∈ (ShardedLRUCache.NewIds 3 0).2 → (0 < id)%Z).
Proof. apply (NewId_successive 3 0); [lia|simpl; lia]. Defined.

(** ** Replacing an entry *)

Lemma Unref_calls (s s' : LRUCache.t) (e : Handle) :
  LRUCache.Unref s e = Some s' →
  ∃ more, LRUCache.deleter_calls s' = LRUCache.deleter_calls s ++ more ∧
          ∀ d, d ∈ more → LRUCache.call_entry d = e.
Proof.
  unfold LRUCache.Unref. intros Hu.
  destruct (LRUCache.heap s !! e) as [en|]; [|done].
  cbn [mbind option_bind] in Hu.
  destruct (_ <=? _)%Z; injection Hu as <-; simpl.
  - eexists. split; [done|]. by intros d ->%list_elem_of_singleton.
  - exists []. rewrite app_nil_r. split; [done|].
    intros d Hd. by apply elem_of_nil in Hd.
Qed.

Lemma evict_untouched_refl (s : LRUCache.t) :
  (∀ x, x ∉ LRUCache.lru_ s →
        LRUCache.heap s !! x = LRUCache.heap s !! x) ∧
  (∀ x, x ∈ LRUCache.lru_ s → x ∈ LRUCache.lru_ s) ∧
  ∃ more, LRUCache.deleter_calls s = LRUCache.deleter_calls s ++ more ∧
          ∀ d, d ∈ more → LRUCache.call_entry d ∈ LRUCache.lru_ s.
Proof.
  split_and!; try done. exists []. rewrite app_nil_r.
  split; [done|]. intros d Hd. by apply elem_of_nil in Hd.
Qed.

(** The eviction loop touches only entries of the LRU list. *)
Lemma evict_untouched (fuel : nat) (s s' : LRUCache.t) :
  LRUCache.evict fuel s = Some s' →
  (∀ x, x ∉ LRUCache.lru_ s →
        LRUCache.heap s' !! x = LRUCache.heap s !! x) ∧
  (∀ x, x ∈ LRUCache.lru_ s' → x ∈ LRUCache.lru_ s) ∧
  ∃ more, LRUCache.deleter_calls s' = LRUCache.deleter_calls s ++ more ∧
          ∀ d, d ∈ more → LRUCache.call_entry d ∈ LRUCache.lru_ s.
Proof.
  revert s. induction fuel as [|fuel IH]; intros s; simpl.
  - destruct (LRUCache.lru_ s) as [|old l] eqn:Hl.
    + intros [= <-]. rewrite <- Hl. apply evict_untouched_refl.
    + destruct (_ <? _)%Z; [done|]. intros [= <-]. rewrite <- Hl.
      apply evict_untouched_refl.
  - destruct (LRUCache.lru_ s) as [|old l] eqn:Hl.
    + intros [= <-]. rewrite <- Hl. apply evict_untouched_refl.
    + destruct (_ <? _)%Z.
      2:{ intros [= <-]. rewrite <- Hl. apply evict_untouched_refl. }
      destruct (LRUCache.evict_one s old) as [s1|] eqn:He; [|done]. simpl.
      intros Hev. destruct (IH s1 Hev) as (Hh & Hsub & more & Hc & Hm).
      destruct (evict_one_frame _ _ _ He) as [Hfr _].
      assert (Hl1 : LRUCache.lru_ s1 = LRUCache.LRU_Remove old (old :: l) ∧
                ∃ m1, LRUCache.deleter_calls s1 = LRUCache.deleter_calls s ++ m1 ∧
                      ∀ d, d ∈ m1 → LRUCache.call_entry d = old).
      { unfold LRUCache.evict_one in He. cbn [LRUCache.heap LRUCache.set_lru] in He.
        destruct (LRUCache.heap s !! old); [|done].
        cbn [mbind option_bind] in He.
        destruct (HandleTable.Remove _ _ _ _) as [r|]; [|done].
        cbn [mbind option_bind] in He.
        pose proof (Unref_calls _ _ _ He) as Hcalls.
        apply Unref_frame in He as (_ & Hlru & _). simpl in Hlru, Hcalls.
        rewrite Hl in Hlru. done. }
      destruct Hl1 as (Hl1 & m1 & Hc1 & Hm1).
      assert (Hsub1 : ∀ x, x ∈ LRUCache.lru_ s1 → x ∈ old :: l).
      { intros x. rewrite Hl1. unfold LRUCache.LRU_Remove.
        rewrite list_elem_of_filter. tauto. }
      split_and!.
      * intros x Hx. rewrite Hh; [apply Hfr|].
        -- intros ->. apply Hx. by left.
        -- intros Hin. by apply Hx, Hsub1.
      * intros x Hx. by apply Hsub1, Hsub.
      * exists (m1 ++ more). rewrite Hc, Hc1, <- app_assoc. split; [done|].
        intros d [Hd|Hd]%elem_of_app.
        -- rewrite (Hm1 d Hd). by left.
        -- by apply Hsub1, Hm.
Qed.

(** X20.  An insert under a key and hash that the cache already holds, in
    any state a caller can bring a shard to.  [Insert] returns the new
    entry, and the old entry is no longer on the LRU list: a [Lookup] of the
    key that hits returns the new entry, never the old one.  When no caller
    holds the old entry it has been freed and its deleter called with its
    key and value; when a caller holds it, it stays allocated with one
    reference less and its deleter has not been called. *)
Theorem Insert_replaces (capacity : Z) (c : Client.config) (k : string)
    (hs v chg del : Z) (o : Handle) :
  Client.reachable capacity c →
  Client.valid (Client.Insert k hs v chg del) c →
  o ∈ LRUCache.lru_ (Client.shard c) →
  matches (LRUCache.heap (Client.shard c)) k hs o →
  ∃ s' e, LRUCache.Insert (Client.shard c) k hs v chg del
            = Some (s', LRUCache.brk (Client.shard c)) ∧
    LRUCache.heap (Client.shard c) !! o = Some e ∧
    (o ∉ LRUCache.lru_ s') ∧
    (∀ s'' h, LRUCache.Lookup s' k hs = Some (s'', Some h) →
              h = LRUCache.brk (Client.shard c)) ∧
    (o ∉ Client.held c →
     LRUCache.heap s' !! o = None ∧
     LRUCache.Call o (LRUHandle.deleter e) (LRUHandle.key e)
       (LRUHandle.value e) ∈ LRUCache.deleter_calls s') ∧
    (o ∈ Client.held c →
     LRUCache.heap s' !! o
     = Some (LRUHandle.set_refs (LRUHandle.refs e - 1) e) ∧
     o ∉ LRUCache.call_entry <$> LRUCache.deleter_calls s').
Proof.
  destruct c as [s held born]. simpl. intros Hreach [Hchg Hlen] Ho Hm.
  destruct (reachable_inv _ _ Hreach) as [Hinv _].
  pose proof Hinv as [I1 I2 I3 I4 I5 I6 I7 I8 I9 I10 I11 I12 I13 I14 I15].
  simpl in *.
  destruct (Insert_steps s held born k hs v chg del Hinv Hchg Hlen)
    as (s3 & old & Hold & Hins & Hi3 & Hl3 & _ & _ & Hfr3 & _ & _ & Hfresh
        & _ & Hofacts).
  rewrite (Lookup_table_Some _ _ k hs o) in Hold; [|done|by apply I3|done].
  injection Hold as <-.
  destruct (Hofacts o eq_refl) as (e & He & _ & _ & _ & Hcase).
  destruct (evict_spec (length (LRUCache.lru_ s3)) s3 _ _ Hi3 (le_n _))
    as (s4 & n & Hev & Hi4 & Hl4 & _ & _ & _ & Hfr & _ & _).
  destruct (evict_untouched _ _ _ Hev) as (Hun & Hsub & more & Hcalls & Hmore).
  assert (Hne : o ≠ LRUCache.brk s).
  { intros ->. by rewrite Hfresh in He. }
  assert (Ho3 : o ∉ LRUCache.lru_ s3).
  { rewrite Hl3, elem_of_app, list_elem_of_filter, list_elem_of_singleton.
    intros [[Hx _]|?]; [by apply Hx|done]. }
  exists s4, e. rewrite Hins, Hev. split; [done|]. split_and!.
  - done.
  - intros Hin. by apply Ho3, Hsub.
  - intros s'' h Hl. unfold LRUCache.Lookup in Hl.
    destruct (Lookup_table_spec _ _ k hs (inv_table _ _ Hi4))
      as (r & Hr & HS & _). simpl in Hr, HS. rewrite Hr in Hl. simpl in Hl.
    destruct r as [x|]; [|done].
    destruct (LRUCache.heap s4 !! x) eqn:Hx4; [|done]. simpl in Hl.
    injection Hl as _ <-.
    destruct (HS x eq_refl) as [Hx (ex & Hex & Hhx & Hkx)].
    apply (inv_lru_table _ _ Hi4) in Hx. simpl in Hx.
    destruct (decide (x = LRUCache.brk s)) as [|Hxe]; [done|]. exfalso.
    pose proof (Hsub x Hx) as Hx3.
    rewrite (Hfr x Hx), (Hfr3 x Hx3 Hxe) in Hex.
    rewrite Hl3, elem_of_app, list_elem_of_filter, list_elem_of_singleton in Hx3.
    destruct Hx3 as [[Hxo Hxl]|?]; [|done]. apply Hxo. f_equal.
    destruct Hm as (eo & Heo & Hho & Hko).
    apply (wf_unique _ _ I1 x o ex eo); try congruence; by apply I3.
  - intros Hnh. destruct Hcase as [(_ & H3 & Hc3)|(? & _)]; [|done].
    rewrite (Hun o Ho3). split; [done|].
    rewrite Hcalls, Hc3, !elem_of_app, list_elem_of_singleton. left. by right.
  - intros Hh. destruct Hcase as [(? & _)|(_ & H3 & Hc3)]; [done|].
    rewrite (Hun o Ho3). split; [done|].
    rewrite (inv_calls _ _ Hi4 o). simpl. rewrite (Hun o Ho3), H3.
    by intros [_ ?].
Qed.

(** The held entry of key ["A"] is replaced: the lookup finds the new entry
    and the old one keeps its value for its holder. *)
Lemma Insert_replaces_witness :
  ∃ s' e, LRUCache.Insert (Client.shard one_cached) "A" 7 200 1 1
            = Some (s', 1) ∧
    LRUCache.heap (Client.shard one_cached) !! 0 = Some e ∧
    LRUCache.lru_ s' = [1] ∧
    LRUCache.heap s' !! 0 = Some (LRUHandle.Make 100 1 1 "A" 1 7) ∧
    LRUCache.deleter_calls s' = [].
Proof.
  destruct (Insert_replaces 5 one_cached "A" 7 200 1 1 0 one_cached_reachable)
    as (s' & e & Hi & He & _ & _ & _ & Hheld).
  { vm_compute. split; [discriminate|reflexivity]. }
  { vm_compute. apply list_elem_of_here. }
  { eexists. split; [vm_compute; reflexivity|]. split; reflexivity. }
  exists s', e. split; [exact Hi|]. split; [exact He|].
  vm_compute in Hi. injection Hi as <-.
  split; [vm_compute; reflexivity|]. split; vm_compute; reflexivity.
Defined.

(** ** The operations of the sharded cache *)

Lemma new_ok (capacity : Z) :
  ShardedLRUCache.ok capacity (ShardedLRUCache.new capacity).
Proof.
  unfold ShardedLRUCache.ok, ShardedLRUCache.new. split.
  - by rewrite length_replicate.
  - intros i c [-> _]%lookup_replicate. split; [apply Client.reach_init|].
    intros h e He. simpl in He. by rewrite lookup_empty in He.
Qed.

Lemma ok_heap_hash (capacity : Z) (cs : list Client.config) (i : nat)
    (c : Client.config) (h : Handle) (e : LRUHandle.t) :
  ShardedLRUCache.ok capacity cs → cs !! i = Some c →
  LRUCache.heap (Client.shard c) !! h = Some e →
  ShardedLRUCache.shard_of (LRUHandle.hash e) = i.
Proof.
  intros [_ Hok] Hc He. destruct (Hok i c Hc) as [Hreach Hborn].
  destruct (reachable_inv _ _ Hreach) as [Hinv _].
  apply (Hborn h (LRUHandle.set_refs 2 e)).
  by apply (inv_born_heap _ _ Hinv).
Qed.

(** One valid operation on one shard returns and keeps the invariant, when
    an insert carries a hash that belongs to the shard. *)
Lemma on_shard_ok (capacity : Z) (cs : list Client.config) (i : nat)
    (c : Client.config) (o : Client.op) :
  ShardedLRUCache.ok capacity cs → cs !! i = Some c → Client.valid o c →
  match o with
  | Client.Insert _ hs _ _ _ => ShardedLRUCache.shard_of hs = i
  | _ => True
  end →
  ∃ c', Client.run o c = Some c' ∧
    ShardedLRUCache.on_shard i o cs = Some (<[i := c']> cs) ∧
    ShardedLRUCache.ok capacity (<[i := c']> cs).
Proof.
  intros [Hlen Hok] Hc Hv Hhs. destruct (Hok i c Hc) as [Hreach Hborn].
  destruct (reachable_inv _ _ Hreach) as [Hinv _].
  destruct (run_inv o c Hinv Hv) as (c' & Hrun & _).
  exists c'. split; [done|]. unfold ShardedLRUCache.on_shard.
  rewrite Hc. simpl. rewrite Hrun. simpl. split; [done|].
  split; [by rewrite length_insert|].
  intros j cj Hj. destruct (decide (j = i)) as [-> |Hne].
  - rewrite list_lookup_insert_eq in Hj by (by eapply lookup_lt_Some).
    injection Hj as <-. split; [by eapply Client.reach_step|].
    intros h e He. destruct o as [k hs v chg del|k hs|h0|k hs]; simpl in Hrun.
    + destruct (LRUCache.Insert _ _ _ _ _ _) as [r|]; [|done].
      simpl in Hrun. injection Hrun as <-. simpl in He.
      destruct (decide (h = r.2)) as [-> |Hn].
      * rewrite lookup_insert_eq in He. by injection He as <-.
      * rewrite lookup_insert_ne in He by done. by eapply Hborn.
    + destruct (LRUCache.Lookup _ _ _) as [r|]; [|done].
      simpl in Hrun. injection Hrun as <-. by eapply Hborn.
    + destruct (LRUCache.Release _ _) as [r|]; [|done].
      simpl in Hrun. injection Hrun as <-. by eapply Hborn.
    + destruct (LRUCache.Erase _ _ _) as [r|]; [|done].
      simpl in Hrun. injection Hrun as <-. by eapply Hborn.
  - rewrite list_lookup_insert_ne in Hj by done. by apply Hok.
Qed.

Lemma shard_of_lt (CityHash64 : string → Z) (key : string) :
  ShardedLRUCache.shard_of (ShardedLRUCache.HashSlice CityHash64 key)
  < Z.to_nat ShardedLRUCache.kNumShards.
Proof.
  unfold ShardedLRUCache.shard_of, ShardedLRUCache.Shard,
    ShardedLRUCache.HashSlice, ShardedLRUCache.kNumShardBits.
  change (32 - 4)%Z with 28%Z. rewrite Z.shiftr_div_pow2 by lia.
  change ShardedLRUCache.kNumShards with 16%Z.
  pose proof (Z.mod_pos_bound (CityHash64 key) (2 ^ 32) ltac:(lia)) as Hb.
  unfold wrap32.
  assert (0 ≤ CityHash64 key `mod` 2 ^ 32 / 2 ^ 28 < 16)%Z; [|lia].
  split; [apply Z.div_pos; lia|apply Z.div_lt_upper_bound; lia].
Qed.

(** X22.  The sharded cache in any state that its operations keep (16
    shards, each in a state its callers can have brought it to, each entry
    in the shard of its hash), which is the state of a new cache.  Every
    operation returns and keeps that state, and touches no other shard than
    the one of the key's hash.  [Insert] hands out a handle of that shard
    which the caller then holds.  A hit of [Lookup] is a handle of that
    shard, held by the caller, whose [Value] is defined.  [Release] of a
    handle that a caller holds finds, from the hash stored in the entry, the
    shard that allocated it. *)
Theorem Sharded_operations (CityHash64 : string → Z) (capacity : Z)
    (cs : list Client.config) :
  ShardedLRUCache.ok capacity cs →
  (∀ key v chg del c,
     cs !! ShardedLRUCache.shard_of (ShardedLRUCache.HashSlice CityHash64 key)
       = Some c →
     Client.valid
       (Client.Insert key (ShardedLRUCache.HashSlice CityHash64 key) v chg del)
       c →
     ∃ cs' h c',
       ShardedLRUCache.Insert CityHash64 cs key v chg del = Some (cs', h) ∧
       ShardedLRUCache.ok capacity cs' ∧
       h.1 = ShardedLRUCache.shard_of
               (ShardedLRUCache.HashSlice CityHash64 key) ∧
       (∀ j, j ≠ h.1 → cs' !! j = cs !! j) ∧
       cs' !! h.1 = Some c' ∧ h.2 ∈ Client.held c') ∧
  (∀ key c,
     cs !! ShardedLRUCache.shard_of (ShardedLRUCache.HashSlice CityHash64 key)
       = Some c →
     Client.valid
       (Client.Lookup key (ShardedLRUCache.HashSlice CityHash64 key)) c →
     ∃ cs' r,
       ShardedLRUCache.Lookup CityHash64 cs key = Some (cs', r) ∧
       ShardedLRUCache.ok capacity cs' ∧
       (∀ j, j ≠ ShardedLRUCache.shard_of
                   (ShardedLRUCache.HashSlice CityHash64 key) →
             cs' !! j = cs !! j) ∧
       ∀ h, r = Some h →
         h.1 = ShardedLRUCache.shard_of
                 (ShardedLRUCache.HashSlice CityHash64 key) ∧
         (∃ c', cs' !! h.1 = Some c' ∧ h.2 ∈ Client.held c') ∧
         is_Some (ShardedLRUCache.Value cs' h)) ∧
  (∀ h c, cs !! h.1 = Some c → h.2 ∈ Client.held c →
     ∃ cs', ShardedLRUCache.Release cs h = Some cs' ∧
       ShardedLRUCache.ok capacity cs' ∧
       ∀ j, j ≠ h.1 → cs' !! j = cs !! j) ∧
  (∀ key, ∃ cs', ShardedLRUCache.Erase CityHash64 cs key = Some cs' ∧
     ShardedLRUCache.ok capacity cs' ∧
     ∀ j, j ≠ ShardedLRUCache.shard_of
                 (ShardedLRUCache.HashSlice CityHash64 key) →
          cs' !! j = cs !! j).
Proof.
  intros Hok. pose proof Hok as [Hlen Hshards]. split_and!.
  - intros key v chg del c Hc Hv.
    destruct (on_shard_ok capacity cs _ c _ Hok Hc Hv eq_refl)
      as (c' & Hrun & Hon & Hok').
    unfold ShardedLRUCache.Insert. rewrite Hc. cbn [mbind option_bind].
    simpl in Hrun.
    destruct (LRUCache.Insert _ _ _ _ _ _) as [r|] eqn:Hi; [|done].
    simpl in Hrun. injection Hrun as <-. cbn [mbind option_bind].
    rewrite Hon. cbn [mbind option_bind].
    do 3 eexists. split; [reflexivity|]. cbn [fst snd].
    split; [exact Hok'|]. split; [reflexivity|]. split; [|split].
    + intros j Hj. by rewrite list_lookup_insert_ne.
    + apply list_lookup_insert_eq. by eapply lookup_lt_Some.
    + cbn [Client.held]. apply gmultiset_elem_of_disj_union. right.
      by apply gmultiset_elem_of_singleton.
  - intros key c Hc Hv.
    destruct (on_shard_ok capacity cs _ c _ Hok Hc Hv I)
      as (c' & Hrun & Hon & Hok').
    unfold ShardedLRUCache.Lookup. rewrite Hc. cbn [mbind option_bind].
    simpl in Hrun.
    destruct (LRUCache.Lookup _ _ _) as [r|] eqn:Hl; [|done].
    simpl in Hrun. injection Hrun as <-. cbn [mbind option_bind].
    rewrite Hon. cbn [mbind option_bind].
    do 2 eexists. split; [reflexivity|]. split; [exact Hok'|]. split.
    + intros j Hj. by rewrite list_lookup_insert_ne.
    + intros h Hh. destruct r as [s' [x|]]; cbn [fst snd] in *; [|done].
      injection Hh as <-. cbn [fst snd].
      assert (Hi : (<[ShardedLRUCache.shard_of
                        (ShardedLRUCache.HashSlice CityHash64 key) :=
                      Client.Config s' (Client.held c ⊎ {[+ x +]})
                        (Client.born c)]> cs)
                   !! ShardedLRUCache.shard_of
                        (ShardedLRUCache.HashSlice CityHash64 key)
                   = Some (Client.Config s' (Client.held c ⊎ {[+ x +]})
                             (Client.born c))).
      { apply list_lookup_insert_eq. by eapply lookup_lt_Some. }
      assert (Hx : x ∈ Client.held c ⊎ {[+ x +]}).
      { apply gmultiset_elem_of_disj_union. right.
        by apply gmultiset_elem_of_singleton. }
      split; [reflexivity|]. split; [eauto|].
      unfold ShardedLRUCache.Value. cbn [fst snd]. rewrite Hi.
      cbn [mbind option_bind Client.shard].
      destruct Hok' as [_ Hs']. destruct (Hs' _ _ Hi) as [Hreach _].
      destruct (reachable_inv _ _ Hreach) as [Hinv _].
      destruct (inv_held_live _ _ Hinv x Hx) as [e He].
      cbn [Client.shard] in He. rewrite He. cbn [mbind option_bind]. eauto.
  - intros h c Hc Hh. destruct (Hshards _ _ Hc) as [Hreach _].
    destruct (reachable_inv _ _ Hreach) as [Hinv _].
    destruct (inv_held_live _ _ Hinv _ Hh) as [e He].
    destruct (on_shard_ok capacity cs h.1 c (Client.Release h.2) Hok Hc Hh I)
      as (c' & Hrun & Hon & Hok').
    unfold ShardedLRUCache.Release. rewrite Hc. cbn [mbind option_bind].
    rewrite He. cbn [mbind option_bind].
    rewrite decide_True
      by exact (ok_heap_hash capacity cs h.1 c h.2 e Hok Hc He).
    rewrite Hon. eexists. split; [reflexivity|]. split; [exact Hok'|].
    intros j Hj. by rewrite list_lookup_insert_ne.
  - intros key.
    destruct (lookup_lt_is_Some_2 cs
                (ShardedLRUCache.shard_of
                   (ShardedLRUCache.HashSlice CityHash64 key))) as [c Hc].
    { rewrite Hlen. apply shard_of_lt. }
    destruct (on_shard_ok capacity cs _ c
                (Client.Erase key (ShardedLRUCache.HashSlice CityHash64 key))
                Hok Hc I I) as (c' & Hrun & Hon & Hok').
    unfold ShardedLRUCache.Erase. rewrite Hon. eexists.
    split; [reflexivity|]. split; [exact Hok'|].
    intros j Hj. by rewrite list_lookup_insert_ne.
Qed.

(** On a new cache of capacity 80, whose shards have capacity 5, with a hash
    function that sends every key to shard 0. *)
Lemma Sharded_operations_witness :
  ∃ cs' h, ShardedLRUCache.Insert (λ _, 7%Z) (ShardedLRUCache.new 80)
             "A" 100 1 1 = Some (cs', h) ∧
    h.1 = 0 ∧ ShardedLRUCache.ok 80 cs'.
Proof.
  destruct (Sharded_operations (λ _, 7%Z) 80 (ShardedLRUCache.new 80)
              (new_ok 80)) as (Hins & _).
  destruct (Hins "A" 100%Z 1%Z 1%Z
              (Client.init (ShardedLRUCache.per_shard 80)))
    as (cs' & h & c' & Hi & Hok & Hh & _).
  { vm_compute. reflexivity. }
  { vm_compute. split; [discriminate|reflexivity]. }
  exists cs', h. split; [exact Hi|]. split; [|exact Hok].
  rewrite Hh. vm_compute. reflexivity.
Defined.

(** X23.  On a sharded cache in a state that its operations keep, an insert
    whose charge, together with the charges of the entries of the key's
    shard to which callers hold handles, is within the capacity of one
    shard (the live charges of that shard staying below 2^64): [Insert]
    returns a handle, [Value] of the handle is the value inserted, and
    [Lookup] of the key returns the same handle. *)
Theorem Sharded_Insert_Lookup (CityHash64 : string → Z) (capacity : Z)
    (cs : list Client.config) (key : string) (v chg del : Z)
    (c : Client.config) :
  ShardedLRUCache.ok capacity cs →
  cs !! ShardedLRUCache.shard_of (ShardedLRUCache.HashSlice CityHash64 key)
    = Some c →
  Client.valid
    (Client.Insert key (ShardedLRUCache.HashSlice CityHash64 key) v chg del)
    c →
  (pinned_charge (Client.held c) (LRUCache.heap (Client.shard c)) + chg
   ≤ ShardedLRUCache.per_shard capacity)%Z →
  (live_charge (LRUCache.heap (Client.shard c)) + chg < 2 ^ 64)%Z →
  ∃ cs' h, ShardedLRUCache.Insert CityHash64 cs key v chg del
           = Some (cs', h) ∧
    ShardedLRUCache.Value cs' h = Some v ∧
    ∃ cs'', ShardedLRUCache.Lookup CityHash64 cs' key = Some (cs'', Some h).
Proof.
  intros Hok Hc Hv Hpin Hsum. pose proof Hok as [Hlen Hshards].
  destruct (Hshards _ _ Hc) as [Hreach _].
  destruct (reachable_inv _ _ Hreach) as [Hinv Hcap].
  destruct c as [s held born].
  cbn [Client.valid Client.shard Client.held] in Hv, Hpin, Hsum, Hcap.
  destruct Hv as [Hchg Hl]. rewrite <- Hcap in Hpin.
  destruct (Insert_fits s held born key
              (ShardedLRUCache.HashSlice CityHash64 key) v chg del Hinv Hchg
              Hl Hpin Hsum)
    as (s' & Hi & Hinv' & _ & _ & He & s'' & Hlk).
  assert (Hi' : cs !! ShardedLRUCache.shard_of
                        (ShardedLRUCache.HashSlice CityHash64 key)
                = Some (Client.Config s held born)) by exact Hc.
  unfold ShardedLRUCache.Insert. rewrite Hi'. cbn [mbind option_bind].
  cbn [Client.shard]. rewrite Hi. cbn [mbind option_bind].
  unfold ShardedLRUCache.on_shard. rewrite Hi'. cbn [mbind option_bind].
  cbn [Client.run Client.shard]. rewrite Hi. cbn [mbind option_bind fst snd].
  match goal with |- context [<[_ := ?C]> cs] => set (c1 := C) end.
  assert (H1 : <[ShardedLRUCache.shard_of
                   (ShardedLRUCache.HashSlice CityHash64 key) := c1]> cs
               !! ShardedLRUCache.shard_of
                    (ShardedLRUCache.HashSlice CityHash64 key) = Some c1).
  { apply list_lookup_insert_eq. by eapply lookup_lt_Some. }
  do 2 eexists. split; [reflexivity|]. split.
  - unfold ShardedLRUCache.Value. cbn [fst snd]. rewrite H1.
    cbn [mbind option_bind]. unfold c1. cbn [Client.shard].
    rewrite He. reflexivity.
  - unfold ShardedLRUCache.Lookup, ShardedLRUCache.on_shard. rewrite H1.
    subst c1. cbn [mbind option_bind Client.run Client.shard]. rewrite Hlk.
    cbn [mbind option_bind fst snd]. eexists. reflexivity.
Qed.

Lemma Sharded_Insert_Lookup_witness :
  ∃ cs' h, ShardedLRUCache.Insert (λ _, 7%Z) (ShardedLRUCache.new 80)
             "A" 100 1 1 = Some (cs', h) ∧
    ShardedLRUCache.Value cs' h = Some 100%Z ∧
    ∃ cs'', ShardedLRUCache.Lookup (λ _, 7%Z) cs' "A" = Some (cs'', Some h).
Proof.
  apply (Sharded_Insert_Lookup (λ _, 7%Z) 80 (ShardedLRUCache.new 80)
           "A" 100 1 1 (Client.init (ShardedLRUCache.per_shard 80))
           (new_ok 80)).
  - vm_compute. reflexivity.
  - vm_compute. split; [discriminate|reflexivity].
  - vm_compute. discriminate.
  - vm_compute. reflexivity.
Defined.

(** * The MemRowSet: further properties of the code *)

Lemma IsGhost_loop_app (g : bool) (a b : list Mutation) :
  IsGhost_loop g (a ++ b) = IsGhost_loop g a ≫= λ g', IsGhost_loop g' b.
Proof.
  revert g. induction a as [|m a IH]; intros g; [done|]. simpl.
  destruct (negb _); [done|].
  destruct (is_delete _); [apply IH|].
  destruct (is_reinsert _); apply IH.
Qed.

(** X13.  [MRSRow::IsGhost] on a row that was never mutated returns false.
    On a row with one more mutation at the tail of its chain it returns true
    after a DELETE, false after a REINSERT and what it returned before after
    an UPDATE; it ends the process when the new change list does not decode,
    and when it did so on the chain before. *)
Theorem IsGhost_append (row : MRSRow) (m : Mutation) :
  (∀ ts body, IsGhost (MkMRSRow ts [] body) = Some false) ∧
  (∀ g, IsGhost row = Some g →
     IsGhost (AppendToList m row)
     = match changelist_ m with
       | kDelete => Some true
       | kReinsert _ => Some false
       | kUpdate _ => Some g
       | kMalformed _ => None
       end) ∧
  (IsGhost row = None → IsGhost (AppendToList m row) = None).
Proof.
  split; [done|]. unfold IsGhost, AppendToList. simpl.
  split.
  - intros g Hg. rewrite IsGhost_loop_app, Hg. simpl.
    by destruct (changelist_ m).
  - intros Hg. by rewrite IsGhost_loop_app, Hg.
Qed.

Lemma Slice_compare_Eq (a b : string) : Slice_compare a b = Eq → a = b.
Proof. unfold Slice_compare. apply String.compare_eq_iff. Qed.

(** The insert of a key that the index does not hold succeeds; the key is
    then found with the value inserted and the other keys are found as
    before. *)
Lemma tree_insert_Some (k : string) (v : MRSRow) (t : MSBTree) :
  tree_lookup k t = None →
  ∃ t', tree_insert k v t = Some t' ∧
    tree_lookup k t' = Some v ∧
    (∀ k', k' ≠ k → tree_lookup k' t' = tree_lookup k' t) ∧
    length t' = S (length t).
Proof.
  induction t as [|[k0 v0] t IH]; simpl; intros Hl.
  - exists [(k, v)]. simpl. rewrite decide_True by done.
    split_and!; try done. intros k' Hne. by rewrite decide_False.
  - destruct (decide (k0 = k)) as [|Hne0]; [done|].
    destruct (Slice_compare k k0) eqn:Hc.
    + apply Slice_compare_Eq in Hc. congruence.
    + eexists. split; [done|]. simpl. rewrite decide_True by done.
      split_and!; try done. intros k' Hne. by rewrite (decide_False (P := k = k')).
    + destruct (IH Hl) as (t' & Hi & Hk & Ho & Hlen). rewrite Hi. simpl.
      eexists. split; [done|]. simpl. rewrite decide_False by done.
      split_and!; [done| |by rewrite Hlen].
      intros k' Hne. destruct (decide (k0 = k')); [done|]. by apply Ho.
Qed.

Lemma tree_lookup_alter_ne (f : MRSRow → MRSRow) (k k' : string) (t : MSBTree) :
  k' ≠ k → tree_lookup k' (tree_alter f k t) = tree_lookup k' t.
Proof.
  intros Hne. induction t as [|[k0 v] t IH]; [done|]. simpl.
  destruct (decide (k0 = k)) as [-> |Hne0]; simpl.
  - by rewrite !decide_False by done.
  - destruct (decide (k0 = k')); [done|]. apply IH.
Qed.

Lemma length_tree_alter (f : MRSRow → MRSRow) (k : string) (t : MSBTree) :
  length (tree_alter f k t) = length t.
Proof.
  induction t as [|[k0 v] t IH]; [done|]. simpl.
  destruct (decide (k0 = k)); simpl; by rewrite ?IH.
Qed.

Lemma Status_ok_true (st : Status) : Status_ok st = true ↔ st = OK.
Proof. by destruct st. Qed.

(** [MutateRow] on a live row. *)
Lemma MutateRow_live `{Collaborators} (timestamp : Z) (probe : string)
    (delta : RowChangeList) (op_id : OpId) (stats : ProbeStats)
    (result : OperationResultPB) (mrs : MemRowSet) (v : MRSRow) :
  tree_lookup probe (tree_ mrs) = Some v → IsGhost v = Some false →
  ∃ mrs', MutateRow timestamp probe delta op_id stats result mrs
          = Some (OK, mrs', MkProbeStats (mrs_consulted stats + 1),
                  MkResult (mutated_stores result ++ [id_ mrs])) ∧
    tree_ mrs' = tree_alter (AppendToList (MkMutation timestamp delta)) probe
                   (tree_ mrs) ∧
    id_ mrs' = id_ mrs ∧
    FLAGS_memrowset_throttle_mb mrs' = FLAGS_memrowset_throttle_mb mrs ∧
    debug_update_count_ mrs' = (debug_update_count_ mrs + 1)%Z ∧
    debug_insert_count_ mrs' = debug_insert_count_ mrs.
Proof.
  intros Hl Hg. unfold MutateRow. rewrite Hl, Hg. simpl.
  eexists. split; [done|].
  by rewrite SlowMutators_exact.
Qed.

Lemma SlowMutators_fields (mrs : MemRowSet) :
  tree_ (SlowMutators mrs) = tree_ mrs ∧
  arena_ (SlowMutators mrs) = arena_ mrs ∧
  anchorer_ (SlowMutators mrs) = anchorer_ mrs ∧
  id_ (SlowMutators mrs) = id_ mrs ∧
  FLAGS_memrowset_throttle_mb (SlowMutators mrs)
    = FLAGS_memrowset_throttle_mb mrs ∧
  debug_insert_count_ (SlowMutators mrs) = debug_insert_count_ mrs ∧
  debug_update_count_ (SlowMutators mrs) = debug_update_count_ mrs.
Proof. by rewrite SlowMutators_exact. Qed.

(** The four ways of [Insert] on a row that passes its [CHECK]. *)
Lemma Insert_live `{Collaborators} (timestamp : Z) (row : string)
    (op_id : OpId) (mrs : MemRowSet) (v : MRSRow) :
  has_column_ids row = true →
  tree_lookup (EncodeComparableKey row) (tree_ mrs) = Some v →
  IsGhost v = Some false →
  Insert timestamp row op_id mrs
  = Some (AlreadyPresent "entry already present in memrowset", mrs).
Proof.
  intros Hc Hl Hg. rewrite (Insert_checked _ _ _ _ Hc). by rewrite Hl, Hg.
Qed.

Lemma Insert_ghost `{Collaborators} (timestamp : Z) (row : string)
    (op_id : OpId) (mrs : MemRowSet) (v : MRSRow) :
  has_column_ids row = true →
  tree_lookup (EncodeComparableKey row) (tree_ mrs) = Some v →
  IsGhost v = Some true →
  Insert timestamp row op_id mrs
  = Some (if Status_ok (CopyRow (arena_ mrs) row).1.1 then
            (OK,
             set_tree
               (tree_alter
                  (AppendToList
                     (MkMutation timestamp
                        (kReinsert (CopyRow (arena_ mrs) row).2)))
                  (EncodeComparableKey row) (tree_ mrs))
               (CreateInArena (CopyRow (arena_ mrs) row).1.2
                  (MkMutation timestamp
                     (kReinsert (CopyRow (arena_ mrs) row).2))) mrs)
          else ((CopyRow (arena_ mrs) row).1.1,
                set_tree (tree_ mrs) (CopyRow (arena_ mrs) row).1.2 mrs)).
Proof.
  intros Hc Hl Hg. rewrite (Insert_checked _ _ _ _ Hc). unfold Reinsert.
  rewrite Hl, Hg. simpl.
  destruct (CopyRow (arena_ mrs) row) as [[st a] r]. simpl.
  by destruct (Status_ok st).
Qed.

Lemma Insert_absent `{Collaborators} (timestamp : Z) (row : string)
    (op_id : OpId) (mrs : MemRowSet) :
  has_column_ids row = true →
  tree_lookup (EncodeComparableKey row) (tree_ mrs) = None →
  ∃ tree1,
    tree_insert (EncodeComparableKey row)
      (MkMRSRow timestamp [] (CopyRow (arena_ mrs) row).2) (tree_ mrs)
    = Some tree1 ∧
    tree_lookup (EncodeComparableKey row) tree1
    = Some (MkMRSRow timestamp [] (CopyRow (arena_ mrs) row).2) ∧
    (∀ k', k' ≠ EncodeComparableKey row →
           tree_lookup k' tree1 = tree_lookup k' (tree_ mrs)) ∧
    length tree1 = S (length (tree_ mrs)) ∧
    Insert timestamp row op_id mrs
    = Some (if Status_ok (CopyRow (arena_ mrs) row).1.1 then
              (OK,
               SlowMutators
                 (incr_insert_count
                    (AnchorIfMinimum op_id
                       (set_tree tree1 (CopyRow (arena_ mrs) row).1.2 mrs))))
            else ((CopyRow (arena_ mrs) row).1.1,
                  set_tree (tree_ mrs) (CopyRow (arena_ mrs) row).1.2 mrs)).
Proof.
  intros Hc Hl.
  destruct (tree_insert_Some _
              (MkMRSRow timestamp [] (CopyRow (arena_ mrs) row).2) _ Hl)
    as (tree1 & Hi & Hk & Ho & Hlen).
  exists tree1. split_and!; try done.
  rewrite (Insert_checked _ _ _ _ Hc). rewrite Hl.
  destruct (CopyRow (arena_ mrs) row) as [[st a] r]. simpl in *.
  destruct (Status_ok st); simpl; [|done]. by rewrite Hi.
Qed.

Lemma CheckRowPresent_found (probe : string) (stats : ProbeStats)
    (mrs : MemRowSet) (v : MRSRow) (g : bool) :
  tree_lookup probe (tree_ mrs) = Some v → IsGhost v = Some g →
  CheckRowPresent probe stats mrs
  = Some (OK, negb g, MkProbeStats (mrs_consulted stats + 1)).
Proof. intros Hl Hg. unfold CheckRowPresent. by rewrite Hl, Hg. Qed.

(** X14.  [CheckRowPresent] ends the process only on a key whose mutation
    chain does not decode.  When it returns, its status is OK, it has counted
    the probe in [mrs_consulted] whether or not the key is there, and it
    reports the key present exactly when the index holds it and [IsGhost] is
    false.  [MutateRow] and [Insert] on that key then return too:
    [MutateRow] returns OK and counts its probe when the key is present, and
    returns [NotFound] and changes nothing, its counter included, when it is
    not; [Insert] of a row that passes the [CHECK] on its schema returns
    [AlreadyPresent] exactly when the key is present, and [Insert] of a row
    whose schema has no column ids ends the process. *)
Theorem CheckRowPresent_agrees `{Collaborators} (probe : string)
    (stats : ProbeStats) (mrs : MemRowSet) :
  (CheckRowPresent probe stats mrs = None ↔
   ∃ v, tree_lookup probe (tree_ mrs) = Some v ∧ IsGhost v = None) ∧
  (∀ st present stats',
     CheckRowPresent probe stats mrs = Some (st, present, stats') →
     st = OK ∧ stats' = MkProbeStats (mrs_consulted stats + 1) ∧
     (present = true ↔
      ∃ v, tree_lookup probe (tree_ mrs) = Some v ∧ IsGhost v = Some false) ∧
     (∀ ts delta op_id stats2 result,
        ∃ st2 mrs2 stats2' result2,
          MutateRow ts probe delta op_id stats2 result mrs
          = Some (st2, mrs2, stats2', result2) ∧
          (present = true →
           st2 = OK ∧
           stats2' = MkProbeStats (mrs_consulted stats2 + 1)) ∧
          (present = false →
           (∃ msg, st2 = NotFound msg) ∧ mrs2 = mrs ∧ stats2' = stats2 ∧
           result2 = result)) ∧
     (∀ ts row op_id, EncodeComparableKey row = probe →
        (has_column_ids row = true →
         ∃ st3 mrs3, Insert ts row op_id mrs = Some (st3, mrs3) ∧
           (present = true ↔ ∃ msg, st3 = AlreadyPresent msg)) ∧
        (has_column_ids row = false → Insert ts row op_id mrs = None))).
Proof.
  split.
  - unfold CheckRowPresent.
    destruct (tree_lookup probe (tree_ mrs)) as [v|] eqn:Hl.
    + destruct (IsGhost v) eqn:Hg; simpl.
      * split; [done|]. intros (v' & [= <-] & Hn). congruence.
      * split; [eauto|done].
    + split; [done|]. by intros (v' & ? & _).
  - intros st present stats' Hc. unfold CheckRowPresent in Hc.
    destruct (tree_lookup probe (tree_ mrs)) as [v|] eqn:Hl.
    + destruct (IsGhost v) as [g|] eqn:Hg; [|done]. simpl in Hc.
      injection Hc as <- <- <-. split_and!; try done.
      * split.
        -- intros Hn. exists v. split; [done|]. by destruct g.
        -- intros (v' & [= <-] & Hg'). rewrite Hg in Hg'. by injection Hg' as ->.
      * intros ts delta op_id stats2 result. destruct g; simpl.
        -- unfold MutateRow. rewrite Hl, Hg. simpl. do 4 eexists.
           split; [done|]. split; [done|]. intros _. eauto.
        -- destruct (MutateRow_live ts probe delta op_id stats2 result mrs v
                       Hl Hg) as (mrs' & Hm & _).
           rewrite Hm. do 4 eexists. split; [done|]. split; done.
      * intros ts row op_id <-.
        split; [intros Hcheck|apply Insert_unchecked]. destruct g; simpl.
        -- rewrite (Insert_ghost ts row op_id mrs v Hcheck Hl Hg).
           pose proof (CopyRow_status (arena_ mrs) row) as Hcs.
           destruct (Status_ok _) eqn:Hok; do 2 eexists; (split; [done|]).
           ++ split; [done|]. by intros (msg & ?).
           ++ split; [done|]. intros (msg & Hm). by destruct (Hcs msg).
        -- rewrite (Insert_live ts row op_id mrs v Hcheck Hl Hg).
           do 2 eexists. split; [done|]. split; eauto.
    + injection Hc as <- <- <-. split_and!; try done.
      * split; [done|]. by intros (v' & ? & _).
      * intros ts delta op_id stats2 result. unfold MutateRow. rewrite Hl.
        do 4 eexists. split; [done|]. split; [done|]. intros _. eauto.
      * intros ts row op_id <-.
        split; [intros Hcheck|apply Insert_unchecked].
        destruct (Insert_absent ts row op_id mrs Hcheck Hl)
          as (t1 & _ & _ & _ & _ & Hi).
        rewrite Hi. pose proof (CopyRow_status (arena_ mrs) row) as Hcs.
        destruct (Status_ok _) eqn:Hok; do 2 eexists; (split; [done|]).
        -- split; [done|]. by intros (msg & ?).
        -- split; [done|]. intros (msg & Hm). by destruct (Hcs msg).
Qed.

(** X15.  [Insert] of a row that passes the [CHECK] on its schema and whose
    key the index does not hold.  When the
    copy of the row fails, [Insert] returns the status of the copy and the
    index is as it was.  When it succeeds, [Insert] returns OK; the key is
    then in the index with the insertion timestamp given, an empty mutation
    chain and the copied row; every other key is found as before; the index
    has one entry more and the insert counter is one more; [CheckRowPresent]
    reports the key present, and a second [Insert] of the key, with a row
    that passes the [CHECK], returns [AlreadyPresent] and changes nothing. *)
Theorem Insert_fresh_row `{Collaborators} (timestamp : Z) (row : string)
    (op_id : OpId) (mrs : MemRowSet) :
  has_column_ids row = true →
  tree_lookup (EncodeComparableKey row) (tree_ mrs) = None →
  (Status_ok (CopyRow (arena_ mrs) row).1.1 = false →
   Insert timestamp row op_id mrs
   = Some ((CopyRow (arena_ mrs) row).1.1,
           set_tree (tree_ mrs) (CopyRow (arena_ mrs) row).1.2 mrs)) ∧
  (Status_ok (CopyRow (arena_ mrs) row).1.1 = true →
   ∃ mrs', Insert timestamp row op_id mrs = Some (OK, mrs') ∧
     tree_lookup (EncodeComparableKey row) (tree_ mrs')
     = Some (MkMRSRow timestamp [] (CopyRow (arena_ mrs) row).2) ∧
     (∀ k, k ≠ EncodeComparableKey row →
           tree_lookup k (tree_ mrs') = tree_lookup k (tree_ mrs)) ∧
     length (tree_ mrs') = S (length (tree_ mrs)) ∧
     debug_insert_count_ mrs' = (debug_insert_count_ mrs + 1)%Z ∧
     (∀ stats, CheckRowPresent (EncodeComparableKey row) stats mrs'
               = Some (OK, true, MkProbeStats (mrs_consulted stats + 1))) ∧
     (∀ ts2 row2 op2, EncodeComparableKey row2 = EncodeComparableKey row →
        has_column_ids row2 = true →
        Insert ts2 row2 op2 mrs'
        = Some (AlreadyPresent "entry already present in memrowset", mrs'))).
Proof.
  intros Hcheck Hl.
  destruct (Insert_absent timestamp row op_id mrs Hcheck Hl)
    as (t1 & _ & Hk & Ho & Hlen & Hi).
  rewrite Hi. split; intros Hok; rewrite Hok; [done|].
  eexists. split; [done|].
  match goal with |- context [SlowMutators ?M] => set (m1 := M) end.
  destruct (SlowMutators_fields m1) as (Ht & _ & _ & _ & _ & Hic & _).
  rewrite Ht, Hic. simpl.
  assert (Hlk : tree_lookup (EncodeComparableKey row)
                  (tree_ (SlowMutators m1))
                = Some (MkMRSRow timestamp [] (CopyRow (arena_ mrs) row).2))
    by (by rewrite Ht).
  split_and!; try done.
  - intros stats. by rewrite (CheckRowPresent_found _ _ _ _ false Hlk).
  - intros ts2 row2 op2 Hk2 Hcheck2.
    apply (Insert_live ts2 row2 op2 _
             (MkMRSRow timestamp [] (CopyRow (arena_ mrs) row).2));
      [done| |done].
    by rewrite Hk2.
Qed.

(** Scenario 3, first step: "k3" goes into an empty store. *)
Lemma Insert_fresh_row_witness :
  ∃ mrs', Insert (H := simple) 10 "k3" (MkOpId 1 9) (new_MemRowSet 7 0)
          = Some (OK, mrs') ∧
    tree_lookup "k3" (tree_ mrs') = Some (MkMRSRow 10 [] "k3") ∧
    length (tree_ mrs') = 1 ∧
    CheckRowPresent "k3" (MkProbeStats 0) mrs'
    = Some (OK, true, MkProbeStats 1).
Proof.
  destruct (Insert_fresh_row (H := simple) 10 "k3" (MkOpId 1 9)
              (new_MemRowSet 7 0) eq_refl eq_refl) as [_ Hok].
  destruct (Hok eq_refl) as (mrs' & Hi & Hk & _ & Hlen & _ & Hc & _).
  exists mrs'. split; [exact Hi|]. split; [exact Hk|]. split; [exact Hlen|].
  exact (Hc (MkProbeStats 0)).
Defined.

(** X16.  A DELETE on a live row, and what follows.  [MutateRow] with a
    DELETE returns OK and appends the mutation; the key is then a ghost:
    [CheckRowPresent] reports it absent and every further [MutateRow]
    returns [NotFound] and changes nothing.  An [Insert] of the key, with a
    row that passes the [CHECK] on its schema and whose
    copy succeeds, then returns OK without adding an index entry: the row
    keeps its insertion timestamp and its body, its chain has gained the
    DELETE and a REINSERT that carries the copied row, and
    [CheckRowPresent] reports it present again. *)
Theorem delete_then_reinsert `{Collaborators} (probe : string) (v : MRSRow)
    (mrs : MemRowSet) (ts : Z) (op_id : OpId) (stats : ProbeStats)
    (result : OperationResultPB) :
  tree_lookup probe (tree_ mrs) = Some v → IsGhost v = Some false →
  ∃ mrs1,
    MutateRow ts probe kDelete op_id stats result mrs
    = Some (OK, mrs1, MkProbeStats (mrs_consulted stats + 1),
            MkResult (mutated_stores result ++ [id_ mrs])) ∧
    tree_lookup probe (tree_ mrs1)
    = Some (AppendToList (MkMutation ts kDelete) v) ∧
    length (tree_ mrs1) = length (tree_ mrs) ∧
    (∀ stats1, CheckRowPresent probe stats1 mrs1
               = Some (OK, false, MkProbeStats (mrs_consulted stats1 + 1))) ∧
    (∀ ts2 delta op2 stats2 result2,
       MutateRow ts2 probe delta op2 stats2 result2 mrs1
       = Some (NotFound "not in memrowset (ghost)", mrs1, stats2, result2)) ∧
    (∀ ts3 row op3, EncodeComparableKey row = probe →
       has_column_ids row = true →
       Status_ok (CopyRow (arena_ mrs1) row).1.1 = true →
       ∃ mrs2, Insert ts3 row op3 mrs1 = Some (OK, mrs2) ∧
         tree_lookup probe (tree_ mrs2)
         = Some (MkMRSRow (insertion_timestamp v)
                   (redo_head v ++
                      [MkMutation ts kDelete;
                       MkMutation ts3
                         (kReinsert (CopyRow (arena_ mrs1) row).2)])
                   (row_slice v)) ∧
         length (tree_ mrs2) = length (tree_ mrs) ∧
         ∀ stats3, CheckRowPresent probe stats3 mrs2
                   = Some (OK, true, MkProbeStats (mrs_consulted stats3 + 1))).
Proof.
  intros Hl Hg.
  destruct (MutateRow_live ts probe kDelete op_id stats result mrs v Hl Hg)
    as (mrs1 & Hm & Ht & _).
  exists mrs1. split; [done|].
  assert (Hl1 : tree_lookup probe (tree_ mrs1)
                = Some (AppendToList (MkMutation ts kDelete) v)).
  { by rewrite Ht, tree_lookup_alter, Hl. }
  assert (Hg1 : IsGhost (AppendToList (MkMutation ts kDelete) v) = Some true).
  { unfold IsGhost, AppendToList in *. simpl.
    by rewrite IsGhost_loop_app, Hg. }
  assert (Hlen1 : length (tree_ mrs1) = length (tree_ mrs)).
  { by rewrite Ht, length_tree_alter. }
  split_and!; try done.
  - intros stats1. by rewrite (CheckRowPresent_found _ _ _ _ true Hl1 Hg1).
  - intros ts2 delta op2 stats2 result2. unfold MutateRow.
    by rewrite Hl1, Hg1.
  - intros ts3 row op3 <- Hcheck Hok.
    rewrite (Insert_ghost ts3 row op3 mrs1 _ Hcheck Hl1 Hg1), Hok.
    eexists. split; [done|]. simpl.
    assert (Hl2 : tree_lookup (EncodeComparableKey row)
              (tree_alter
                 (AppendToList
                    (MkMutation ts3 (kReinsert (CopyRow (arena_ mrs1) row).2)))
                 (EncodeComparableKey row) (tree_ mrs1))
            = Some (MkMRSRow (insertion_timestamp v)
                      (redo_head v ++
                         [MkMutation ts kDelete;
                          MkMutation ts3
                            (kReinsert (CopyRow (arena_ mrs1) row).2)])
                      (row_slice v))).
    { rewrite tree_lookup_alter, Hl1. unfold AppendToList. simpl.
      by rewrite <- app_assoc. }
    split_and!; [done|by rewrite length_tree_alter|].
    intros stats3. unfold CheckRowPresent. cbn [tree_ set_tree].
    rewrite Hl2. unfold IsGhost in *. cbn [redo_head].
    by rewrite (IsGhost_loop_app false (redo_head v)), Hg.
Qed.

(** Scenario 3: "k3" is deleted and inserted again. *)
Lemma delete_then_reinsert_witness :
  ∃ mrs mrs1 mrs2,
    live_k3 = Some mrs ∧
    MutateRow (H := simple) 20 "k3" kDelete (MkOpId 1 10) (MkProbeStats 0)
      (MkResult []) mrs
    = Some (OK, mrs1, MkProbeStats 1, MkResult [7%Z]) ∧
    CheckRowPresent "k3" (MkProbeStats 0) mrs1
    = Some (OK, false, MkProbeStats 1) ∧
    Insert (H := simple) 30 "k3" (MkOpId 1 11) mrs1 = Some (OK, mrs2) ∧
    tree_lookup "k3" (tree_ mrs2)
    = Some (MkMRSRow 10
              [MkMutation 20 kDelete; MkMutation 30 (kReinsert "k3")] "k3").
Proof.
  eexists _.
  destruct (delete_then_reinsert (H := simple) "k3" (MkMRSRow 10 [] "k3")
              (default (new_MemRowSet 7 0) live_k3) 20 (MkOpId 1 10)
              (MkProbeStats 0) (MkResult []))
    as (mrs1 & Hm & _ & _ & Hc & _ & Hr); [vm_compute; reflexivity..|].
  destruct (Hr 30%Z "k3" (MkOpId 1 11) eq_refl eq_refl)
    as (mrs2 & Hi & Hk & _).
  { vm_compute in Hm. injection Hm as <-. vm_compute. reflexivity. }
  exists mrs1, mrs2. split; [vm_compute; reflexivity|].
  split; [exact Hm|]. split; [exact (Hc (MkProbeStats 0))|].
  split; [exact Hi|]. vm_compute in Hm. injection Hm as <-. exact Hk.
Defined.

Lemma extends_refl (v : MRSRow) : extends v v.
Proof.
  unfold extends. split_and!; try done. exists [].
  rewrite app_nil_r. split; [done|simpl; lia].
Qed.

Lemma history_same_tree (mrs mrs' : MemRowSet) :
  tree_ mrs' = tree_ mrs → id_ mrs' = id_ mrs →
  FLAGS_memrowset_throttle_mb mrs' = FLAGS_memrowset_throttle_mb mrs →
  history_kept mrs mrs'.
Proof.
  intros Ht Hid Hf. unfold history_kept. rewrite Ht. split_and!; try done.
  - intros k v Hk. exists v. split; [done|apply extends_refl].
  - intros k v' Hk. left. eauto.
Qed.

Lemma history_alter (mrs mrs' : MemRowSet) (m : Mutation) (k : string) :
  tree_ mrs' = tree_alter (AppendToList m) k (tree_ mrs) →
  id_ mrs' = id_ mrs →
  FLAGS_memrowset_throttle_mb mrs' = FLAGS_memrowset_throttle_mb mrs →
  history_kept mrs mrs'.
Proof.
  intros Ht Hid Hf. unfold history_kept. rewrite Ht. split_and!; try done.
  - intros k0 v Hk. destruct (decide (k0 = k)) as [-> |Hne].
    + rewrite tree_lookup_alter, Hk. simpl. eexists. split; [done|].
      unfold extends. simpl. split_and!; try done. exists [m].
      split; [done|simpl; lia].
    + rewrite tree_lookup_alter_ne by done. exists v.
      split; [done|apply extends_refl].
  - intros k0 v' Hk. left. destruct (decide (k0 = k)) as [-> |Hne].
    + rewrite tree_lookup_alter in Hk.
      destruct (tree_lookup k (tree_ mrs)); [eauto|done].
    + rewrite tree_lookup_alter_ne in Hk by done. eauto.
Qed.

(** X17.  Whatever [Insert] or [MutateRow] returns, the history of the
    store is kept: every key that was in the index is still there, its row
    has the insertion timestamp and the body it had, and its mutation chain
    is the chain it had, followed by at most one new mutation; a key that
    was not there before comes with an empty chain.  No write removes a row,
    rewrites a row body, or changes a mutation that is already chained. *)
Theorem writes_keep_history `{Collaborators} (mrs : MemRowSet) :
  (∀ ts row op_id st mrs',
     Insert ts row op_id mrs = Some (st, mrs') → history_kept mrs mrs') ∧
  (∀ ts probe delta op_id stats result st mrs' stats' result',
     MutateRow ts probe delta op_id stats result mrs
     = Some (st, mrs', stats', result') → history_kept mrs mrs').
Proof.
  split.
  - intros ts row op_id st mrs' Hi.
    destruct (has_column_ids row) eqn:Hc;
      [|by rewrite (Insert_unchecked _ _ _ _ Hc) in Hi].
    destruct (tree_lookup (EncodeComparableKey row) (tree_ mrs)) as [v|] eqn:Hl.
    + destruct (IsGhost v) as [[|]|] eqn:Hg.
      * rewrite (Insert_ghost ts row op_id mrs v Hc Hl Hg) in Hi.
        destruct (Status_ok _); injection Hi as <- <-.
        -- by eapply history_alter.
        -- by apply history_same_tree.
      * rewrite (Insert_live ts row op_id mrs v Hc Hl Hg) in Hi.
        injection Hi as <- <-. by apply history_same_tree.
      * rewrite (Insert_checked _ _ _ _ Hc) in Hi. by rewrite Hl, Hg in Hi.
    + destruct (Insert_absent ts row op_id mrs Hc Hl)
        as (t1 & _ & Hk & Ho & _ & Hi').
      rewrite Hi' in Hi. destruct (Status_ok _); injection Hi as <- <-.
      * match goal with |- context [SlowMutators ?M] => set (m1 := M) end.
        destruct (SlowMutators_fields m1) as (Ht & _ & _ & Hid & Hf & _).
        unfold history_kept. rewrite Ht, Hid, Hf. simpl.
        split_and!; try done.
        -- intros k v Hkv. exists v. split; [|apply extends_refl].
           rewrite Ho; [done|]. intros ->. congruence.
        -- intros k v' Hkv.
           destruct (decide (k = EncodeComparableKey row)) as [-> |Hne].
           ++ right. rewrite Hk in Hkv. by injection Hkv as <-.
           ++ left. rewrite Ho in Hkv by done. eauto.
      * by apply history_same_tree.
  - intros ts probe delta op_id stats result st mrs' stats' result' Hm.
    destruct (tree_lookup probe (tree_ mrs)) as [v|] eqn:Hl.
    + destruct (IsGhost v) as [[|]|] eqn:Hg.
      * unfold MutateRow in Hm. rewrite Hl, Hg in Hm. simpl in Hm.
        injection Hm as <- <- <- <-. by apply history_same_tree.
      * destruct (MutateRow_live ts probe delta op_id stats result mrs v Hl Hg)
          as (m1 & Hm1 & Ht & Hid & Hf & _).
        rewrite Hm1 in Hm. injection Hm as <- <- <- <-.
        by eapply history_alter.
      * unfold MutateRow in Hm. by rewrite Hl, Hg in Hm.
    + unfold MutateRow in Hm. rewrite Hl in Hm.
      injection Hm as <- <- <- <-. by apply history_same_tree.
Qed.

Lemma warnings_app (a b : list event) :
  warnings (a ++ b) = warnings a + warnings b.
Proof. unfold warnings. by rewrite filter_app, length_app. Qed.

Lemma slept_app (a b : list event) : slept (a ++ b) = slept a ++ slept b.
Proof. unfold slept. by rewrite omap_app. Qed.

Lemma to_int32_small (z : Z) :
  (- 2 ^ 31 ≤ z < 2 ^ 31)%Z → to_int32 z = z.
Proof.
  intros Hz. unfold to_int32, wrap32.
  destruct (decide (0 ≤ z)%Z) as [Hp|Hn].
  - rewrite Z.mod_small by lia. destruct (Z.ltb_spec z (2 ^ 31)); lia.
  - rewrite <- (Z_mod_plus_full z 1 (2 ^ 32)).
    rewrite Z.mod_small by lia.
    destruct (Z.ltb_spec (z + 1 * 2 ^ 32) (2 ^ 31)); lia.
Qed.

Lemma to_int32_high (z : Z) :
  (2 ^ 31 ≤ z < 2 ^ 32)%Z → to_int32 z = (z - 2 ^ 32)%Z.
Proof.
  intros Hz. unfold to_int32, wrap32. rewrite Z.mod_small by lia.
  destruct (Z.ltb_spec z (2 ^ 31)); lia.
Qed.

Lemma to_ssize_small (z : Z) :
  (- 2 ^ 63 ≤ z < 2 ^ 63)%Z → to_ssize z = z.
Proof.
  intros Hz. unfold to_ssize, wrap64.
  destruct (decide (0 ≤ z)%Z) as [Hp|Hn].
  - rewrite Z.mod_small by lia. destruct (Z.ltb_spec z (2 ^ 63)); lia.
  - rewrite <- (Z_mod_plus_full z 1 (2 ^ 64)).
    rewrite Z.mod_small by lia.
    destruct (Z.ltb_spec (z + 1 * 2 ^ 64) (2 ^ 63)); lia.
Qed.

(** The excess where the [int] product does not overflow, and where it
    does. *)
Lemma over_mem_in_range (flag footprint : Z) :
  (- 2048 ≤ flag < 2048)%Z → (0 ≤ footprint < 2 ^ 63 - 2 ^ 31)%Z →
  over_mem flag footprint = (footprint - flag * 1048576)%Z.
Proof.
  intros Hf Hm. unfold over_mem.
  rewrite (to_int32_small (flag * 1024)) by lia.
  rewrite to_int32_small by lia. rewrite to_ssize_small by lia. lia.
Qed.

Lemma over_mem_overflow (flag footprint : Z) :
  (2048 ≤ flag < 4096)%Z → (0 ≤ footprint < 2 ^ 62)%Z →
  over_mem flag footprint = (footprint + (4096 - flag) * 1048576)%Z.
Proof.
  intros Hf Hm. unfold over_mem.
  rewrite (to_int32_small (flag * 1024)) by lia.
  rewrite to_int32_high by lia. rewrite to_ssize_small by lia. lia.
Qed.

(** One call of [SlowMutators], by cases. *)
Lemma SlowMutators_cases (mrs : MemRowSet) :
  (((FLAGS_memrowset_throttle_mb mrs = 0)%Z ∨
    (over_mem (FLAGS_memrowset_throttle_mb mrs) (arena_ mrs) ≤ 0)%Z) ∧
   SlowMutators mrs = log_event EvSlowMutators mrs) ∨
  ((FLAGS_memrowset_throttle_mb mrs ≠ 0)%Z ∧
   (0 < over_mem (FLAGS_memrowset_throttle_mb mrs) (arena_ mrs))%Z ∧
   has_logged_throttling_ (SlowMutators mrs)
   = (if (has_logged_throttling_ mrs =? 0)%Z then 1%Z
      else has_logged_throttling_ mrs) ∧
   trace (SlowMutators mrs)
   = trace mrs ++ [EvSlowMutators] ++
       (if (has_logged_throttling_ mrs =? 0)%Z
        then [EvLogWarning "Throttling memrowset insert rate"] else []) ++
       [EvSleep
          (over_mem (FLAGS_memrowset_throttle_mb mrs) (arena_ mrs)
           / 524288)]).
Proof.
  rewrite SlowMutators_exact. unfold throttle_logged, throttle_events.
  cbn [has_logged_throttling_ trace].
  destruct (Z.eqb_spec (FLAGS_memrowset_throttle_mb mrs) 0) as [Hf|Hf];
    cbn [orb]; [left; split; [by left|done]|].
  destruct (Z.leb_spec
              (over_mem (FLAGS_memrowset_throttle_mb mrs) (arena_ mrs)) 0)
    as [Ho|Ho]; [left; split; [by right|done]|].
  right. split_and!; try done.
Qed.

Lemma SlowMutators_warnings (mrs : MemRowSet) :
  (has_logged_throttling_ mrs = 0%Z ∧
   ((has_logged_throttling_ (SlowMutators mrs) = 0%Z ∧
     warnings (trace (SlowMutators mrs)) = warnings (trace mrs)) ∨
    (has_logged_throttling_ (SlowMutators mrs) ≠ 0%Z ∧
     warnings (trace (SlowMutators mrs)) = warnings (trace mrs) + 1))) ∨
  (has_logged_throttling_ mrs ≠ 0%Z ∧
   has_logged_throttling_ (SlowMutators mrs) ≠ 0%Z ∧
   warnings (trace (SlowMutators mrs)) = warnings (trace mrs)).
Proof.
  destruct (SlowMutators_cases mrs) as [[_ ->]|(_ & _ & Hl & Ht)].
  - simpl. rewrite warnings_app. change (warnings [EvSlowMutators]) with 0.
    destruct (decide (has_logged_throttling_ mrs = 0%Z)) as [H0|H0].
    + left. split; [done|]. left. split; [done|lia].
    + right. split_and!; [done..|lia].
  - rewrite Hl, Ht, !warnings_app.
    destruct (Z.eqb_spec (has_logged_throttling_ mrs) 0) as [H0|H0].
    + left. split; [done|]. right. split; [done|].
      unfold warnings. simpl. lia.
    + right. split_and!; [done..|]. unfold warnings. simpl. lia.
Qed.

Lemma SlowMutators_iter_warnings (n : nat) (mrs : MemRowSet) :
  (has_logged_throttling_ (Nat.iter n SlowMutators mrs) = 0%Z ∧
   has_logged_throttling_ mrs = 0%Z ∧
   warnings (trace (Nat.iter n SlowMutators mrs)) = warnings (trace mrs)) ∨
  (has_logged_throttling_ (Nat.iter n SlowMutators mrs) ≠ 0%Z ∧
   has_logged_throttling_ mrs = 0%Z ∧
   warnings (trace (Nat.iter n SlowMutators mrs))
   ≤ warnings (trace mrs) + 1) ∨
  (has_logged_throttling_ (Nat.iter n SlowMutators mrs) ≠ 0%Z ∧
   has_logged_throttling_ mrs ≠ 0%Z ∧
   warnings (trace (Nat.iter n SlowMutators mrs)) = warnings (trace mrs)).
Proof.
  induction n as [|n IH]; simpl.
  - destruct (decide (has_logged_throttling_ mrs = 0%Z)); [left|right; right];
      done.
  - destruct (SlowMutators_warnings (Nat.iter n SlowMutators mrs))
      as [[H0 [[H1 Hw]|[H1 Hw]]]|(H0 & H1 & Hw)];
      destruct IH as [(I0 & I1 & Iw)|[(I0 & I1 & Iw)|(I0 & I1 & Iw)]];
      try done.
    + left. split_and!; [done..|lia].
    + right. left. split_and!; [done..|lia].
    + right. left. split_and!; [done..|lia].
    + right. right. split_and!; [done..|lia].
Qed.

(** X18.  [SlowMutators] changes nothing of the store but the throttling
    flag and what the process logs and sleeps.  The excess it computes is
    the footprint of the arena minus the flag [memrowset_throttle_mb] times
    1024 * 1024, the product taken in 32-bit [int]s.  With the flag at 0, or
    an excess that is not above 0, it neither sleeps nor logs.  Otherwise it
    sleeps once, for the excess divided by 524288 microseconds, and it logs
    the throttling warning only if [has_logged_throttling_] was 0, which it
    then sets to 1.  For a flag below 2048 the excess is the footprint
    minus that many MiB; for a flag from 2048 to 4095 the product overflows
    and the excess is the footprint plus 4096 minus the flag MiB, so that
    every call sleeps: a flag of 2048 and a footprint of 0 give 4096
    microseconds.  Over any number of calls the warning is logged at most
    once, and never when the flag was already set. *)
Theorem SlowMutators_throttle (mrs : MemRowSet) :
  (tree_ (SlowMutators mrs) = tree_ mrs ∧
   arena_ (SlowMutators mrs) = arena_ mrs ∧
   anchorer_ (SlowMutators mrs) = anchorer_ mrs) ∧
  ((FLAGS_memrowset_throttle_mb mrs = 0)%Z ∨
   (over_mem (FLAGS_memrowset_throttle_mb mrs) (arena_ mrs) ≤ 0)%Z →
   SlowMutators mrs = log_event EvSlowMutators mrs ∧
   slept (trace (SlowMutators mrs)) = slept (trace mrs) ∧
   warnings (trace (SlowMutators mrs)) = warnings (trace mrs)) ∧
  ((FLAGS_memrowset_throttle_mb mrs ≠ 0)%Z →
   (0 < over_mem (FLAGS_memrowset_throttle_mb mrs) (arena_ mrs))%Z →
   slept (trace (SlowMutators mrs))
   = slept (trace mrs) ++
       [(over_mem (FLAGS_memrowset_throttle_mb mrs) (arena_ mrs)
         / 524288)%Z] ∧
   has_logged_throttling_ (SlowMutators mrs) ≠ 0%Z ∧
   warnings (trace (SlowMutators mrs))
   = warnings (trace mrs)
     + (if (has_logged_throttling_ mrs =? 0)%Z then 1 else 0)) ∧
  ((- 2048 ≤ FLAGS_memrowset_throttle_mb mrs < 2048)%Z →
   (0 ≤ arena_ mrs < 2 ^ 63 - 2 ^ 31)%Z →
   over_mem (FLAGS_memrowset_throttle_mb mrs) (arena_ mrs)
   = (arena_ mrs - FLAGS_memrowset_throttle_mb mrs * 1048576)%Z) ∧
  ((2048 ≤ FLAGS_memrowset_throttle_mb mrs < 4096)%Z →
   (0 ≤ arena_ mrs < 2 ^ 62)%Z →
   over_mem (FLAGS_memrowset_throttle_mb mrs) (arena_ mrs)
   = (arena_ mrs + (4096 - FLAGS_memrowset_throttle_mb mrs) * 1048576)%Z ∧
   slept (trace (SlowMutators mrs))
   = slept (trace mrs) ++
       [((arena_ mrs + (4096 - FLAGS_memrowset_throttle_mb mrs) * 1048576)
         / 524288)%Z]) ∧
  (∀ n, warnings (trace (Nat.iter n SlowMutators mrs))
        ≤ warnings (trace mrs) + 1) ∧
  (∀ n, has_logged_throttling_ mrs ≠ 0%Z →
        warnings (trace (Nat.iter n SlowMutators mrs))
        = warnings (trace mrs)).
Proof.
  assert (Hon : (FLAGS_memrowset_throttle_mb mrs ≠ 0)%Z →
    (0 < over_mem (FLAGS_memrowset_throttle_mb mrs) (arena_ mrs))%Z →
    slept (trace (SlowMutators mrs))
    = slept (trace mrs) ++
        [(over_mem (FLAGS_memrowset_throttle_mb mrs) (arena_ mrs)
          / 524288)%Z] ∧
    has_logged_throttling_ (SlowMutators mrs) ≠ 0%Z ∧
    warnings (trace (SlowMutators mrs))
    = warnings (trace mrs)
      + (if (has_logged_throttling_ mrs =? 0)%Z then 1 else 0)).
  { intros Hf Ho.
    destruct (SlowMutators_cases mrs) as [[Hoff _]|(_ & _ & Hl & Ht)]; [lia|].
    rewrite Hl, Ht, !slept_app, !warnings_app.
    destruct (Z.eqb_spec (has_logged_throttling_ mrs) 0) as [H0|H0];
      unfold warnings; simpl; split_and!; first [done | lia]. }
  split_and!.
  - apply SlowMutators_fields.
  - apply SlowMutators_fields.
  - apply SlowMutators_fields.
  - intros Hoff.
    destruct (SlowMutators_cases mrs) as [[_ ->]|(Hf & Ho & _)]; [|lia].
    split; [done|]. simpl. rewrite slept_app, warnings_app.
    change (warnings [EvSlowMutators]) with 0. simpl.
    rewrite app_nil_r. split; [done|lia].
  - exact Hon.
  - apply over_mem_in_range.
  - intros Hf Hm. pose proof (over_mem_overflow _ _ Hf Hm) as Ho.
    split; [exact Ho|]. rewrite <- Ho. apply Hon; lia.
  - intros n.
    destruct (SlowMutators_iter_warnings n mrs)
      as [(_ & _ & Hw)|[(_ & _ & Hw)|(_ & _ & Hw)]]; lia.
  - intros n Hn.
    destruct (SlowMutators_iter_warnings n mrs)
      as [(_ & ? & Hw)|[(_ & ? & Hw)|(_ & _ & Hw)]]; done.
Qed.

Lemma ApplyMutations_capacity `{Collaborators} (snap : MvccSnapshot)
    (muts : list Mutation) (i : nat) (dst : RowBlock) :
  row_capacity (ApplyMutationsToProjectedRow snap muts i dst).2
  = row_capacity dst.
Proof.
  unfold ApplyMutationsToProjectedRow. destruct dst as [n c rs sel a].
  destruct (apply_mutations _ _ _ _ _) as [[[st d] data] a'].
  destruct (Status_ok st); simpl; [|done]. by destruct d.
Qed.

(** What one iteration of the loop of [FetchRows] does to the iterator and
    to the size of the block. *)
Lemma FetchRows_body_block `{Collaborators} (t : MSBTree) (it : Iterator)
    (dst : RowBlock) (f : nat) (r : fetch_step) :
  FetchRows_body t it dst f = Some r →
  nrows (step_block r) = nrows dst ∧
  row_capacity (step_block r) = row_capacity dst ∧
  match r with
  | FetchBreak it1 _ => it1 = set_state kFinished it
  | FetchError st it1 _ => it1 = it ∧ st ≠ OK
  | FetchNext it1 _ => it1 = it
  end.
Proof.
  unfold FetchRows_body, GetCurrentEntry.
  destruct (t !! iter_ it) as [[k row]|]; [|done]. simpl.
  destruct (mvcc_snap_ it _); [|by intros [= <-]].
  destruct (_ && _); [by intros [= <-]|].
  destruct (ProjectRowForRead _ _) as [[st data] a].
  destruct (Status_ok st) eqn:Hs; simpl.
  2:{ intros [= <-]. simpl. split_and!; try done. intros ->. done. }
  destruct (ApplyMutationsToProjectedRow _ _ _ _) as [st' dst'] eqn:Ha.
  pose proof (ApplyMutations_nrows (mvcc_snap_ it) (redo_head row) f
                (write_row f data a dst)) as Hn.
  pose proof (ApplyMutations_capacity (mvcc_snap_ it) (redo_head row) f
                (write_row f data a dst)) as Hc.
  rewrite Ha in Hn, Hc. simpl in Hn, Hc.
  destruct (Status_ok st') eqn:Hs'; simpl; intros [= <-]; simpl;
    split_and!; try done.
  intros ->. done.
Qed.

Lemma FetchRows_loop_position `{Collaborators} (fuel : nat) (t : MSBTree)
    (it : Iterator) (dst : RowBlock) (f : nat)
    (st : Status) (it' : Iterator) (dst' : RowBlock) (f' : nat) :
  FetchRows_loop fuel t it dst f = Some (st, it', dst', f') →
  iter_ it' = iter_ it + (f' - f) ∧ f ≤ f' ∧
  mvcc_snap_ it' = mvcc_snap_ it ∧ upper_bound_ it' = upper_bound_ it ∧
  (state_ it' = state_ it ∨ state_ it' = kFinished) ∧
  (st = OK → state_ it' = kScanning → f < f') ∧
  nrows dst' = nrows dst ∧ row_capacity dst' = row_capacity dst ∧
  (f < nrows dst → f' ≤ nrows dst).
Proof.
  revert it dst f. induction fuel as [|fuel IH]; intros it dst f Hr; [done|].
  cbn [FetchRows_loop] in Hr.
  destruct (FetchRows_body t it dst f) as [r|] eqn:Hb; [|done]. simpl in Hr.
  destruct (FetchRows_body_block _ _ _ _ _ Hb) as (Hn & Hc & Hit).
  destruct r as [it1 dst1|st1 it1 dst1|it1 dst1]; simpl in Hn, Hc.
  - subst it1. injection Hr as <- <- <- <-. simpl.
    split_and!; first [done | lia | by right | by left].
  - destruct Hit as [-> Hst]. injection Hr as <- <- <- <-.
    split_and!; first [done | lia | by left].
  - subst it1. destruct (IsValid t _ && _) eqn:Hcont.
    + apply andb_true_iff in Hcont as [_ Hlt]. apply Nat.ltb_lt in Hlt.
      apply IH in Hr as (Hp & Hle & Hs & Hu & Hstate & Hprog & Hn' & Hc' & Hb').
      simpl in *. split_and!; first [done | lia | congruence].
    + injection Hr as <- <- <- <-. simpl.
      split_and!; first [done | lia | by left].
Qed.

Lemma Resize_0_selection (dst : RowBlock) :
  selection_vector (Resize 0 dst) = [].
Proof. unfold Resize. simpl. apply resize_0. Qed.

(** X19.  [NextBlock] always returns, and it leaves the row capacity of the
    block, the snapshot and the upper bound of the iterator as they were.
    On an index iterator that is past the last entry it returns [NotFound]
    with an empty block, whatever the state of the scan.  On a valid one
    that is not scanning it returns OK with an empty block and does not
    move.  When it is scanning and the block has capacity, an OK answer
    brings at most as many rows as the capacity, one selection bit for each,
    and the index iterator has advanced by exactly the number of rows
    returned; the scan is then either still scanning, with at least one row
    returned, or finished. *)
Theorem NextBlock_returns `{Collaborators} (t : MSBTree) (it : Iterator)
    (dst : RowBlock) :
  ∃ st it' dst', NextBlock t it dst = Some (st, it', dst') ∧
    row_capacity dst' = row_capacity dst ∧
    mvcc_snap_ it' = mvcc_snap_ it ∧ upper_bound_ it' = upper_bound_ it ∧
    (IsValid t (iter_ it) = false →
     st = NotFound "end of iter" ∧ it' = it ∧ nrows dst' = 0 ∧
     selection_vector dst' = []) ∧
    (IsValid t (iter_ it) = true → state_ it ≠ kScanning →
     st = OK ∧ it' = it ∧ nrows dst' = 0 ∧ selection_vector dst' = []) ∧
    (IsValid t (iter_ it) = true → state_ it = kScanning →
     0 < row_capacity dst → st = OK →
     nrows dst' ≤ row_capacity dst ∧
     length (selection_vector dst') = nrows dst' ∧
     iter_ it' = iter_ it + nrows dst' ∧
     ((state_ it' = kScanning ∧ 0 < nrows dst') ∨ state_ it' = kFinished)).
Proof.
  unfold NextBlock. destruct (IsValid t (iter_ it)) eqn:Hv; simpl.
  2:{ do 3 eexists. split; [reflexivity|]. split_and!; try done.
      intros _. split_and!; try done. apply Resize_0_selection. }
  destruct (bool_decide (state_ it = kScanning)) eqn:Hs; simpl.
  2:{ apply bool_decide_eq_false in Hs. do 3 eexists. split; [reflexivity|].
      split_and!; try done.
      intros _ _. split_and!; try done. apply Resize_0_selection. }
  apply bool_decide_eq_true in Hs.
  destruct (Nat.eqb_spec (row_capacity dst) 0) as [Hz|Hz].
  { do 3 eexists. split; [reflexivity|]. split_and!; try done. lia. }
  match goal with |- context [FetchRows t it ?D] => set (d0 := D) end.
  assert (Hn0 : nrows d0 = row_capacity dst) by done.
  assert (Hc0 : row_capacity d0 = row_capacity dst) by done.
  destruct (FetchRows_loop_total (nrows d0) t it d0 0 Hv) as ([[[st it1] d1] f] & Hf);
    [lia|lia|].
  unfold FetchRows. rewrite Hf. simpl.
  destruct (FetchRows_loop_position _ _ _ _ _ _ _ _ _ Hf)
    as (Hp & _ & Hsn & Hub & Hst & Hprog & Hn1 & Hc1 & Hb).
  destruct (Status_ok st) eqn:Hok; simpl.
  - apply Status_ok_true in Hok as ->.
    do 3 eexists. split; [reflexivity|]. simpl.
    split_and!; try done; try congruence.
    intros _ _ _ _. split_and!.
    + lia.
    + by rewrite length_resize.
    + lia.
    + destruct Hst as [Hst|Hst]; [left|by right].
      rewrite Hst. split; [done|]. apply Hprog; [done|congruence].
  - do 3 eexists. split; [reflexivity|]. split_and!; try done; try congruence.
    intros _ _ _ ->. done.
Qed.




